(** * Framed native-messaging protocol of the Universal Bookmark Manager

    A shallow embedding of

    - [packages/native-messaging/src/host.ts] (class [NativeMessagingHost]):
      the stdin stream assembler, the command dispatcher and the frame
      writer, and
    - [packages/extension/src/background/native-messaging.ts]
      (class [NativeMessagingClient]): the pending-request table with its
      timeouts, the connect / disconnect / reconnect life cycle and the
      wrappers [extractBookmarks], [getBookmarkDatabases] and [ping], and
    - [packages/shared/src/constants/index.ts]: the timeout constant and
      the class [EncryptionManager],

    together with the properties of the protocol specification that can be
    stated over them. *)

From Stdlib Require Import ZArith NArith List Lia Bool String Ascii.
From Stdlib.Strings Require Import Byte.
From Stdlib Require Import DecimalString.
From stdpp Require Import gmap strings list.
Import ListNotations.

Local Open Scope Z_scope.

(* ===================================================================== *)
(** ** Bytes and the 32-bit little-endian length header *)
(* ===================================================================== *)

Module Buf.

(** A Node [Buffer] is a sequence of octets. *)
Abbreviation Buffer := (list byte).

Definition byteZ (b : byte) : Z := Z.of_N (Byte.to_N b).

(** Storing a number into a [Uint8Array] slot keeps its low eight bits. *)
Definition Zbyte (z : Z) : byte :=
  match Byte.of_N (Z.to_N (Z.land z 255)) with
  | Some b => b
  | None => "000"%byte
  end.

(** [buf.length], as the JavaScript number it is. *)
Definition blen (buf : Buffer) : Z := Z.of_nat (length buf).

(** [Buffer.prototype.readUInt32LE(0)]:
    [first + this[1] * 2**8 + this[2] * 2**16 + last * 2**24];
    a buffer shorter than four bytes raises [ERR_OUT_OF_RANGE] ([None]). *)
Definition readUInt32LE (buf : Buffer) : option Z :=
  match buf with
  | b0 :: b1 :: b2 :: b3 :: _ =>
      Some (byteZ b0 + byteZ b1 * 2 ^ 8 + byteZ b2 * 2 ^ 16 + byteZ b3 * 2 ^ 24)
  | _ => None
  end.

(** The four bytes [writeUInt32LE] stores: low byte first, the value
    shifted right by eight bits after each store. *)
Definition le32 (value : Z) : Buffer :=
  [ Zbyte value
  ; Zbyte (Z.shiftr value 8)
  ; Zbyte (Z.shiftr value 16)
  ; Zbyte (Z.shiftr value 24) ].

(** [Buffer.alloc(4).writeUInt32LE(value, 0)]: the value is range-checked
    against [0 .. 0xffffffff] (a [RangeError] otherwise, [None]) and then
    stored. *)
Definition writeUInt32LE (value : Z) : option Buffer :=
  if (0 <=? value) && (value <=? 4294967295) then Some (le32 value) else None.

(** The wire form of one payload: its length as a header, then the
    payload itself. *)
Definition frame (payload : Buffer) : Buffer := le32 (blen payload) ++ payload.

(** [buf.slice(n)] and [buf.slice(0, n)] for [0 <= n]. *)
Definition slice_from (n : Z) (buf : Buffer) : Buffer := drop (Z.to_nat n) buf.
Definition slice_to (n : Z) (buf : Buffer) : Buffer := take (Z.to_nat n) buf.

End Buf.

Import Buf.

(* ===================================================================== *)
(** ** The stream assembler: [setupMessageListener] *)
(* ===================================================================== *)

Module Assembler.

(** The three variables captured by the ['data'] listener. *)
Record State := mkState
  { messageLength : Z
  ; messageBuffer : Buffer
  ; expectingLength : bool }.

(** Their values when [setupMessageListener] returns. *)
Definition initial : State :=
  {| messageLength := 0; messageBuffer := []; expectingLength := true |}.

(** Outcome of one turn of the [while (true)] body. *)
Inductive Turn :=
| Complete (s : State) (messageData : Buffer)  (* a frame was cut out; loop again *)
| Wait (s : State)                             (* [break]: wait for more data *)
| OutOfRange.                                  (* [readUInt32LE] raised *)

(** First [if] of the loop body: read the length header. *)
Definition readHeader (s : State) : option State :=
  if expectingLength s && (4 <=? blen (messageBuffer s)) then
    match readUInt32LE (messageBuffer s) with
    | Some n =>
        Some {| messageLength := n
              ; messageBuffer := slice_from 4 (messageBuffer s)
              ; expectingLength := false |}
    | None => None
    end
  else Some s.

(** Second [if] of the loop body: cut the payload out, or [break]. *)
Definition readPayload (s : State) : Turn :=
  if negb (expectingLength s) && (messageLength s <=? blen (messageBuffer s)) then
    Complete {| messageLength := 0
              ; messageBuffer := slice_from (messageLength s) (messageBuffer s)
              ; expectingLength := true |}
             (slice_to (messageLength s) (messageBuffer s))
  else Wait s.

Definition turn (s : State) : Turn :=
  match readHeader s with
  | Some s1 => readPayload s1
  | None => OutOfRange
  end.

(** Result of one run of the ['data'] listener. *)
Inductive Pass (A : Type) :=
| Drained (s : State) (out : list A)  (* the loop left through [break] *)
| Raised                               (* an exception left the listener *)
| Unfinished.                          (* the bound on turns was too small *)
Arguments Drained {A} s out.
Arguments Raised {A}.
Arguments Unfinished {A}.

Definition emit {A} (a : A) (p : Pass A) : Pass A :=
  match p with
  | Drained s out => Drained s (a :: out)
  | Raised => Raised
  | Unfinished => Unfinished
  end.

Section Listener.

(** What the [try { ... } catch { ... }] around each payload does with
    it; the loop itself only needs to know that it returns. *)
Context {A : Type} (deliver : Buffer -> A).

(** The [while (true)] loop, with a bound on the number of turns. *)
Fixpoint loop (fuel : nat) (s : State) : Pass A :=
  match fuel with
  | O => Unfinished
  | S fuel' =>
      match turn s with
      | Complete s' messageData => emit (deliver messageData) (loop fuel' s')
      | Wait s' => Drained s' []
      | OutOfRange => Raised
      end
  end.

(** [messageBuffer = Buffer.concat([messageBuffer, data])]. *)
Definition append (s : State) (data : Buffer) : State :=
  {| messageLength := messageLength s
   ; messageBuffer := messageBuffer s ++ data
   ; expectingLength := expectingLength s |}.

(** The ['data'] listener.  Every turn but the first removes at least
    the four header bytes, so [length + 2] turns always suffice (see
    [AssemblerFacts.onData_drains]). *)
Definition onData (s : State) (data : Buffer) : Pass A :=
  let s0 := append s data in
  loop (2 + length (messageBuffer s0)) s0.

(** A sequence of ['data'] events; the output of each pass is kept
    apart. *)
Fixpoint feed (s : State) (chunks : list Buffer) : Pass (list A) :=
  match chunks with
  | [] => Drained s []
  | data :: rest =>
      match onData s data with
      | Drained s' out => emit out (feed s' rest)
      | Raised => Raised
      | Unfinished => Unfinished
      end
  end.

End Listener.

(** *** Notions the properties are stated with *)

(** The bytes a state holds that belong to frames not yet cut out: the
    buffer, behind the header already taken off it if there is one. *)
Definition unconsumed (s : State) : Buffer :=
  if expectingLength s then messageBuffer s
  else le32 (messageLength s) ++ messageBuffer s.

(** A state in which the loop stops at once: no complete header while a
    length is expected, no complete payload otherwise. *)
Definition resting (s : State) : Prop := turn s = Wait s.

(** A length that was read is never negative. *)
Definition sane (s : State) : Prop :=
  expectingLength s = false -> 0 <= messageLength s.

(** Bound on the turns still to come. *)
Definition turns (s : State) : nat :=
  (length (messageBuffer s) + if expectingLength s then 0 else 1)%nat.

(** The loop as a relation: the payloads cut out until the [break], and
    the state left behind. *)
Inductive drains : State -> list Buffer -> State -> Prop :=
| drains_wait s s' :
    turn s = Wait s' -> drains s [] s'
| drains_complete s s1 d raw s' :
    turn s = Complete s1 d -> drains s1 raw s' -> drains s (d :: raw) s'.

End Assembler.


(* ===================================================================== *)
(** ** JavaScript values, exceptions and the two message shapes *)
(* ===================================================================== *)

Module Js.

(** Values, as far as the protocol inspects them.  Numbers are the
    integers: the code only ever tests a number for truthiness. *)
#[local] Unset Elimination Schemes.
Inductive Value :=
| Undefined
| Null
| Bool (b : bool)
| Number (n : Z)
| Str (s : string)
| Array (items : list Value)
| Object (props : list (string * Value)).
#[local] Set Elimination Schemes.

(** What a [throw] carries: an [Error] instance with its [message], or
    any other value. *)
Inductive Thrown :=
| Error (message : string)
| NonError (v : Value).

(** How a call, or an awaited promise, ends. *)
Inductive Result (A : Type) :=
| Ok (a : A)
| Throw (e : Thrown).
Arguments Ok {A} a.
Arguments Throw {A} e.

(** [ToBoolean]. *)
Definition truthy (v : Value) : bool :=
  match v with
  | Undefined | Null => false
  | Bool b => b
  | Number n => negb (n =? 0)
  | Str s => negb (String.eqb s EmptyString)
  | Array _ | Object _ => true
  end.

(** [a || b]. *)
Definition or (a b : Value) : Value := if truthy a then a else b.

(** Own property of a plain object. *)
Fixpoint prop (key : string) (props : list (string * Value)) : Value :=
  match props with
  | [] => Undefined
  | (k, v) :: rest => if String.eqb k key then v else prop key rest
  end.

(** [v?.browser]: [undefined] on a nullish [v]; the property of an
    object; [undefined] on primitives and arrays, which have no property
    of that name. *)
Definition optBrowser (v : Value) : Value :=
  match v with
  | Object props => prop "browser" props
  | _ => Undefined
  end.

Definition lowerAscii (c : ascii) : ascii :=
  let n := nat_of_ascii c in
  if (65 <=? n)%nat && (n <=? 90)%nat then ascii_of_nat (n + 32) else c.

(** [String.prototype.toLowerCase], on the ASCII letters.  Strings are
    kept as their UTF-8 bytes; no character outside ASCII lower-cases to
    a letter of ["chrome"], ["firefox"] or ["safari"], which is all the
    result is compared with. *)
Fixpoint toLowerCase (s : string) : string :=
  match s with
  | EmptyString => EmptyString
  | String c rest => String (lowerAscii c) (toLowerCase rest)
  end.

(** [JSON.stringify] followed by UTF-8 encoding, and UTF-8 decoding
    followed by [JSON.parse] ([None]: a [SyntaxError]), for the values of
    one TypeScript type.  Both belong to the platform. *)
Class Json (T : Type) :=
  { JSON_stringify : T -> Buffer
  ; JSON_parse : Buffer -> option T }.

End Js.

Import Js.

(** [interface NativeMessage] of [shared/src/types]. *)
Module NativeMessage.
Record t := mk
  { command : string
  ; data : Value            (* [data?: any]; [Undefined] when absent *)
  ; requestId : string }.
End NativeMessage.

(** [interface NativeResponse] of [shared/src/types]. *)
Module NativeResponse.
Record t := mk
  { success : bool
  ; data : Value            (* [data?: any] *)
  ; error : option string   (* [error?: string] *)
  ; requestId : string }.
End NativeResponse.

(* ===================================================================== *)
(** ** The host: dispatcher and frame writer *)
(* ===================================================================== *)

Module Host.

(** A computation of the host process: it appends to [stdout] and
    returns or throws. *)
Definition M (A : Type) : Type := Buffer -> Result A * Buffer.

Definition ret {A} (a : A) : M A := fun out => (Ok a, out).

Definition throw {A} (e : Thrown) : M A := fun out => (Throw e, out).

Definition bind {A B} (m : M A) (k : A -> M B) : M B :=
  fun out =>
    match m out with
    | (Ok a, out') => k a out'
    | (Throw e, out') => (Throw e, out')
    end.

(** [try { body } catch (error) { handler }]. *)
Definition tryCatch {A} (body : M A) (handler : Thrown -> M A) : M A :=
  fun out =>
    match body out with
    | (Ok a, out') => (Ok a, out')
    | (Throw e, out') => handler e out'
    end.

(** [await promise], the promise ending as [r].  While a handler is
    suspended others may run and write their own frames; a frame is
    written by two consecutive [write]s with no suspension in between, so
    frames never interleave, and what other handlers write is not shown
    here. *)
Definition await {A} (r : Result A) : M A := fun out => (r, out).

(** [stdout.write(chunk)]. *)
Definition write (chunk : Buffer) : M unit := fun out => (Ok tt, out ++ chunk).

Notation "'let*' x ':=' m 'in' k" := (bind m (fun x => k))
  (at level 10, x name, m at level 100, k at level 200).

(** The contract of the three extractor classes (their sources are
    outside the protocol): how each asynchronous call ends. *)
Record Extractor :=
  { extractBookmarks : Result Value
  ; getDatabasePath : Result Value }.

(** The fields of a [NativeMessagingHost], and the clock it reads. *)
Record Env :=
  { chromeExtractor : Extractor
  ; firefoxExtractor : Extractor
  ; safariExtractor : Extractor
  ; Date_now : Z }.

(** [sendMessage(message)], for a [message] of any type.  When
    [writeUInt32LE] rejects the length it throws a [RangeError], kept here
    by its error code. *)
Definition sendMessage {T} `{Json T} (message : T) : M unit :=
  let messageStr := JSON_stringify message in
  let messageLength := blen messageStr in
  match writeUInt32LE messageLength with
  | Some lengthBuffer => let* _ := write lengthBuffer in write messageStr
  | None => throw (Error "ERR_OUT_OF_RANGE")
  end.

Section Dispatcher.
Context `{JsonResponse : Json NativeResponse.t}.
Context (this : Env).

Definition sendResponse (response : NativeResponse.t) : M unit :=
  sendMessage response.

Definition sendError (error requestId : string) : M unit :=
  sendMessage
    {| NativeResponse.success := false
     ; NativeResponse.data := Undefined
     ; NativeResponse.error := Some error
     ; NativeResponse.requestId := requestId |}.

(** [extractBookmarks(browser)].  The argument is whatever
    [message.data?.browser || 'chrome'] evaluated to; a value that is
    not a string has no [toLowerCase] method. *)
Definition extractBookmarksFor (browser : Value) : M Value :=
  match browser with
  | Str name =>
      let lowered := toLowerCase name in
      if String.eqb lowered "chrome" then
        await (extractBookmarks (chromeExtractor this))
      else if String.eqb lowered "firefox" then
        await (extractBookmarks (firefoxExtractor this))
      else if String.eqb lowered "safari" then
        await (extractBookmarks (safariExtractor this))
      else throw (Error ("Unsupported browser: " ++ name))
  | _ => throw (Error "browser.toLowerCase is not a function")
  end.

(** [getBookmarkDatabases()]. *)
Definition getBookmarkDatabases : M Value :=
  let* chrome := await (getDatabasePath (chromeExtractor this)) in
  let* firefox := await (getDatabasePath (firefoxExtractor this)) in
  let* safari := await (getDatabasePath (safariExtractor this)) in
  ret (Object [("chrome", chrome); ("firefox", firefox); ("safari", safari)])%string.

(** The [switch (message.command)] of [handleMessage]. *)
Definition runCommand (message : NativeMessage.t) : M Value :=
  let command := NativeMessage.command message in
  if String.eqb command "extractBookmarks" then
    extractBookmarksFor
      (Js.or (optBrowser (NativeMessage.data message)) (Str "chrome"))
  else if String.eqb command "getBookmarkDatabases" then
    getBookmarkDatabases
  else if String.eqb command "ping" then
    ret (Object [("status", Str "alive"); ("timestamp", Number (Date_now this))])%string
  else throw (Error ("Unknown command: " ++ command)).

(** [handleMessage(message)].  The result is how the promise of the
    [async] method ends. *)
Definition handleMessage (message : NativeMessage.t) : M unit :=
  tryCatch
    (let* result := runCommand message in
     sendResponse
       {| NativeResponse.success := true
        ; NativeResponse.data := result
        ; NativeResponse.error := None
        ; NativeResponse.requestId := NativeMessage.requestId message |})
    (fun error =>
       sendError
         (match error with
          | Error message => message
          | NonError _ => "Unknown error"
          end)
         (NativeMessage.requestId message)).

End Dispatcher.

(** What the [try]/[catch] inside the assembler's loop does with one
    payload: it starts [handleMessage] on the parsed message, or, when
    [JSON.parse] raised, calls [sendError]. *)
Inductive Call :=
| HandleMessage (message : NativeMessage.t)
| SendError (error requestId : string).

Definition receive `{JsonRequest : Json NativeMessage.t} (messageData : Buffer) : Call :=
  match JSON_parse messageData with
  | Some message => HandleMessage message
  | None => SendError "Invalid message format" "unknown"
  end.

(** *** Notions the properties are stated with *)

(** The response [sendError('Invalid message format', 'unknown')] sends. *)
Definition invalidMessageFormat : NativeResponse.t :=
  {| NativeResponse.success := false
   ; NativeResponse.data := Undefined
   ; NativeResponse.error := Some "Invalid message format"%string
   ; NativeResponse.requestId := "unknown"%string |}.

(** The two response shapes of the specification. *)
Definition successResponse (result : Value) (requestId : string) : NativeResponse.t :=
  {| NativeResponse.success := true
   ; NativeResponse.data := result
   ; NativeResponse.error := None
   ; NativeResponse.requestId := requestId |}.

Definition failureResponse (error requestId : string) : NativeResponse.t :=
  {| NativeResponse.success := false
   ; NativeResponse.data := Undefined
   ; NativeResponse.error := Some error
   ; NativeResponse.requestId := requestId |}.

(** The response the specification asks for, given how the handler of
    the request ended: its result wrapped as a success, or the message of
    what it threw wrapped as a failure, under the request's id. *)
Definition responseFor (message : NativeMessage.t) (outcome : Result Value)
    : NativeResponse.t :=
  match outcome with
  | Ok result => successResponse result (NativeMessage.requestId message)
  | Throw (Error text) => failureResponse text (NativeMessage.requestId message)
  | Throw (NonError _) =>
      failureResponse "Unknown error" (NativeMessage.requestId message)
  end.

(** How the handler selected for a request ends. *)
Definition commandOutcome (this : Env) (message : NativeMessage.t) : Result Value :=
  (runCommand this message []).1.

(** A text that fits the 32-bit length header. *)
Definition fits (text : Buffer) : Prop := blen text <= 4294967295.

End Host.

(* ===================================================================== *)
(** ** A small JSON codec to run the model with *)
(* ===================================================================== *)

(** The model takes [JSON.stringify] and [JSON.parse] from the platform
    (class [Json]).  To evaluate it on concrete streams this module gives
    a printer and a parser for compact JSON over integers, strings without
    control characters, arrays and objects. *)
Module SampleJson.

Local Open Scope string_scope.

Definition dquote : ascii := ascii_of_nat 34.
Definition backslash : ascii := ascii_of_nat 92.

Fixpoint escape (s : string) : string :=
  match s with
  | EmptyString => EmptyString
  | String c rest =>
      if Ascii.eqb c dquote || Ascii.eqb c backslash
      then String backslash (String c (escape rest))
      else String c (escape rest)
  end.

Definition quote (s : string) : string :=
  String dquote (escape s ++ String dquote EmptyString).

Definition showNumber (n : Z) : string := NilZero.string_of_int (Z.to_int n).

(** [JSON.stringify]: no white space, properties in order, properties
    whose value is [undefined] left out, [undefined] in an array printed
    as [null]. *)
Fixpoint show (v : Value) : string :=
  match v with
  | Undefined | Null => "null"
  | Bool true => "true"
  | Bool false => "false"
  | Number n => showNumber n
  | Str s => quote s
  | Array items =>
      "[" ++ (fix items_ (l : list Value) : string :=
                match l with
                | [] => EmptyString
                | [x] => show x
                | x :: r => show x ++ "," ++ items_ r
                end) items ++ "]"
  | Object props =>
      "{" ++ (fix props_ (first : bool) (l : list (string * Value)) : string :=
                match l with
                | [] => EmptyString
                | (_, Undefined) :: r => props_ first r
                | (k, x) :: r =>
                    (if first then EmptyString else ",")
                    ++ quote k ++ ":" ++ show x ++ props_ false r
                end) true props ++ "}"
  end.

Definition isSpace (c : ascii) : bool :=
  let n := nat_of_ascii c in
  (n =? 32)%nat || (n =? 9)%nat || (n =? 10)%nat || (n =? 13)%nat.

Fixpoint skipSpace (s : string) : string :=
  match s with
  | String c rest => if isSpace c then skipSpace rest else s
  | EmptyString => s
  end.

(** The rest of [s] behind the literal [lit], if [s] starts with it. *)
Fixpoint literal (lit s : string) : option string :=
  match lit, s with
  | EmptyString, _ => Some s
  | String a lit', String b s' => if Ascii.eqb a b then literal lit' s' else None
  | String _ _, EmptyString => None
  end.

(** The characters of a string literal, behind its opening quote. *)
Fixpoint parseChars (s : string) : option (string * string) :=
  match s with
  | EmptyString => None
  | String c rest =>
      if Ascii.eqb c dquote then Some (EmptyString, rest)
      else if Ascii.eqb c backslash then
        match rest with
        | String e rest' =>
            if Ascii.eqb e dquote || Ascii.eqb e backslash then
              match parseChars rest' with
              | Some (t, r) => Some (String e t, r)
              | None => None
              end
            else None
        | EmptyString => None
        end
      else
        match parseChars rest with
        | Some (t, r) => Some (String c t, r)
        | None => None
        end
  end.

Definition digit (c : ascii) : option Z :=
  let n := nat_of_ascii c in
  if (48 <=? n)%nat && (n <=? 57)%nat then Some (Z.of_nat (n - 48)) else None.

Fixpoint parseDigits (acc : Z) (s : string) : Z * string :=
  match s with
  | String c rest =>
      match digit c with
      | Some d => parseDigits (10 * acc + d) rest
      | None => (acc, s)
      end
  | EmptyString => (acc, s)
  end.

Definition parseNumber (s : string) : option (Z * string) :=
  match s with
  | String c rest =>
      if Ascii.eqb c "-" then
        match rest with
        | String d _ =>
            match digit d with
            | Some _ => let (n, r) := parseDigits 0 rest in Some (- n, r)
            | None => None
            end
        | EmptyString => None
        end
      else
        match digit c with
        | Some _ => Some (parseDigits 0 s)
        | None => None
        end
  | EmptyString => None
  end.

Section Nested.
Context (parseValue : string -> option (Value * string)).

(** Array items behind the opening bracket, one at least. *)
Fixpoint parseItems (n : nat) (acc : list Value) (s : string)
    : option (Value * string) :=
  match n with
  | O => None
  | S n' =>
      match parseValue s with
      | Some (v, r) =>
          match skipSpace r with
          | String c r' =>
              if Ascii.eqb c "," then parseItems n' (v :: acc) r'
              else if Ascii.eqb c "]" then Some (Array (rev (v :: acc)), r')
              else None
          | EmptyString => None
          end
      | None => None
      end
  end.

(** Object members behind the opening brace, one at least. *)
Fixpoint parseMembers (n : nat) (acc : list (string * Value)) (s : string)
    : option (Value * string) :=
  match n with
  | O => None
  | S n' =>
      match skipSpace s with
      | String q r0 =>
          if Ascii.eqb q dquote then
            match parseChars r0 with
            | Some (k, r1) =>
                match skipSpace r1 with
                | String colon r2 =>
                    if Ascii.eqb colon ":" then
                      match parseValue r2 with
                      | Some (v, r3) =>
                          match skipSpace r3 with
                          | String c r4 =>
                              if Ascii.eqb c ","
                              then parseMembers n' ((k, v) :: acc) r4
                              else if Ascii.eqb c "}"
                              then Some (Object (rev ((k, v) :: acc)), r4)
                              else None
                          | EmptyString => None
                          end
                      | None => None
                      end
                    else None
                | EmptyString => None
                end
            | None => None
            end
          else None
      | EmptyString => None
      end
  end.

End Nested.

Fixpoint parseValue (fuel : nat) (s : string) : option (Value * string) :=
  match fuel with
  | O => None
  | S fuel' =>
      match skipSpace s with
      | EmptyString => None
      | String c rest as s' =>
          if Ascii.eqb c dquote then
            match parseChars rest with
            | Some (t, r) => Some (Str t, r)
            | None => None
            end
          else if Ascii.eqb c "[" then
            match literal "]" (skipSpace rest) with
            | Some r => Some (Array [], r)
            | None => parseItems (parseValue fuel') (String.length rest) [] rest
            end
          else if Ascii.eqb c "{" then
            match literal "}" (skipSpace rest) with
            | Some r => Some (Object [], r)
            | None => parseMembers (parseValue fuel') (String.length rest) [] rest
            end
          else
            match literal "null" s', literal "true" s', literal "false" s' with
            | Some r, _, _ => Some (Null, r)
            | _, Some r, _ => Some (Bool true, r)
            | _, _, Some r => Some (Bool false, r)
            | _, _, _ =>
                match parseNumber s' with
                | Some (n, r) => Some (Number n, r)
                | None => None
                end
            end
      end
  end.

(** [JSON.parse]: one value, and nothing but white space behind it. *)
Definition parse (s : string) : option Value :=
  match parseValue (S (String.length s)) s with
  | Some (v, r) =>
      match skipSpace r with
      | EmptyString => Some v
      | String _ _ => None
      end
  | None => None
  end.

Definition ofMessage (m : NativeMessage.t) : Value :=
  Object [ ("command", Str (NativeMessage.command m))
         ; ("data", NativeMessage.data m)
         ; ("requestId", Str (NativeMessage.requestId m)) ].

(** The parsed value read as a [NativeMessage]; values of another shape
    have no place in the typed model. *)
Definition toMessage (v : Value) : option NativeMessage.t :=
  match v with
  | Object props =>
      match prop "command" props, prop "requestId" props with
      | Str c, Str r => Some (NativeMessage.mk c (prop "data" props) r)
      | _, _ => None
      end
  | _ => None
  end.

Definition ofResponse (r : NativeResponse.t) : Value :=
  Object [ ("success", Bool (NativeResponse.success r))
         ; ("data", NativeResponse.data r)
         ; ("error", match NativeResponse.error r with
                     | Some e => Str e
                     | None => Undefined
                     end)
         ; ("requestId", Str (NativeResponse.requestId r)) ].

Definition toResponse (v : Value) : option NativeResponse.t :=
  match v with
  | Object props =>
      match prop "success" props, prop "requestId" props with
      | Bool b, Str r =>
          Some (NativeResponse.mk b (prop "data" props)
                  (match prop "error" props with
                   | Str e => Some e
                   | _ => None
                   end) r)
      | _, _ => None
      end
  | _ => None
  end.

Definition requests : Json NativeMessage.t :=
  {| JSON_stringify m := list_byte_of_string (show (ofMessage m))
   ; JSON_parse b :=
       match parse (string_of_list_byte b) with
       | Some v => toMessage v
       | None => None
       end |}.

Definition responses : Json NativeResponse.t :=
  {| JSON_stringify r := list_byte_of_string (show (ofResponse r))
   ; JSON_parse b :=
       match parse (string_of_list_byte b) with
       | Some v => toResponse v
       | None => None
       end |}.

End SampleJson.

(* ===================================================================== *)
(** ** The client: pending requests, timers and the connection *)
(* ===================================================================== *)

Module Client.

(** [NATIVE_MESSAGE_TIMEOUT] of [shared/src/constants], in milliseconds. *)
Definition NATIVE_MESSAGE_TIMEOUT : N := 10000.

(** The delay of the reconnect timer in [connectToNativeHost]. *)
Definition RECONNECT_DELAY : N := 5000.

(** A call of a promise's [resolve] or [reject]. *)
Inductive Settlement :=
| Resolve (value : Value)
| Reject (reason : Thrown).

(** The two closures the class hands to [setTimeout]. *)
Inductive Callback :=
| TimeoutCheck (requestId : string) (promise : nat)  (* in [sendMessage] *)
| Reconnect.                                         (* in the [onDisconnect] listener *)

#[export] Instance Callback_eq_dec : EqDecision Callback.
Proof. solve_decision. Defined.

Record Timer := mkTimer { due : N; callback : Callback }.

(** How a call of [connectToNativeHost] fares: [runtime.connectNative]
    is missing, returns a port, or throws. *)
Inductive ConnectResult := Unsupported | Opened | Failed.

(** The two fields of a [NativeMessagingClient] and, below them, the
    part of the browser it acts on.  A port and a promise are known by
    the number of the call that made them; a handler stored in
    [messageHandlers] is known by the promise whose [resolve] and
    [reject] it holds (the [requestId] it holds is its key). *)
Record State := mkState
  { port : option nat
  ; messageHandlers : gmap string nat
  ; clock : N                          (* milliseconds *)
  ; timers : list Timer                (* pending [setTimeout]s, in firing order *)
  ; openPorts : list nat               (* ports whose [onDisconnect] can still fire *)
  ; connects : nat                     (* calls of [connectToNativeHost] so far *)
  ; promises : nat                     (* calls of [sendMessage] so far *)
  ; settled : list (nat * Settlement)  (* calls of [resolve] / [reject], oldest first *)
  ; posted : list NativeMessage.t }.   (* messages [postMessage] took *)

Definition set_port (v : option nat) (c : State) : State :=
  mkState v (messageHandlers c) (clock c) (timers c) (openPorts c)
    (connects c) (promises c) (settled c) (posted c).

Definition set_messageHandlers (v : gmap string nat) (c : State) : State :=
  mkState (port c) v (clock c) (timers c) (openPorts c)
    (connects c) (promises c) (settled c) (posted c).

Definition set_clock (v : N) (c : State) : State :=
  mkState (port c) (messageHandlers c) v (timers c) (openPorts c)
    (connects c) (promises c) (settled c) (posted c).

Definition set_timers (v : list Timer) (c : State) : State :=
  mkState (port c) (messageHandlers c) (clock c) v (openPorts c)
    (connects c) (promises c) (settled c) (posted c).

Definition set_openPorts (v : list nat) (c : State) : State :=
  mkState (port c) (messageHandlers c) (clock c) (timers c) v
    (connects c) (promises c) (settled c) (posted c).

Definition set_connects (v : nat) (c : State) : State :=
  mkState (port c) (messageHandlers c) (clock c) (timers c) (openPorts c)
    v (promises c) (settled c) (posted c).

Definition set_promises (v : nat) (c : State) : State :=
  mkState (port c) (messageHandlers c) (clock c) (timers c) (openPorts c)
    (connects c) v (settled c) (posted c).

Definition set_settled (v : list (nat * Settlement)) (c : State) : State :=
  mkState (port c) (messageHandlers c) (clock c) (timers c) (openPorts c)
    (connects c) (promises c) v (posted c).

Definition set_posted (v : list NativeMessage.t) (c : State) : State :=
  mkState (port c) (messageHandlers c) (clock c) (timers c) (openPorts c)
    (connects c) (promises c) (settled c) v.

(** [resolve(...)] or [reject(...)] of promise [p]. *)
Definition settle (p : nat) (s : Settlement) (c : State) : State :=
  set_settled (settled c ++ [(p, s)]) c.

(** The timer queue: by due time, and by age among equal due times. *)
Fixpoint enqueue (t : Timer) (queue : list Timer) : list Timer :=
  match queue with
  | [] => [t]
  | u :: rest =>
      if (due u <=? due t)%N then u :: enqueue t rest else t :: u :: rest
  end.

(** [setTimeout(callback, delay)]. *)
Definition setTimeout (cb : Callback) (delay : N) (c : State) : State :=
  set_timers (enqueue (mkTimer (clock c + delay) cb) (timers c)) c.

Section Client.

(** How the [k]-th call of [connectToNativeHost] fares. *)
Context (connectNative : nat -> ConnectResult).

(** [connectToNativeHost()].  The listeners it adds to the new port are
    [handleNativeResponse] and [onDisconnect] below. *)
Definition connectToNativeHost (c : State) : State :=
  let k := connects c in
  let c := set_connects (S k) c in
  match connectNative k with
  | Unsupported => c
  | Opened => set_openPorts (k :: openPorts c) (set_port (Some k) c)
  | Failed => c
  end.

(** A client just constructed, at time [now]. *)
Definition create (now : N) : State :=
  connectToNativeHost (mkState None ∅ now [] [] 0 0 [] []).

(** The [onDisconnect] listener of port [p].  The browser fires it when
    the other end closes the port, once, and not on a port this end
    closed with [disconnect()]. *)
Definition onDisconnect (p : nat) (c : State) : State :=
  if decide (p ∈ openPorts c) then
    setTimeout Reconnect RECONNECT_DELAY
      (set_port None (set_openPorts (filter (fun q => q ≠ p) (openPorts c)) c))
  else c.

(** [sendMessage(command, data)].  The id that [generateRequestId]
    makes up from the clock and a random number and the outcome of
    [postMessage] are given by the caller of the model. *)
Definition sendMessage
    (requestId command : string) (data : Value) (post : Result unit)
    (c : State) : State :=
  let p := promises c in
  let c := set_promises (S p) c in
  match port c with
  | None => settle p (Reject (Error "Native messaging host not connected")) c
  | Some _ =>
      let message := NativeMessage.mk command data requestId in
      let c := set_messageHandlers (<[requestId := p]> (messageHandlers c)) c in
      let c := setTimeout (TimeoutCheck requestId p) NATIVE_MESSAGE_TIMEOUT c in
      match post with
      | Ok _ => set_posted (posted c ++ [message]) c
      | Throw e =>
          settle p (Reject e)
            (set_messageHandlers (delete requestId (messageHandlers c)) c)
      end
  end.

(** The handler [sendMessage] stored under [requestId] for promise [p]. *)
Definition handler (requestId : string) (p : nat)
    (response : NativeResponse.t) (c : State) : State :=
  let c := set_messageHandlers (delete requestId (messageHandlers c)) c in
  if NativeResponse.success response then
    settle p (Resolve (NativeResponse.data response)) c
  else
    settle p
      (Reject (Error (match NativeResponse.error response with
                      | Some (String a e) => String a e
                      | _ => "Native messaging error"
                      end))) c.

(** [handleNativeResponse(response)], the [onMessage] listener. *)
Definition handleNativeResponse (response : NativeResponse.t) (c : State) : State :=
  let requestId := NativeResponse.requestId response in
  match messageHandlers c !! requestId with
  | Some p => handler requestId p response c
  | None => c      (* [console.warn] *)
  end.

(** [disconnect()]. *)
Definition disconnect (c : State) : State :=
  match port c with
  | Some p => set_port None (set_openPorts (filter (fun q => q ≠ p) (openPorts c)) c)
  | None => c
  end.

(** [isConnected()]. *)
Definition isConnected (c : State) : bool :=
  match port c with Some _ => true | None => false end.

(** Running a timer callback. *)
Definition fire (cb : Callback) (c : State) : State :=
  match cb with
  | TimeoutCheck requestId p =>
      match messageHandlers c !! requestId with
      | Some _ =>
          settle p (Reject (Error "Native messaging timeout"))
            (set_messageHandlers (delete requestId (messageHandlers c)) c)
      | None => c
      end
  | Reconnect => connectToNativeHost c
  end.

Definition isDue (now : N) (t : Timer) : bool := (due t <=? now)%N.

(** [dt] milliseconds pass: the timers that fall due run, in queue
    order.  (No callback sets a timer itself.) *)
Definition advance (dt : N) (c : State) : State :=
  let now := (clock c + dt)%N in
  let c' := set_timers (filter (fun t => negb (isDue now t)) (timers c))
              (set_clock now c) in
  fold_left (fun c t => fire (callback t) c)
    (filter (fun t => isDue now t) (timers c)) c'.

(** What can happen to a client. *)
Inductive Event :=
| SendMessage (requestId command : string) (data : Value) (post : Result unit)
| OnMessage (response : NativeResponse.t)
| OnDisconnect (p : nat)
| Disconnect
| Advance (dt : N).

Definition step (c : State) (e : Event) : State :=
  match e with
  | SendMessage requestId command data post =>
      sendMessage requestId command data post c
  | OnMessage response => handleNativeResponse response c
  | OnDisconnect p => onDisconnect p c
  | Disconnect => disconnect c
  | Advance dt => advance dt c
  end.

Definition run (c : State) (events : list Event) : State :=
  fold_left step events c.

End Client.

(** *** Notions the properties are stated with *)

(** The calls of [resolve] / [reject] made on promise [p], oldest first. *)
Definition settlements (p : nat) (c : State) : list Settlement :=
  (filter (fun x => x.1 = p) (settled c)).*2.

(** What a response makes of the promise it answers. *)
Definition responseSettlement (response : NativeResponse.t) : Settlement :=
  if NativeResponse.success response then
    Resolve (NativeResponse.data response)
  else
    Reject (Error (match NativeResponse.error response with
                   | Some (String a e) => String a e
                   | _ => "Native messaging error"%string
                   end)).

Definition timeoutSettlement : Settlement :=
  Reject (Error "Native messaging timeout").

(** What the specification says completes a request with id [id] and
    deadline [deadline], the clock showing [now]: the first of its
    response arriving and the clock reaching the deadline. *)
Fixpoint firstCompletion (id : string) (deadline now : N) (events : list Event)
    : option Settlement :=
  match events with
  | [] => None
  | OnMessage response :: rest =>
      if decide (NativeResponse.requestId response = id)
      then Some (responseSettlement response)
      else firstCompletion id deadline now rest
  | Advance dt :: rest =>
      if (deadline <=? now + dt)%N then Some timeoutSettlement
      else firstCompletion id deadline (now + dt) rest
  | _ :: rest => firstCompletion id deadline now rest
  end.

(** The time a sequence of events takes. *)
Fixpoint elapsed (events : list Event) : N :=
  match events with
  | [] => 0
  | Advance dt :: rest => dt + elapsed rest
  | _ :: rest => elapsed rest
  end.

(** The event is a [sendMessage] whose generated id is [id]. *)
Definition reuses (id : string) (e : Event) : Prop :=
  match e with
  | SendMessage id' _ _ _ => id' = id
  | _ => False
  end.

(** The event delivers a response to request [id]. *)
Definition answers (id : string) (e : Event) : Prop :=
  match e with
  | OnMessage response => NativeResponse.requestId response = id
  | _ => False
  end.

(** No timeout timer set for a request with id [id] is still pending. *)
Definition unused (id : string) (c : State) : Prop :=
  forall t p, t ∈ timers c -> callback t ≠ TimeoutCheck id p.

(** The states a client can be in. *)
Definition reachable (connectNative : nat -> ConnectResult) (c : State) : Prop :=
  exists now events, c = run connectNative (create connectNative now) events.

(** A reconnect timer is pending. *)
Definition reconnecting (c : State) : Prop :=
  exists d, mkTimer d Reconnect ∈ timers c.

(** The number of reconnect timers among [ts]. *)
Definition reconnects (ts : list Timer) : nat :=
  length (filter (fun t => callback t = Reconnect) ts).
Arguments reconnects : simpl never.

(** Promise numbers in use are below the next one to be handed out. *)
Definition bounded (ts : list Timer) (c : State) : Prop :=
  (forall id p, messageHandlers c !! id = Some p -> (p < promises c)%nat)
  /\ (forall t id p, t ∈ ts -> callback t = TimeoutCheck id p -> (p < promises c)%nat)
  /\ (forall p, (promises c <= p)%nat -> settlements p c = []).

(** Request [id], made with promise [p], is pending. *)
Definition Pending (id : string) (p : nat) (c : State) : Prop :=
  messageHandlers c !! id = Some p
  /\ settlements p c = []
  /\ (forall id', messageHandlers c !! id' = Some p -> id' = id)
  /\ (p < promises c)%nat.

(** Request [id], made with promise [p], was completed with [s]. *)
Definition Completed (id : string) (p : nat) (s : Settlement) (c : State) : Prop :=
  messageHandlers c !! id = None
  /\ settlements p c = [s]
  /\ (forall id', messageHandlers c !! id' ≠ Some p)
  /\ (p < promises c)%nat.

(** The timers [ts] name request [id] and promise [p] only together, and
    then with due time [d]. *)
Definition Paired (id : string) (p : nat) (d : N) (ts : list Timer) : Prop :=
  forall t id' q, t ∈ ts -> callback t = TimeoutCheck id' q ->
    (id' = id <-> q = p) /\ (id' = id -> due t = d).

(** Request [id], made with promise [p], is pending and its timeout is
    set for [d], which has not come yet. *)
Definition Armed (id : string) (p : nat) (d : N) (c : State) : Prop :=
  Pending id p c
  /\ Paired id p d (timers c)
  /\ mkTimer d (TimeoutCheck id p) ∈ timers c
  /\ (clock c < d)%N.

(** Request [id], made with promise [p], was completed with [s], and no
    timer can call on [p] for another request. *)
Definition Settled (id : string) (p : nat) (s : Settlement) (c : State) : Prop :=
  Completed id p s c
  /\ (forall t id', t ∈ timers c -> callback t = TimeoutCheck id' p -> id' = id).

(** At most one of: an open port, a pending reconnect timer; and the
    open port, if any, is the one in [this.port].  [todo] are due timers
    taken off the queue and not run yet. *)
Definition linked (todo : list Timer) (c : State) : Prop :=
  openPorts c = match port c with Some k => [k] | None => [] end
  /\ (reconnects todo + reconnects (timers c) + length (openPorts c) <= 1)%nat.

(** A client with no port open and no reconnect timer pending. *)
Definition dormant (c : State) : Prop :=
  port c = None /\ openPorts c = [] /\ reconnects (timers c) = 0%nat.

End Client.

(* ===================================================================== *)
(** ** The client: the convenience wrappers *)
(* ===================================================================== *)

(** [extractBookmarks], [getBookmarkDatabases] and [ping] of
    [NativeMessagingClient]: each calls [sendMessage] and awaits its
    promise inside [try] / [catch]. *)
Module Wrappers.
Import Client.

(** [a && b]. *)
Definition and (a b : Value) : Value := if truthy a then b else a.

(** [response.status === 'alive'] for a [response] that is not nullish:
    the property of an object; primitives and arrays have no property of
    that name. *)
Definition statusIsAlive (response : Value) : bool :=
  match response with
  | Object props =>
      match prop "status" props with
      | Str s => String.eqb s "alive"
      | _ => false
      end
  | _ => false
  end.

(** What [extractBookmarks] returns once the promise of its
    [sendMessage] is settled: [bookmarks || []], or [[]] from the
    [catch]. *)
Definition extractBookmarks (s : Settlement) : Value :=
  match s with
  | Resolve bookmarks => Js.or bookmarks (Array [])
  | Reject _ => Array []
  end.

(** Likewise [getBookmarkDatabases]: [databases || {}], or [{}]. *)
Definition getBookmarkDatabases (s : Settlement) : Value :=
  match s with
  | Resolve databases => Js.or databases (Object [])
  | Reject _ => Object []
  end.

(** Likewise [ping]: [response && response.status === 'alive'], or
    [false]. *)
Definition ping (s : Settlement) : Value :=
  match s with
  | Resolve response => and response (Bool (statusIsAlive response))
  | Reject _ => Bool false
  end.

(** The data [extractBookmarks(browser = 'chrome')] sends: [{ browser }]. *)
Definition extractBookmarksData (browser : option string) : Value :=
  Object [("browser", Str (match browser with
                           | Some name => name
                           | None => "chrome"
                           end))]%string.

(** What a wrapper awaiting promise [p] has returned in state [c]: a
    promise keeps its first settlement; [None] while there is none. *)
Definition returned (wrapper : Settlement -> Value) (p : nat) (c : State)
    : option Value :=
  match settlements p c with
  | s :: _ => Some (wrapper s)
  | [] => None
  end.

(** What [resolve] / [reject] of the caller's promise is called with
    when the handler of the host ended as [outcome] and the response the
    host made of it reached [handleNativeResponse]: the host sends the
    message of an [Error] (['Unknown error'] for another thrown value),
    and the client replaces an empty one
    ([response.error || 'Native messaging error']). *)
Definition delivered (outcome : Result Value) : Settlement :=
  match outcome with
  | Ok result => Resolve result
  | Throw (Error EmptyString) => Reject (Error "Native messaging error")
  | Throw (Error text) => Reject (Error text)
  | Throw (NonError _) => Reject (Error "Unknown error")
  end.

(** *** Notions the properties are stated with *)

(** Nothing in the client can call on promise [p] any more. *)
Definition Quiet (p : nat) (c : State) : Prop :=
  (forall id, messageHandlers c !! id ≠ Some p)
  /\ (forall t id, t ∈ timers c -> callback t ≠ TimeoutCheck id p)
  /\ (p < promises c)%nat.

(** Every pending timer is due in the future. *)
Definition punctual (c : State) : Prop :=
  forall t, t ∈ timers c -> (clock c < due t)%N.

(** Every entry of [messageHandlers] has the timeout of its own request
    among the timers [ts], due at [D] at the latest. *)
Definition guarded (D : N) (ts : list Timer) (c : State) : Prop :=
  forall id p, messageHandlers c !! id = Some p ->
    exists t, t ∈ ts /\ callback t = TimeoutCheck id p /\ (due t <= D)%N.

(** The event is a call of [sendMessage]. *)
Definition isSend (e : Event) : Prop :=
  match e with
  | SendMessage _ _ _ _ => True
  | _ => False
  end.

(** The port is lost and the one reconnect timer, due at [d], is
    pending; [n] calls of [connectToNativeHost] were made so far. *)
Definition Waiting (n : nat) (d : N) (c : State) : Prop :=
  port c = None
  /\ openPorts c = []
  /\ connects c = n
  /\ reconnects (timers c) = 1%nat
  /\ mkTimer d Reconnect ∈ timers c
  /\ (clock c < d)%N.

(** The reconnect timer has run: it made call [n] of
    [connectToNativeHost], and the client holds the port of that call if
    it returned one. *)
Definition Reconnected (connectNative : nat -> ConnectResult) (n : nat)
    (c : State) : Prop :=
  connects c = S n
  /\ reconnects (timers c) = 0%nat
  /\ match connectNative n with
     | Opened => port c = Some n /\ openPorts c = [n]
     | _ => port c = None /\ openPorts c = []
     end.

End Wrappers.

(* ===================================================================== *)
(** ** The encryption manager *)
(* ===================================================================== *)

(** [EncryptionManager] of [shared]: encryption of strings and of
    bookmark data under a session key, on top of [crypto-js]. *)
Module Encryption.

(** What the class uses of [crypto-js].  [AES_encrypt data key salt] is
    [CryptoJS.AES.encrypt(data, key).toString()], which draws a random
    salt, given here as [salt]; [AES_decrypt encryptedData key] is
    [CryptoJS.AES.decrypt(encryptedData, key).toString(CryptoJS.enc.Utf8)],
    which on a wrong key or corrupted data gives the empty string or
    throws; [SHA256 data] is [CryptoJS.SHA256(data).toString()]. *)
Class CryptoJS :=
  { AES_encrypt : string -> string -> N -> Result string
  ; AES_decrypt : string -> string -> Result string
  ; SHA256 : string -> string }.

(** [JSON.stringify] and [JSON.parse] ([None]: a [SyntaxError]) for the
    values of one type, all of which have a JSON text. *)
Class JsonText (T : Type) :=
  { stringify : T -> string
  ; parse : string -> option T }.

(** The one field of an [EncryptionManager]. *)
Record Manager := mkManager { encryptionKey : option string }.

(** The manager [getInstance()] creates. *)
Definition fresh : Manager := mkManager None.

Definition setKey (key : string) (this : Manager) : Manager :=
  mkManager (Some key).

Definition getKey (this : Manager) : option string := encryptionKey this.

(** What [encryptBookmarkData] returns. *)
Record Package := mkPackage
  { encrypted : string
  ; checksum : string
  ; timestamp : Z }.

(** A string, [undefined] or [null] that is truthy. *)
Definition truthyString (s : option string) : bool :=
  match s with
  | Some (String _ _) => true
  | _ => false
  end.

(** [key || this.encryptionKey]. *)
Definition keyOr (key : option string) (this : Manager) : option string :=
  if truthyString key then key else encryptionKey this.

(** [error instanceof Error ? error.message : 'Unknown error']. *)
Definition messageOf (error : Thrown) : string :=
  match error with
  | Error message => message
  | NonError _ => "Unknown error"
  end.

(** [try { body } catch (error) { handler }]. *)
Definition tryCatch {A} (body : Result A) (handler : Thrown -> Result A)
    : Result A :=
  match body with
  | Ok a => Ok a
  | Throw error => handler error
  end.

Section Manager.
Context `{Crypto : CryptoJS}.

(** [encrypt(data, key?)]. *)
Definition encrypt (this : Manager) (data : string) (key : option string)
    (salt : N) : Result string :=
  match keyOr key this with
  | Some (String a k) =>
      tryCatch
        (AES_encrypt data (String a k) salt)
        (fun error =>
           Throw (Error ("Encryption failed: " ++ messageOf error)))
  | _ => Throw (Error "No encryption key available")
  end.

(** [decrypt(encryptedData, key?)]. *)
Definition decrypt (this : Manager) (encryptedData : string)
    (key : option string) : Result string :=
  match keyOr key this with
  | Some (String a k) =>
      tryCatch
        (match AES_decrypt encryptedData (String a k) with
         | Ok EmptyString => Throw (Error "Invalid key or corrupted data")
         | Ok decryptedString => Ok decryptedString
         | Throw error => Throw error
         end)
        (fun error =>
           Throw (Error ("Decryption failed: " ++ messageOf error)))
  | _ => Throw (Error "No encryption key available")
  end.

(** [createChecksum(data)]. *)
Definition createChecksum (data : string) : string := SHA256 data.

(** [verifyChecksum(data, checksum)]. *)
Definition verifyChecksum (data checksum : string) : bool :=
  String.eqb (createChecksum data) checksum.

Section BookmarkData.
Context {T : Type} `{Text : JsonText T}.

(** [encryptBookmarkData(data)], [Date.now()] giving [now]. *)
Definition encryptBookmarkData (this : Manager) (data : T) (salt : N) (now : Z)
    : Result Package :=
  let jsonData := stringify data in
  match encrypt this jsonData None salt with
  | Ok encrypted =>
      let checksum := createChecksum jsonData in
      Ok (mkPackage encrypted checksum now)
  | Throw error => Throw error
  end.

(** [decryptBookmarkData(encryptedPackage)]. *)
Definition decryptBookmarkData (this : Manager) (encryptedPackage : Package)
    : Result T :=
  match decrypt this (encrypted encryptedPackage) None with
  | Ok decrypted =>
      if negb (verifyChecksum decrypted (checksum encryptedPackage)) then
        Throw (Error "Data integrity check failed")
      else
        match parse decrypted with
        | Some value => Ok value
        | None => Throw (Error "Failed to parse decrypted data")
        end
  | Throw error => Throw error
  end.

End BookmarkData.

End Manager.

(** *** Notions the properties are stated with *)

(** No key: [undefined], [null] or the empty string. *)
Definition blank (key : option string) : Prop :=
  key = None \/ key = Some EmptyString.

(** [crypto-js] decrypts what it encrypted, under the same key. *)
Definition decryptsOwn (Crypto : CryptoJS) : Prop :=
  forall data key salt encrypted,
    AES_encrypt data key salt = Ok encrypted ->
    AES_decrypt encrypted key = Ok data.

(** [s] starts with [p]. *)
Definition startsWith (p s : string) : Prop := exists rest, s = (p ++ rest)%string.

End Encryption.

(* ===================================================================== *)
(** ** Sample data *)
(* ===================================================================== *)

Module Samples.

Local Open Scope string_scope.

#[local] Existing Instance SampleJson.requests.
#[local] Existing Instance SampleJson.responses.

Definition ping : NativeMessage.t :=
  NativeMessage.mk "ping" Undefined "req_1".

Definition extractFirefox : NativeMessage.t :=
  NativeMessage.mk "extractBookmarks" (Object [("browser", Str "Firefox")]) "req_2".

Definition requests : list NativeMessage.t := [ping; extractFirefox].

Definition payloads : list Buffer := map JSON_stringify requests.

(** The two frames, one after the other. *)
Definition stream : Buffer := concat (map frame payloads).

(** The stream cut inside the first header, inside the first payload and
    inside the second payload. *)
Definition chunks : list Buffer :=
  [ take 3 stream; take 20 (drop 3 stream); take 60 (drop 23 stream)
  ; drop 83 stream ].

(** A payload that is not JSON. *)
Definition garbage : Buffer := list_byte_of_string "{oops".

Definition garbledStream : Buffer :=
  concat (map frame ([JSON_stringify ping] ++ garbage :: [JSON_stringify extractFirefox])).

Definition garbledChunks : list Buffer :=
  [ take 50 garbledStream; drop 50 garbledStream ].

(** Extractors that answer, and a host whose Chrome profile is missing. *)
Definition answering (bookmarks path : Value) : Host.Extractor :=
  {| Host.extractBookmarks := Ok bookmarks; Host.getDatabasePath := Ok path |}.

Definition missing (reason : string) : Host.Extractor :=
  {| Host.extractBookmarks := Throw (Error reason)
   ; Host.getDatabasePath := Throw (Error reason) |}.

Definition host : Host.Env :=
  {| Host.chromeExtractor :=
       answering (Array [Object [("title", Str "Rocq"); ("url", Str "https://rocq-prover.org")]])
         (Str "/home/u/.config/google-chrome/Default/Bookmarks")
   ; Host.firefoxExtractor := answering (Array []) Null
   ; Host.safariExtractor := answering (Array []) Null
   ; Host.Date_now := 1700000000000 |}.

Definition hostWithoutChrome : Host.Env :=
  {| Host.chromeExtractor := missing "Chrome bookmarks not found"
   ; Host.firefoxExtractor := answering (Array []) (Str "/home/u/.mozilla/firefox/places.sqlite")
   ; Host.safariExtractor := answering (Array []) Null
   ; Host.Date_now := 1700000000000 |}.

Definition getDatabases : NativeMessage.t :=
  NativeMessage.mk "getBookmarkDatabases" Undefined "req_3".

Definition extractUnsupported : NativeMessage.t :=
  NativeMessage.mk "extractBookmarks" (Object [("browser", Str "unsupported")]) "req_4".

Definition extractNameless : NativeMessage.t :=
  NativeMessage.mk "extractBookmarks" (Object [("browser", Str EmptyString)]) "req_5".

Definition extractDefault : NativeMessage.t :=
  NativeMessage.mk "extractBookmarks" Undefined "req_6".

Definition launch : NativeMessage.t :=
  NativeMessage.mk "launchMissiles" Null "req_7".

(** A browser in which every [connectNative] call returns a port. *)
Definition alwaysOpens : nat -> Client.ConnectResult := fun _ => Client.Opened.

(** A client constructed at time 0, now connected. *)
Definition client : Client.State := Client.create alwaysOpens 0.

Definition answer (requestId : string) : NativeResponse.t :=
  NativeResponse.mk true (Array []) None requestId.

(** The response comes after three seconds, and once more later. *)
Definition answeredTwice : list Client.Event :=
  [ Client.Advance 3000; Client.OnMessage (answer "req_1")
  ; Client.Advance 20000; Client.OnMessage (answer "req_1") ].

(** Ten seconds pass with other traffic only. *)
Definition unanswered : list Client.Event :=
  [ Client.Advance 4000
  ; Client.SendMessage "req_2" "ping" Undefined (Ok tt)
  ; Client.OnMessage (answer "req_2")
  ; Client.Advance 6000 ].

(** The host goes away, and a minute passes. *)
Definition hostGone : list Client.Event :=
  [ Client.OnDisconnect 0; Client.Advance 60000 ].

(** A browser in which only the first [connectNative] call returns a
    port; later calls throw. *)
Definition opensOnce : nat -> Client.ConnectResult :=
  fun k => match k with O => Client.Opened | _ => Client.Failed end.

(** A stand-in for [crypto-js] to run the model with (it hides
    nothing): the text is put behind the key, and taken from behind it. *)
Fixpoint behind (key text : string) : option string :=
  match key, text with
  | EmptyString, _ => Some text
  | String a key', String b text' =>
      if Ascii.eqb a b then behind key' text' else None
  | String _ _, EmptyString => None
  end.

Definition plain : Encryption.CryptoJS :=
  {| Encryption.AES_encrypt := fun data key _ => Ok (key ++ data)%string
   ; Encryption.AES_decrypt := fun encryptedData key =>
       match behind key encryptedData with
       | Some data => Ok data
       | None => Ok EmptyString
       end
   ; Encryption.SHA256 := fun data => ("sha256:" ++ data)%string |}.

Definition values : Encryption.JsonText Value :=
  {| Encryption.stringify := SampleJson.show
   ; Encryption.parse := SampleJson.parse |}.

(** A manager with a session key. *)
Definition manager : Encryption.Manager :=
  Encryption.setKey "correct horse" Encryption.fresh.

Definition bookmark : Value :=
  Object [("title", Str "Rocq"); ("url", Str "https://rocq-prover.org")].

(** The client after a call of [disconnect()]. *)
Definition disconnected : Client.State := Client.disconnect client.

(** Responses, a lost port and [disconnect()] within eleven seconds. *)
Definition busy : list Client.Event :=
  [ Client.Advance 2000; Client.OnMessage (answer "req_2")
  ; Client.Advance 7000; Client.OnDisconnect 0
  ; Client.Advance 2000; Client.Disconnect ].

Definition extractNumbered : NativeMessage.t :=
  NativeMessage.mk "extractBookmarks" (Object [("browser", Number 42)]) "req_8".

Definition extractSafari : NativeMessage.t :=
  NativeMessage.mk "extractBookmarks" (Object [("browser", Str "SAFARI")]) "req_9".

End Samples.

(* ===================================================================== *)
(** * Properties *)
(* ===================================================================== *)

Module BufFacts.

Lemma byteZ_range b : 0 <= byteZ b < 256.
Proof.
  unfold byteZ. pose proof (Byte.to_N_bounded b). lia.
Qed.

Lemma Zbyte_byteZ b : Zbyte (byteZ b) = b.
Proof.
  unfold Zbyte. pose proof (byteZ_range b) as Hb.
  replace (Z.land (byteZ b) 255) with (byteZ b).
  - unfold byteZ. rewrite N2Z.id, Byte.of_to_N. reflexivity.
  - change 255 with (Z.ones 8). rewrite Z.land_ones by lia.
    symmetry. apply Z.mod_small. exact Hb.
Qed.

Lemma Zbyte_mod z : Zbyte z = Zbyte (z mod 256).
Proof.
  unfold Zbyte. change 255 with (Z.ones 8).
  rewrite !Z.land_ones by lia. change (2 ^ 8) with 256.
  rewrite Z.mod_mod by lia. reflexivity.
Qed.

Lemma byteZ_Zbyte z : byteZ (Zbyte z) = z mod 256.
Proof.
  unfold Zbyte. change 255 with (Z.ones 8). rewrite Z.land_ones by lia.
  change (2 ^ 8) with 256.
  assert (Hr : 0 <= z mod 256 < 256) by (apply Z.mod_pos_bound; lia).
  destruct (Byte.of_N (Z.to_N (z mod 256))) as [b|] eqn:E.
  - apply Byte.to_of_N in E. unfold byteZ. rewrite E. lia.
  - apply Byte.of_N_None_iff in E. lia.
Qed.

Lemma length_le32 v : length (le32 v) = 4%nat.
Proof. reflexivity. Qed.

(** Reading back what [le32] stored gives the value, when it fits in 32 bits. *)
Lemma read_le32 v rest :
  0 <= v <= 4294967295 -> readUInt32LE (le32 v ++ rest) = Some v.
Proof.
  intros Hv. unfold le32. cbn [app readUInt32LE]. f_equal.
  rewrite !byteZ_Zbyte, !Z.shiftr_div_pow2 by lia.
  change (2 ^ 8) with 256. change (2 ^ 16) with 65536.
  change (2 ^ 24) with 16777216.
  Z.div_mod_to_equations. lia.
Qed.

(** The four bytes a length was read from are the ones [le32] stores for it. *)
Lemma le32_read buf n :
  readUInt32LE buf = Some n -> le32 n = take 4 buf /\ 0 <= n <= 4294967295.
Proof.
  destruct buf as [|b0 [|b1 [|b2 [|b3 rest]]]]; try discriminate.
  cbn [readUInt32LE]. intros [= <-].
  pose proof (byteZ_range b0). pose proof (byteZ_range b1).
  pose proof (byteZ_range b2). pose proof (byteZ_range b3).
  split; [|lia].
  unfold le32. cbn [take firstn].
  set (v := byteZ b0 + byteZ b1 * 2 ^ 8 + byteZ b2 * 2 ^ 16 + byteZ b3 * 2 ^ 24).
  rewrite !Z.shiftr_div_pow2 by lia.
  rewrite (Zbyte_mod v), (Zbyte_mod (v / _)), (Zbyte_mod (v / 2 ^ 16)),
    (Zbyte_mod (v / 2 ^ 24)).
  assert (E0 : v mod 256 = byteZ b0) by (subst v; Z.div_mod_to_equations; lia).
  assert (E1 : (v / 2 ^ 8) mod 256 = byteZ b1)
    by (subst v; Z.div_mod_to_equations; lia).
  assert (E2 : (v / 2 ^ 16) mod 256 = byteZ b2)
    by (subst v; Z.div_mod_to_equations; lia).
  assert (E3 : (v / 2 ^ 24) mod 256 = byteZ b3)
    by (subst v; Z.div_mod_to_equations; lia).
  rewrite E0, E1, E2, E3, !Zbyte_byteZ. reflexivity.
Qed.

Lemma writeUInt32LE_Some v h :
  writeUInt32LE v = Some h <-> 0 <= v <= 4294967295 /\ h = le32 v.
Proof.
  unfold writeUInt32LE.
  destruct (0 <=? v) eqn:E1, (v <=? 4294967295) eqn:E2; cbn; split;
    try (intros [= <-]; split; [lia | reflexivity]);
    try (intros [? ->]; reflexivity);
    try discriminate; intros [? _]; lia.
Qed.

End BufFacts.

Module AssemblerFacts.
Import Assembler BufFacts.

Lemma append_nil s : append s [] = s.
Proof. destruct s. unfold append. cbn. by rewrite app_nil_r. Qed.

Lemma append_append s x y : append (append s x) y = append s (x ++ y).
Proof. unfold append. cbn. by rewrite app_assoc. Qed.

(** The header read is guarded by the length test: it never raises. *)
Lemma readHeader_Some s : exists s1, readHeader s = Some s1.
Proof.
  unfold readHeader.
  destruct (expectingLength s && (4 <=? blen (messageBuffer s))) eqn:E; [|eauto].
  apply andb_true_iff in E as [_ E]. apply Z.leb_le in E. unfold blen in E.
  destruct (messageBuffer s) as [|b0 [|b1 [|b2 [|b3 rest]]]]; cbn in E; try lia.
  cbn. eauto.
Qed.

Lemma turn_not_OutOfRange s : turn s <> OutOfRange.
Proof.
  unfold turn. destruct (readHeader_Some s) as [s1 ->].
  unfold readPayload. by destruct (_ && _).
Qed.

(** Shape of a turn, by cases on the state. *)
Lemma turn_cases s :
  (expectingLength s = true /\ blen (messageBuffer s) < 4 /\ turn s = Wait s)
  \/ (exists n, expectingLength s = true /\ readUInt32LE (messageBuffer s) = Some n
        /\ 4 <= blen (messageBuffer s)
        /\ turn s = readPayload (mkState n (slice_from 4 (messageBuffer s)) false))
  \/ (expectingLength s = false /\ turn s = readPayload s).
Proof.
  unfold turn, readHeader.
  destruct (expectingLength s) eqn:Ee; cbn [andb].
  - destruct (4 <=? blen (messageBuffer s)) eqn:E4.
    + apply Z.leb_le in E4. right; left.
      destruct (readUInt32LE (messageBuffer s)) as [n|] eqn:Er.
      * exists n. done.
      * exfalso. unfold blen in E4.
        destruct (messageBuffer s) as [|b0 [|b1 [|b2 [|b3 rest]]]];
          cbn in E4, Er; (lia || discriminate).
    + apply Z.leb_gt in E4. left. split_and!; [done..|].
      unfold readPayload. by rewrite Ee.
  - right; right. done.
Qed.

Lemma turn_Wait_resting s s' : turn s = Wait s' -> resting s'.
Proof.
  unfold resting. intros H.
  destruct (turn_cases s) as [(_ & _ & E)|[(n & _ & _ & _ & E)|(Ee & E)]];
    rewrite E in H.
  - by injection H as <-.
  - unfold readPayload in H. cbn in H.
    destruct (n <=? _) eqn:En; [discriminate|]. injection H as <-.
    unfold turn, readHeader, readPayload. cbn. by rewrite En.
  - unfold readPayload in H. rewrite Ee in H. cbn in H.
    destruct (messageLength s <=? _) eqn:En; [discriminate|]. injection H as <-.
    unfold turn, readHeader, readPayload. rewrite Ee. cbn. by rewrite Ee, En.
Qed.

Lemma drains_resting s raw s' : drains s raw s' -> resting s'.
Proof. induction 1; eauto using turn_Wait_resting. Qed.

Lemma drains_deterministic s raw1 s1 raw2 s2 :
  drains s raw1 s1 -> drains s raw2 s2 -> raw1 = raw2 /\ s1 = s2.
Proof.
  intros H. revert raw2 s2.
  induction H as [s s' E|s sa d raw s' E _ IH]; intros raw2 s2 H2;
    inversion H2 as [? ? E2|? sb d2 rawb ? E2 H2']; subst;
    rewrite E in E2; try discriminate.
  - by injection E2 as ->.
  - injection E2 as -> ->. by destruct (IH _ _ H2') as [-> ->].
Qed.

(** Each completed turn lowers the bound. *)
Lemma turn_Complete_turns s s1 d :
  turn s = Complete s1 d -> (turns s1 < turns s)%nat.
Proof.
  intros H. unfold turns.
  destruct (turn_cases s) as [(_ & _ & E)|[(n & Ee & _ & H4 & E)|(Ee & E)]];
    rewrite E in H; try discriminate; unfold readPayload in H; cbn in H.
  - destruct (n <=? _); [|discriminate]. injection H as <- <-. cbn.
    rewrite Ee. unfold slice_from, blen in *. rewrite !length_drop. lia.
  - rewrite Ee in H. cbn in H.
    destruct (messageLength s <=? _); [|discriminate]. injection H as <- <-.
    cbn. rewrite Ee. unfold slice_from. rewrite length_drop. lia.
Qed.

(** The loop always reaches its [break]. *)
Lemma drains_total s : exists raw s', drains s raw s'.
Proof.
  remember (turns s) as k eqn:Hk. revert s Hk.
  induction (lt_wf k) as [k _ IH]. intros s ->.
  destruct (turn s) as [s1 d| s'|] eqn:E.
  - destruct (IH _ (turn_Complete_turns _ _ _ E) s1 eq_refl) as (raw & s' & H).
    exists (d :: raw), s'. by eapply drains_complete.
  - exists [], s'. by constructor.
  - by apply turn_not_OutOfRange in E.
Qed.

Section Loop.
Context {A : Type} (deliver : Buffer -> A).

(** With enough turns allowed, the bounded loop computes the relation. *)
Lemma drains_loop s raw s' :
  drains s raw s' ->
  forall fuel, (turns s < fuel)%nat ->
  loop deliver fuel s = Drained s' (map deliver raw).
Proof.
  induction 1 as [s s' E|s s1 d raw s' E _ IH]; intros [|fuel] Hf; try lia;
    cbn [loop]; rewrite E; [done|].
  apply turn_Complete_turns in E. rewrite IH by lia. done.
Qed.

(** The ['data'] listener always returns, having run the loop to its
    [break]. *)
Lemma onData_drains s data :
  exists raw s',
    drains (append s data) raw s'
    /\ onData deliver s data = Drained s' (map deliver raw).
Proof.
  destruct (drains_total (append s data)) as (raw & s' & H).
  exists raw, s'. split; [done|]. unfold onData.
  apply drains_loop; [done|]. unfold turns.
  destruct (expectingLength _); lia.
Qed.

End Loop.

(** More bytes behind the buffer do not change a turn that completed. *)
Lemma turn_Complete_append s s1 d x :
  turn s = Complete s1 d -> turn (append s x) = Complete (append s1 x) d.
Proof.
  intros H.
  destruct (turn_cases s) as [(_ & _ & E)|[(n & Ee & Er & H4 & E)|(Ee & E)]];
    rewrite E in H; try discriminate; unfold readPayload in H; cbn in H.
  - destruct (n <=? _) eqn:En; [|discriminate]. injection H as <- <-.
    apply Z.leb_le in En. unfold slice_from, blen in *.
    rewrite length_drop in En.
    unfold turn, readHeader, append. cbn. rewrite Ee. cbn.
    replace (4 <=? blen (messageBuffer s ++ x)) with true
      by (symmetry; apply Z.leb_le; unfold blen; rewrite length_app; lia).
    replace (readUInt32LE (messageBuffer s ++ x)) with (Some n).
    2:{ destruct (messageBuffer s) as [|b0 [|b1 [|b2 [|b3 rest]]]];
          cbn in H4; try lia. exact (eq_sym Er). }
    unfold readPayload, slice_from, slice_to, blen. cbn.
    change (Z.to_nat 4) with 4%nat in *.
    rewrite (drop_app_le _ _ 4) by lia.
    replace (n <=? Z.of_nat (length (drop 4 (messageBuffer s) ++ x))) with true
      by (symmetry; apply Z.leb_le; rewrite length_app, length_drop; lia).
    rewrite drop_app_le, take_app_le by (rewrite length_drop; lia). done.
  - rewrite Ee in H. cbn in H.
    destruct (messageLength s <=? _) eqn:En; [|discriminate]. injection H as <- <-.
    apply Z.leb_le in En. unfold blen in En.
    unfold turn, readHeader, append. cbn. rewrite Ee. cbn.
    unfold readPayload. cbn.
    replace (messageLength s <=? blen (messageBuffer s ++ x)) with true
      by (symmetry; apply Z.leb_le; unfold blen; rewrite length_app; lia).
    unfold slice_from, slice_to.
    rewrite drop_app_le, take_app_le by lia. done.
Qed.

(** After a [break], the next pass goes on from the state left behind. *)
Lemma turn_Wait_append s s' x :
  turn s = Wait s' -> turn (append s x) = turn (append s' x).
Proof.
  intros H.
  destruct (turn_cases s) as [(_ & _ & E)|[(n & Ee & Er & H4 & E)|(Ee & E)]];
    rewrite E in H.
  - by injection H as <-.
  - unfold readPayload in H. cbn in H.
    destruct (n <=? _) eqn:En; [discriminate|]. injection H as <-.
    unfold turn, readHeader, append. cbn. rewrite Ee. cbn.
    replace (4 <=? blen (messageBuffer s ++ x)) with true
      by (symmetry; apply Z.leb_le; unfold blen in *; rewrite length_app; lia).
    replace (readUInt32LE (messageBuffer s ++ x)) with (Some n).
    2:{ unfold blen in H4.
        destruct (messageBuffer s) as [|b0 [|b1 [|b2 [|b3 rest]]]];
          cbn in H4; try lia. exact (eq_sym Er). }
    unfold slice_from. change (Z.to_nat 4) with 4%nat.
    rewrite (drop_app_le _ _ 4) by (unfold blen in H4; lia). done.
  - unfold readPayload in H. rewrite Ee in H. cbn in H.
    destruct (messageLength s <=? _); [discriminate|]. by injection H as <-.
Qed.

(** Splitting the input: draining [s] fed with [x ++ y] is draining it
    fed with [x], then draining what is left fed with [y]. *)
Lemma drains_append s x raw1 s1 y raw2 s2 :
  drains (append s x) raw1 s1 ->
  drains (append s1 y) raw2 s2 ->
  drains (append s (x ++ y)) (raw1 ++ raw2) s2.
Proof.
  rewrite <- append_append. generalize (append s x). clear s x.
  intros s H. revert raw2 s2.
  induction H as [s s' E|s sa d raw s' E _ IH]; intros raw2 s2 H2.
  - cbn [app]. apply (turn_Wait_append _ _ y) in E.
    inversion H2; subst.
    + apply drains_wait. congruence.
    + eapply drains_complete; [|done]. congruence.
  - cbn [app]. eapply drains_complete; [|by apply IH].
    by apply turn_Complete_append.
Qed.

(** Nothing is lost: the frames cut out and the bytes still held make up
    the bytes held before. *)
Lemma drains_unconsumed s raw s' :
  drains s raw s' -> sane s ->
  unconsumed s = concat (map frame raw) ++ unconsumed s' /\ sane s'.
Proof.
  induction 1 as [s s' E|s sa d raw s' E _ IH]; intros Hs.
  - cbn [map concat app].
    destruct (turn_cases s) as [(_ & _ & E')|[(n & Ee & Er & H4 & E')|(Ee & E')]];
      rewrite E' in E.
    + by injection E as <-.
    + unfold readPayload in E. cbn in E.
      destruct (n <=? _); [discriminate|]. injection E as <-.
      apply le32_read in Er as [Er Hn].
      unfold unconsumed, sane. cbn [messageLength messageBuffer expectingLength].
      rewrite Ee, Er.
      unfold slice_from. change (Z.to_nat 4) with 4%nat.
      rewrite take_drop. split; [done|lia].
    + unfold readPayload in E. rewrite Ee in E. cbn in E.
      destruct (messageLength s <=? _); [discriminate|]. by injection E as <-.
  - cbn [map concat].
    assert (unconsumed s = frame d ++ unconsumed sa /\ sane sa) as [-> Hsa].
    { destruct (turn_cases s)
        as [(_ & _ & E')|[(n & Ee & Er & H4 & E')|(Ee & E')]];
        rewrite E' in E; try discriminate; unfold readPayload in E; cbn in E.
      - destruct (n <=? _) eqn:En; [|discriminate]. injection E as <- <-.
        apply Z.leb_le in En. apply le32_read in Er as [Er Hn].
        unfold unconsumed, sane, frame.
        cbn [messageLength messageBuffer expectingLength]. rewrite Ee.
        split; [|done].
        unfold slice_to, slice_from, blen in *.
        rewrite length_take, Nat.min_l by lia. rewrite Z2Nat.id by lia.
        rewrite Er. change (Z.to_nat 4) with 4%nat.
        rewrite <- app_assoc, take_drop, take_drop. done.
      - rewrite Ee in E. cbn in E.
        destruct (messageLength s <=? _) eqn:En; [|discriminate].
        injection E as <- <-. apply Z.leb_le in En.
        specialize (Hs Ee).
        unfold unconsumed, sane, frame.
        cbn [messageLength messageBuffer expectingLength]. rewrite Ee.
        split; [|done].
        unfold slice_to, slice_from, blen in *.
        rewrite length_take, Nat.min_l by lia. rewrite Z2Nat.id by lia.
        rewrite <- app_assoc, take_drop. done. }
    destruct (IH Hsa) as [-> Hs']. by rewrite app_assoc.
Qed.

(** A whole frame at the front of the buffer is cut out in one turn. *)
Lemma turn_frame p rest :
  blen p <= 4294967295 ->
  turn (mkState 0 (frame p ++ rest) true) = Complete (mkState 0 rest true) p.
Proof.
  intros Hp. unfold turn, readHeader, frame.
  cbn [messageLength messageBuffer expectingLength andb].
  rewrite <- app_assoc.
  replace (4 <=? blen (le32 (blen p) ++ p ++ rest)) with true
    by (symmetry; apply Z.leb_le; unfold blen;
        rewrite !length_app, length_le32; lia).
  rewrite read_le32 by (unfold blen in *; lia).
  unfold readPayload, slice_from, slice_to.
  cbn [messageLength messageBuffer expectingLength andb negb].
  change (Z.to_nat 4) with (length (le32 (blen p))).
  rewrite drop_app_length.
  replace (blen p <=? blen (p ++ rest)) with true
    by (symmetry; apply Z.leb_le; unfold blen; rewrite length_app; lia).
  unfold blen. rewrite Nat2Z.id, drop_app_length, take_app_length. done.
Qed.

(** A stream of whole frames drains to their payloads, leaving nothing. *)
Lemma drains_frames ps :
  Forall (fun p => blen p <= 4294967295) ps ->
  drains (append initial (concat (map frame ps))) ps initial.
Proof.
  induction 1 as [|p ps Hp _ IH]; cbn [map concat].
  - by apply drains_wait.
  - eapply drains_complete; [|exact IH].
    unfold append, initial. cbn. by apply turn_frame.
Qed.

Section Feed.
Context {A : Type} (deliver : Buffer -> A).

Lemma feed_app chunks1 chunks2 s :
  feed deliver s (chunks1 ++ chunks2) =
  match feed deliver s chunks1 with
  | Drained s1 out1 =>
      match feed deliver s1 chunks2 with
      | Drained s2 out2 => Drained s2 (out1 ++ out2)
      | Raised => Raised
      | Unfinished => Unfinished
      end
  | Raised => Raised
  | Unfinished => Unfinished
  end.
Proof.
  revert s. induction chunks1 as [|data rest IH]; intros s; cbn [app feed].
  - by destruct (feed deliver s chunks2).
  - destruct (onData deliver s data) as [s1 out| |]; [|done..].
    rewrite IH. destruct (feed deliver s1 rest) as [s2 out2| |]; [|done..].
    cbn [emit]. by destruct (feed deliver s2 chunks2).
Qed.

(** Feeding chunk by chunk from a resting state: every pass returns, one
    output list per chunk, and all in all the loop has drained the
    concatenated input. *)
Lemma feed_drains chunks s :
  resting s ->
  exists raws s',
    feed deliver s chunks = Drained s' (map (map deliver) raws)
    /\ length raws = length chunks
    /\ drains (append s (concat chunks)) (concat raws) s'.
Proof.
  revert s. induction chunks as [|data rest IH]; intros s Hs.
  - exists [], s. cbn. rewrite append_nil. split_and!; [done..|].
    by apply drains_wait.
  - destruct (onData_drains deliver s data) as (raw & s1 & Hd & Hon).
    destruct (IH s1 (drains_resting _ _ _ Hd)) as (raws & s' & Hf & Hl & Hr).
    exists (raw :: raws), s'. cbn [feed map concat length].
    rewrite Hon, Hf. cbn [emit]. split_and!; [done|by rewrite Hl|].
    by eapply drains_append.
Qed.

(** A stream of whole frames, cut into chunks anywhere, seen after the
    first [k] chunks: what those passes cut out and what the remaining
    passes will cut out make up the payloads, and the listener ends in
    its initial state. *)
Lemma feed_frames_at ps chunks k :
  Forall (fun p => blen p <= 4294967295) ps ->
  concat chunks = concat (map frame ps) ->
  exists rawsk sk rest,
    feed deliver initial (take k chunks) = Drained sk (map (map deliver) rawsk)
    /\ length rawsk = length (take k chunks)
    /\ drains (append initial (concat (take k chunks))) (concat rawsk) sk
    /\ feed deliver sk (drop k chunks) = Drained initial (map (map deliver) rest)
    /\ concat rawsk ++ concat rest = ps.
Proof.
  intros Hfit Hcat.
  assert (Hinit : resting initial) by reflexivity.
  assert (Hall : drains (append initial (concat chunks)) ps initial)
    by (rewrite Hcat; by apply drains_frames).
  destruct (feed_drains (take k chunks) initial Hinit)
    as (rawsk & sk & Hfk & Hlk & Hdk).
  destruct (feed_drains (drop k chunks) sk (drains_resting _ _ _ Hdk))
    as (rest & s' & Hfr & _ & Hdr).
  pose proof (drains_append _ _ _ _ _ _ _ Hdk Hdr) as Hd.
  rewrite <- concat_app, take_drop in Hd.
  destruct (drains_deterministic _ _ _ _ _ Hd Hall) as [Hraw ->].
  exists rawsk, sk, rest. done.
Qed.

(** The same stream, fed to the end. *)
Lemma feed_frames ps chunks :
  Forall (fun p => blen p <= 4294967295) ps ->
  concat chunks = concat (map frame ps) ->
  exists raws,
    feed deliver initial chunks = Drained initial (map (map deliver) raws)
    /\ length raws = length chunks
    /\ concat raws = ps.
Proof.
  intros Hfit Hcat.
  destruct (feed_frames_at ps chunks (length chunks) Hfit Hcat)
    as (raws & s & rest & Hf & Hl & _ & Hfr & Hraw).
  rewrite firstn_all in Hf, Hl. rewrite drop_all in Hfr. cbn in Hfr.
  injection Hfr as -> Hrest.
  destruct rest; [|discriminate]. cbn in Hraw. rewrite app_nil_r in Hraw.
  by exists raws.
Qed.

End Feed.

End AssemblerFacts.

(* ===================================================================== *)
(** ** The assembler and the frame writer of the host *)
(* ===================================================================== *)

Module Framing.
Import Assembler BufFacts AssemblerFacts Host.

Section Requests.
Context `{JsonRequest : Json NativeMessage.t}.

Lemma receive_parsed ps ms :
  Forall2 (fun p m => blen p <= 4294967295 /\ JSON_parse p = Some m) ps ms ->
  map receive ps = map HandleMessage ms
  /\ Forall (fun p => blen p <= 4294967295) ps.
Proof.
  induction 1 as [|p m ps ms [Hp Hm] _ [IH1 IH2]]; [done|].
  cbn [map]. unfold receive at 1. rewrite Hm, IH1. split; [done|].
  by constructor.
Qed.

(** C1.  Chunk-invariance of the stream assembler.  Take messages [ms]
    whose JSON texts [ps] fit a 32-bit length, encode each as a frame
    (four-byte little-endian length, then the text), and cut the
    concatenated bytes into [chunks] anywhere.  Feeding the chunks in
    order to the ['data'] listener, starting from its initial state, makes
    every pass return and hands [handleMessage] exactly [ms], in order,
    leaving the listener in its initial state.  Moreover after any number
    [k] of chunks the messages handed over so far are the first [n] of
    [ms], the bytes received so far are the first [n] frames followed by
    exactly the bytes the listener still holds, and the listener holds no
    complete frame: every frame a chunk completed was drained in the pass
    for that chunk and no byte was dropped in between. *)
Theorem chunk_invariance
    (ms : list NativeMessage.t) (ps chunks : list Buffer) :
  Forall2 (fun p m => blen p <= 4294967295 /\ JSON_parse p = Some m) ps ms ->
  concat chunks = concat (map frame ps) ->
  exists outs,
    feed receive initial chunks = Drained initial outs
    /\ length outs = length chunks
    /\ concat outs = map HandleMessage ms
    /\ forall k, exists n s,
         feed receive initial (take k chunks) = Drained s (take k outs)
         /\ concat (take k outs) = map HandleMessage (take n ms)
         /\ concat (take k chunks)
            = concat (map frame (take n ps)) ++ unconsumed s
         /\ resting s.
Proof.
  intros Hps Hcat.
  destruct (receive_parsed _ _ Hps) as [Hrecv Hfit].
  pose proof (feed_frames_at receive ps chunks) as Hk.
  destruct (feed_frames receive ps chunks Hfit Hcat) as (raws & Hf & Hl & Hraw).
  exists (map (map receive) raws). split_and!.
  - done.
  - by rewrite length_map.
  - by rewrite <- Hrecv, <- Hraw, concat_map.
  - intros k.
    destruct (Hk k Hfit Hcat)
      as (rawsk & sk & restk & Hfk & Hlk & Hdk & Hfrk & Hrawk).
    exists (length (concat rawsk)), sk.
    assert (Htk : take k (map (map receive) raws) = map (map receive) rawsk).
    { pose proof (feed_app receive (take k chunks) (drop k chunks) initial) as E.
      rewrite take_drop, Hf, Hfk, Hfrk in E. injection E as E.
      rewrite E. destruct (decide (k <= length chunks)%nat) as [Hle|Hgt].
      - apply take_app_length'. rewrite length_map, Hlk, length_take. lia.
      - rewrite drop_ge in Hfrk by lia. cbn in Hfrk. injection Hfrk as _ Hnil.
        destruct restk; [|discriminate]. cbn [map]. rewrite app_nil_r.
        apply take_ge. rewrite length_map, Hlk, length_take. lia. }
    assert (Hpre : take (length (concat rawsk)) ps = concat rawsk)
      by (rewrite <- Hrawk; apply take_app_length).
    split_and!.
    + by rewrite Htk.
    + rewrite Htk, <- concat_map.
      rewrite <- (firstn_map HandleMessage), <- Hrecv, firstn_map.
      by rewrite Hpre.
    + destruct (drains_unconsumed _ _ _ Hdk) as [Hu _]; [done|].
      rewrite Hpre. exact Hu.
    + by eapply drains_resting.
Qed.

End Requests.

(** The sample stream, cut in four, hands over the two sample requests. *)
Lemma chunk_invariance_witness :
  Forall2 (fun p m => blen p <= 4294967295
                      /\ @JSON_parse _ SampleJson.requests p = Some m)
    Samples.payloads Samples.requests
  /\ concat Samples.chunks = concat (map frame Samples.payloads)
  /\ exists outs,
       feed (receive (JsonRequest := SampleJson.requests)) initial Samples.chunks
         = Drained initial outs
       /\ length outs = length Samples.chunks
       /\ concat outs = map HandleMessage Samples.requests
       /\ forall k, exists n s,
            feed (receive (JsonRequest := SampleJson.requests)) initial
              (take k Samples.chunks) = Drained s (take k outs)
            /\ concat (take k outs) = map HandleMessage (take n Samples.requests)
            /\ concat (take k Samples.chunks)
               = concat (map frame (take n Samples.payloads)) ++ unconsumed s
            /\ resting s.
Proof.
  assert (H1 : Forall2 (fun p m => blen p <= 4294967295
                      /\ @JSON_parse _ SampleJson.requests p = Some m)
    Samples.payloads Samples.requests).
  { unfold Samples.payloads, Samples.requests. cbn [map].
    repeat (constructor; [split; [by vm_compute|by vm_compute]|]).
    constructor. }
  assert (H2 : concat Samples.chunks = concat (map frame Samples.payloads))
    by (by vm_compute).
  split; [exact H1|]. split; [exact H2|].
  exact (chunk_invariance (JsonRequest := SampleJson.requests) _ _ _ H1 H2).
Defined.

(** Scenario D of the specification: two complete frames in one chunk
    are both handed over in the pass for that chunk, in arrival order. *)
Example two_frames_in_one_chunk :
  onData (receive (JsonRequest := SampleJson.requests)) initial Samples.stream
  = Drained initial
      [HandleMessage Samples.ping; HandleMessage Samples.extractFirefox].
Proof. by vm_compute. Qed.

(** The same stream, one byte per chunk. *)
Example one_byte_at_a_time :
  match feed (receive (JsonRequest := SampleJson.requests)) initial
          (map (fun b => [b]) Samples.stream) with
  | Drained s outs => Some (s, concat outs)
  | _ => None
  end
  = Some (initial,
          [HandleMessage Samples.ping; HandleMessage Samples.extractFirefox]).
Proof. by vm_compute. Qed.

(** A header alone: the length is taken off the buffer and kept. *)
Example header_only :
  onData (receive (JsonRequest := SampleJson.requests)) initial
    (le32 35 ++ list_byte_of_string "{")
  = Drained (Assembler.mkState 35 (list_byte_of_string "{") false) [].
Proof. by vm_compute. Qed.

Section Codec.
Context {T : Type} `{JsonT : Json T}.

(** C3.  Frame codec round trip.  Let [m] be a message that survives
    JSON ([JSON.parse] of its [JSON.stringify] text gives [m] back) and
    whose text fits a 32-bit length.  Then [sendMessage m] writes a
    four-byte header followed by the text, the header read as a
    little-endian number is exactly the byte length of the text, and the
    ['data'] listener, given these bytes, decodes exactly [m] and is back
    in its initial state. *)
Theorem frame_roundtrip (m : T) (out : Buffer) :
  JSON_parse (JSON_stringify m) = Some m ->
  blen (JSON_stringify m) <= 4294967295 ->
  exists header,
    sendMessage m out = (Ok tt, out ++ header ++ JSON_stringify m)
    /\ length header = 4%nat
    /\ readUInt32LE header = Some (blen (JSON_stringify m))
    /\ onData JSON_parse initial (header ++ JSON_stringify m)
       = Drained initial [Some m].
Proof.
  intros Hrt Hfit. set (text := JSON_stringify m) in *.
  assert (Hlen : 0 <= blen text <= 4294967295) by (unfold blen in *; lia).
  exists (le32 (blen text)). split_and!.
  - unfold sendMessage. fold text.
    assert (writeUInt32LE (blen text) = Some (le32 (blen text))) as ->
      by by apply writeUInt32LE_Some.
    unfold bind, write. by rewrite app_assoc.
  - reflexivity.
  - rewrite <- (app_nil_r (le32 _)). by apply read_le32.
  - change (le32 (blen text) ++ text) with (frame text).
    destruct (onData_drains JSON_parse initial (frame text))
      as (raw & s' & Hd & ->).
    assert (Hall : drains (append initial (frame text)) [text] initial).
    { pose proof (drains_frames [text]) as H. cbn in H.
      rewrite app_nil_r in H. apply H. by constructor. }
    destruct (drains_deterministic _ _ _ _ _ Hd Hall) as [-> ->].
    cbn [map]. by rewrite Hrt.
Qed.

End Codec.

(** The sample request [extractFirefox] goes through the codec. *)
Lemma frame_roundtrip_witness :
  let text := @JSON_stringify _ SampleJson.requests Samples.extractFirefox in
  @JSON_parse _ SampleJson.requests text = Some Samples.extractFirefox
  /\ blen text <= 4294967295
  /\ exists header,
       sendMessage (H := SampleJson.requests) Samples.extractFirefox []
         = (Ok tt, [] ++ header ++ text)
       /\ length header = 4%nat
       /\ readUInt32LE header = Some (blen text)
       /\ onData (@JSON_parse _ SampleJson.requests) initial (header ++ text)
          = Drained initial [Some Samples.extractFirefox].
Proof.
  intros text.
  assert (H1 : @JSON_parse _ SampleJson.requests text
               = Some Samples.extractFirefox) by (by vm_compute).
  assert (H2 : blen text <= 4294967295) by (by vm_compute).
  split; [exact H1|]. split; [exact H2|].
  exact (frame_roundtrip (JsonT := SampleJson.requests)
           Samples.extractFirefox [] H1 H2).
Defined.

Section Errors.
Context `{JsonRequest : Json NativeMessage.t}.
Context `{JsonResponse : Json NativeResponse.t}.

(** C5.  Decode-error resynchronisation.  Let [bad] be a payload that is
    well framed (its length fits the header) but is not JSON, sent
    between well-formed frames.  Then (1) the turn of the loop that meets
    the frame of [bad] at the head of the buffer cuts out exactly the
    bytes of [bad] and leaves the listener expecting a length, with the
    bytes behind the frame untouched; (2) the listener answers [bad] by
    calling [sendError('Invalid message format', 'unknown')] rather than
    raising; (3) that call writes one failure response with request id
    ["unknown"], provided its text fits a frame; and (4) however the
    stream is cut into chunks, every pass returns and the frames before
    and behind [bad] are all decoded, in order, around that one error. *)
Theorem decode_error_resync
    (ms1 ms2 : list NativeMessage.t) (ps1 ps2 : list Buffer)
    (bad : Buffer) (chunks : list Buffer) (out : Buffer) :
  Forall2 (fun p m => blen p <= 4294967295 /\ JSON_parse p = Some m) ps1 ms1 ->
  Forall2 (fun p m => blen p <= 4294967295 /\ JSON_parse p = Some m) ps2 ms2 ->
  blen bad <= 4294967295 ->
  @JSON_parse _ JsonRequest bad = None ->
  blen (JSON_stringify invalidMessageFormat) <= 4294967295 ->
  concat chunks = concat (map frame (ps1 ++ bad :: ps2)) ->
  (forall rest,
     turn (Assembler.mkState 0 (frame bad ++ rest) true)
     = Complete (Assembler.mkState 0 rest true) bad)
  /\ receive bad = SendError "Invalid message format" "unknown"
  /\ sendError "Invalid message format" "unknown" out
     = (Ok tt, out ++ frame (JSON_stringify invalidMessageFormat))
  /\ exists outs,
       feed receive initial chunks = Drained initial outs
       /\ length outs = length chunks
       /\ concat outs
          = map HandleMessage ms1
            ++ SendError "Invalid message format" "unknown"
               :: map HandleMessage ms2.
Proof.
  intros H1 H2 Hbad Hnone Hresp Hcat.
  destruct (receive_parsed _ _ H1) as [Hr1 Hf1].
  destruct (receive_parsed _ _ H2) as [Hr2 Hf2].
  assert (Hrb : receive bad = SendError "Invalid message format" "unknown")
    by (unfold receive; by rewrite Hnone).
  split_and!.
  - intros rest. by apply turn_frame.
  - exact Hrb.
  - unfold sendError, sendMessage. fold invalidMessageFormat.
    assert (writeUInt32LE (blen (JSON_stringify invalidMessageFormat))
            = Some (le32 (blen (JSON_stringify invalidMessageFormat)))) as ->
      by (apply writeUInt32LE_Some; split; [unfold blen in *; lia|done]).
    unfold bind, write, frame. by rewrite app_assoc.
  - destruct (feed_frames receive (ps1 ++ bad :: ps2) chunks)
      as (raws & Hf & Hl & Hraw); [|done|].
    + apply Forall_app. split; [done|]. by constructor.
    + exists (map (map receive) raws). split_and!; [done|by rewrite length_map|].
      rewrite <- concat_map, Hraw, map_app. cbn [map].
      by rewrite Hr1, Hr2, Hrb.
Qed.

End Errors.

(** The garbled sample stream: a request, a payload that is not JSON,
    another request. *)
Lemma decode_error_resync_witness :
  (forall rest,
     turn (Assembler.mkState 0 (frame Samples.garbage ++ rest) true)
     = Complete (Assembler.mkState 0 rest true) Samples.garbage)
  /\ receive (JsonRequest := SampleJson.requests) Samples.garbage
     = SendError "Invalid message format" "unknown"
  /\ sendError (JsonResponse := SampleJson.responses)
       "Invalid message format" "unknown" []
     = (Ok tt, [] ++ frame (@JSON_stringify _ SampleJson.responses
                              invalidMessageFormat))
  /\ exists outs,
       feed (receive (JsonRequest := SampleJson.requests)) initial
         Samples.garbledChunks = Drained initial outs
       /\ length outs = length Samples.garbledChunks
       /\ concat outs
          = map HandleMessage [Samples.ping]
            ++ SendError "Invalid message format" "unknown"
               :: map HandleMessage [Samples.extractFirefox].
Proof.
  apply (decode_error_resync
           (JsonRequest := SampleJson.requests)
           (JsonResponse := SampleJson.responses)
           [Samples.ping] [Samples.extractFirefox]
           [@JSON_stringify _ SampleJson.requests Samples.ping]
           [@JSON_stringify _ SampleJson.requests Samples.extractFirefox]).
  - constructor; [split; by vm_compute|constructor].
  - constructor; [split; by vm_compute|constructor].
  - by vm_compute.
  - by vm_compute.
  - by vm_compute.
  - by vm_compute.
Defined.

End Framing.


(* ===================================================================== *)
(** ** The command dispatcher *)
(* ===================================================================== *)

Module Dispatch.
Import BufFacts Host.

Section Responses.
Context `{JsonResponse : Json NativeResponse.t}.

(** [sendMessage] writes exactly one frame when the text fits. *)
Lemma sendMessage_fits (response : NativeResponse.t) (out : Buffer) :
  fits (JSON_stringify response) ->
  sendMessage response out = (Ok tt, out ++ frame (JSON_stringify response)).
Proof.
  unfold fits. intros Hfit. unfold sendMessage.
  assert (writeUInt32LE (blen (JSON_stringify response))
          = Some (le32 (blen (JSON_stringify response)))) as ->
    by (apply writeUInt32LE_Some; split; [unfold blen in *; lia|done]).
  unfold bind, write, frame. by rewrite app_assoc.
Qed.

(** No handler writes to [stdout] itself. *)
Lemma runCommand_silent (this : Env) (message : NativeMessage.t) (out : Buffer) :
  runCommand this message out = (commandOutcome this message, out).
Proof.
  unfold commandOutcome, runCommand.
  repeat case_match; try reflexivity;
    unfold extractBookmarksFor, getBookmarkDatabases, bind, await, ret, throw;
    repeat case_match; reflexivity.
Qed.

(** [handleMessage] in one equation. *)
Lemma handleMessage_response (this : Env) (message : NativeMessage.t) (out : Buffer) :
  fits (JSON_stringify (responseFor message (commandOutcome this message))) ->
  handleMessage this message out
  = (Ok tt, out ++ frame (JSON_stringify
                            (responseFor message (commandOutcome this message)))).
Proof.
  intros Hfit. unfold handleMessage, tryCatch, bind.
  rewrite runCommand_silent.
  destruct (commandOutcome this message) as [result|[text|v]];
    cbn [responseFor] in Hfit.
  - unfold sendResponse. by rewrite (sendMessage_fits _ _ Hfit).
  - unfold sendError. exact (sendMessage_fits _ _ Hfit).
  - unfold sendError. exact (sendMessage_fits _ _ Hfit).
Qed.

(** C4.  Dispatcher response totality.  For every decoded request, let
    the outcome be how the handler selected by [message.command] ends.
    Provided the text of the response fits a frame, [handleMessage]
    completes normally and writes exactly one frame: the response
    [{success: true, data: result, requestId}] when the handler returned
    [result], and [{success: false, error, requestId}] with the request's
    own id when it threw, [error] being the message of the [Error] thrown
    (or ['Unknown error'] for a thrown value that is no [Error]).  The
    handlers write nothing themselves.  A command without a handler ends
    as a thrown ['Unknown command: ...'] error and so gets a failure
    response like any other. *)
Theorem dispatcher_total (this : Env) (message : NativeMessage.t) (out : Buffer) :
  fits (JSON_stringify (responseFor message (commandOutcome this message))) ->
  runCommand this message out = (commandOutcome this message, out)
  /\ handleMessage this message out
     = (Ok tt, out ++ frame (JSON_stringify
                               (responseFor message (commandOutcome this message))))
  /\ (NativeMessage.command message ≠ "extractBookmarks" ->
      NativeMessage.command message ≠ "getBookmarkDatabases" ->
      NativeMessage.command message ≠ "ping" ->
      responseFor message (commandOutcome this message)
      = failureResponse ("Unknown command: " ++ NativeMessage.command message)
          (NativeMessage.requestId message)).
Proof.
  intros Hfit. split_and!.
  - apply runCommand_silent.
  - by apply handleMessage_response.
  - intros H1 H2 H3. unfold commandOutcome, runCommand.
    apply String.eqb_neq in H1, H2, H3. by rewrite H1, H2, H3.
Qed.

(** How [getBookmarkDatabases] ends: the extractors are asked in the
    order chrome, firefox, safari, and the first failure ends the call. *)
Lemma getBookmarkDatabases_outcome (this : Env) (message : NativeMessage.t) :
  NativeMessage.command message = "getBookmarkDatabases" ->
  commandOutcome this message
  = match getDatabasePath (chromeExtractor this) with
    | Throw e => Throw e
    | Ok chrome =>
        match getDatabasePath (firefoxExtractor this) with
        | Throw e => Throw e
        | Ok firefox =>
            match getDatabasePath (safariExtractor this) with
            | Throw e => Throw e
            | Ok safari =>
                Ok (Object [("chrome", chrome); ("firefox", firefox);
                            ("safari", safari)])
            end
        end
    end.
Proof.
  intros Hc. unfold commandOutcome, runCommand. rewrite Hc. cbn [String.eqb].
  change (String.eqb "getBookmarkDatabases" "extractBookmarks") with false.
  change (String.eqb "getBookmarkDatabases" "getBookmarkDatabases") with true.
  cbv iota. unfold getBookmarkDatabases, bind, await, ret.
  by repeat case_match.
Qed.

(** C6, as the code has it.  A request with command
    ["getBookmarkDatabases"] gets exactly one response (provided its text
    fits a frame) and the host does not crash; but the response is a
    success, carrying the mapping from [chrome], [firefox] and [safari]
    to what each [getDatabasePath] returned, only when all three calls
    succeed.  When one fails, the response is the failure response with
    the request's id and the message of the first extractor that failed,
    in the order chrome, firefox, safari. *)
Theorem getBookmarkDatabases_all_or_nothing
    (this : Env) (message : NativeMessage.t) (out : Buffer) :
  NativeMessage.command message = "getBookmarkDatabases" ->
  fits (JSON_stringify (responseFor message (commandOutcome this message))) ->
  handleMessage this message out
  = (Ok tt, out ++ frame (JSON_stringify
                            (responseFor message (commandOutcome this message))))
  /\ commandOutcome this message
     = match getDatabasePath (chromeExtractor this) with
       | Throw e => Throw e
       | Ok chrome =>
           match getDatabasePath (firefoxExtractor this) with
           | Throw e => Throw e
           | Ok firefox =>
               match getDatabasePath (safariExtractor this) with
               | Throw e => Throw e
               | Ok safari =>
                   Ok (Object [("chrome", chrome); ("firefox", firefox);
                               ("safari", safari)])
               end
           end
       end.
Proof.
  intros Hc Hfit. split.
  - by apply handleMessage_response.
  - by apply getBookmarkDatabases_outcome.
Qed.

(** What [extractBookmarks] is called with decides how the command ends. *)
Lemma extractBookmarks_outcome (this : Env) (message : NativeMessage.t) :
  NativeMessage.command message = "extractBookmarks" ->
  commandOutcome this message
  = (extractBookmarksFor this
       (Js.or (optBrowser (NativeMessage.data message)) (Str "chrome")) []).1.
Proof.
  intros Hc. unfold commandOutcome, runCommand. rewrite Hc.
  change (String.eqb "extractBookmarks" "extractBookmarks") with true.
  reflexivity.
Qed.

(** C9, as the code has it.  A request with command ["extractBookmarks"]
    whose [data.browser] is a string [name] that is not empty and whose
    lower-case form is none of ["chrome"], ["firefox"], ["safari"] gets
    the failure response with error ["Unsupported browser: " ++ name] and
    the request's own id.  (The empty name is excluded: it is falsy and
    stands for ["chrome"].) *)
Theorem unsupported_browser
    (this : Env) (message : NativeMessage.t) (name : string) (out : Buffer) :
  NativeMessage.command message = "extractBookmarks" ->
  optBrowser (NativeMessage.data message) = Str name ->
  name ≠ EmptyString ->
  toLowerCase name ≠ "chrome" ->
  toLowerCase name ≠ "firefox" ->
  toLowerCase name ≠ "safari" ->
  fits (JSON_stringify
          (failureResponse ("Unsupported browser: " ++ name)
             (NativeMessage.requestId message))) ->
  handleMessage this message out
  = (Ok tt, out ++ frame (JSON_stringify
                            (failureResponse ("Unsupported browser: " ++ name)
                               (NativeMessage.requestId message)))).
Proof.
  intros Hc Hb Hne H1 H2 H3 Hfit.
  assert (Hout : commandOutcome this message
                 = Throw (Error ("Unsupported browser: " ++ name))).
  { rewrite extractBookmarks_outcome by done. rewrite Hb.
    unfold Js.or, truthy.
    apply String.eqb_neq in Hne, H1, H2, H3. rewrite Hne. cbn [negb].
    unfold extractBookmarksFor. by rewrite H1, H2, H3. }
  pose proof (handleMessage_response this message out) as H.
  rewrite Hout in H. cbn [responseFor] in H. by apply H.
Qed.

(** C10.  Implicit default browser.  A request with command
    ["extractBookmarks"] whose [data?.browser] is falsy (no [data], a
    [data] without a [browser] property, or a falsy [browser] such as the
    empty string) does not fail for that: it ends exactly as the Chrome
    extractor's [extractBookmarks()] ends, and the host does with it
    exactly what it does with the same request carrying
    [{browser: "chrome"}]. *)
Theorem default_browser (this : Env) (message : NativeMessage.t) (out : Buffer) :
  NativeMessage.command message = "extractBookmarks" ->
  truthy (optBrowser (NativeMessage.data message)) = false ->
  commandOutcome this message = extractBookmarks (chromeExtractor this)
  /\ handleMessage this message out
     = handleMessage this
         (NativeMessage.mk "extractBookmarks"
            (Object [("browser", Str "chrome")])
            (NativeMessage.requestId message)) out.
Proof.
  intros Hc Hfalsy.
  assert (Hrun : forall o,
    runCommand this message o = (extractBookmarks (chromeExtractor this), o)).
  { intros o. unfold runCommand. rewrite Hc.
    change (String.eqb "extractBookmarks" "extractBookmarks") with true.
    cbv iota. unfold Js.or. rewrite Hfalsy. reflexivity. }
  split.
  - unfold commandOutcome. by rewrite Hrun.
  - unfold handleMessage, tryCatch, bind. rewrite Hrun. reflexivity.
Qed.

End Responses.

(** Scenario A of the specification: [ping] is answered with the
    liveness marker and the time, under the request's id. *)
Example ping_is_answered :
  handleMessage (JsonResponse := SampleJson.responses)
    Samples.host Samples.ping []
  = (Ok tt, frame (@JSON_stringify _ SampleJson.responses
       (successResponse
          (Object [("status", Str "alive"); ("timestamp", Number 1700000000000)])
          "req_1"))).
Proof. by vm_compute. Qed.

(** A browser name is matched whatever its case. *)
Example firefox_in_capitals :
  commandOutcome Samples.host Samples.extractFirefox
  = extractBookmarks (firefoxExtractor Samples.host).
Proof. reflexivity. Qed.

(** The sample host answers an unknown command with a failure. *)
Lemma dispatcher_total_witness :
  fits (@JSON_stringify _ SampleJson.responses
          (responseFor Samples.launch
             (commandOutcome Samples.host Samples.launch)))
  /\ runCommand Samples.host Samples.launch []
     = (commandOutcome Samples.host Samples.launch, [])
  /\ handleMessage (JsonResponse := SampleJson.responses)
       Samples.host Samples.launch []
     = (Ok tt, [] ++ frame (@JSON_stringify _ SampleJson.responses
                              (responseFor Samples.launch
                                 (commandOutcome Samples.host Samples.launch))))
  /\ (NativeMessage.command Samples.launch ≠ "extractBookmarks" ->
      NativeMessage.command Samples.launch ≠ "getBookmarkDatabases" ->
      NativeMessage.command Samples.launch ≠ "ping" ->
      responseFor Samples.launch (commandOutcome Samples.host Samples.launch)
      = failureResponse
          ("Unknown command: " ++ NativeMessage.command Samples.launch)
          (NativeMessage.requestId Samples.launch)).
Proof.
  assert (H : fits (@JSON_stringify _ SampleJson.responses
                      (responseFor Samples.launch
                         (commandOutcome Samples.host Samples.launch))))
    by (by vm_compute).
  split; [exact H|].
  exact (dispatcher_total (JsonResponse := SampleJson.responses)
           Samples.host Samples.launch [] H).
Defined.

(** Against C6 as stated.  With the Chrome profile missing,
    [getBookmarkDatabases] fails as a whole although Firefox and Safari
    answered: the host writes the failure response, and no success
    response whatever the mapping in it. *)
Lemma getBookmarkDatabases_failure_is_fatal :
  getDatabasePath (firefoxExtractor Samples.hostWithoutChrome)
  = Ok (Str "/home/u/.mozilla/firefox/places.sqlite")
  /\ getDatabasePath (safariExtractor Samples.hostWithoutChrome) = Ok Null
  /\ handleMessage (JsonResponse := SampleJson.responses)
       Samples.hostWithoutChrome Samples.getDatabases []
     = (Ok tt, frame (@JSON_stringify _ SampleJson.responses
                        (failureResponse "Chrome bookmarks not found" "req_3")))
  /\ forall mapping,
       handleMessage (JsonResponse := SampleJson.responses)
         Samples.hostWithoutChrome Samples.getDatabases []
       ≠ (Ok tt, frame (@JSON_stringify _ SampleJson.responses
                          (successResponse mapping "req_3"))).
Proof.
  assert (E : handleMessage (JsonResponse := SampleJson.responses)
       Samples.hostWithoutChrome Samples.getDatabases []
     = (Ok tt, frame (@JSON_stringify _ SampleJson.responses
                        (failureResponse "Chrome bookmarks not found" "req_3"))))
    by (by vm_compute).
  split_and!; [reflexivity|reflexivity|exact E|].
  intros mapping H. rewrite E in H.
  apply (f_equal (fun p => nth 15 p.2 "000"%byte)) in H.
  vm_compute in H. discriminate H.
Qed.

(** The sample host without Chrome answers [getBookmarkDatabases]. *)
Lemma getBookmarkDatabases_all_or_nothing_witness :
  handleMessage (JsonResponse := SampleJson.responses)
    Samples.hostWithoutChrome Samples.getDatabases []
  = (Ok tt, [] ++ frame (@JSON_stringify _ SampleJson.responses
                           (responseFor Samples.getDatabases
                              (commandOutcome Samples.hostWithoutChrome
                                 Samples.getDatabases))))
  /\ commandOutcome Samples.hostWithoutChrome Samples.getDatabases
     = Throw (Error "Chrome bookmarks not found").
Proof.
  apply (getBookmarkDatabases_all_or_nothing
           (JsonResponse := SampleJson.responses)
           Samples.hostWithoutChrome Samples.getDatabases []).
  - reflexivity.
  - by vm_compute.
Defined.

(** Against C9 as stated.  The empty browser name is none of the three
    names, yet the request is served by the Chrome extractor and
    succeeds; no ["Unsupported browser: "] failure is written. *)
Lemma empty_browser_name_is_chrome :
  optBrowser (NativeMessage.data Samples.extractNameless) = Str EmptyString
  /\ toLowerCase EmptyString ≠ "chrome"
  /\ toLowerCase EmptyString ≠ "firefox"
  /\ toLowerCase EmptyString ≠ "safari"
  /\ handleMessage (JsonResponse := SampleJson.responses)
       Samples.host Samples.extractNameless []
     = (Ok tt, frame (@JSON_stringify _ SampleJson.responses
          (successResponse
             (Array [Object [("title", Str "Rocq");
                             ("url", Str "https://rocq-prover.org")]])
             "req_5")))
  /\ handleMessage (JsonResponse := SampleJson.responses)
       Samples.host Samples.extractNameless []
     ≠ (Ok tt, frame (@JSON_stringify _ SampleJson.responses
          (failureResponse ("Unsupported browser: " ++ EmptyString) "req_5"))).
Proof.
  split_and!; [reflexivity|discriminate..| |].
  - by vm_compute.
  - intros H. vm_compute in H. discriminate H.
Qed.

(** Scenario B of the specification, on the sample host. *)
Lemma unsupported_browser_witness :
  handleMessage (JsonResponse := SampleJson.responses)
    Samples.host Samples.extractUnsupported []
  = (Ok tt, [] ++ frame (@JSON_stringify _ SampleJson.responses
                           (failureResponse "Unsupported browser: unsupported"
                              "req_4"))).
Proof.
  apply (unsupported_browser (JsonResponse := SampleJson.responses)
           Samples.host Samples.extractUnsupported "unsupported" []).
  - reflexivity.
  - reflexivity.
  - discriminate.
  - vm_compute. discriminate.
  - vm_compute. discriminate.
  - vm_compute. discriminate.
  - by vm_compute.
Defined.

(** A request without [data] is served by the Chrome extractor. *)
Lemma default_browser_witness :
  commandOutcome Samples.host Samples.extractDefault
  = extractBookmarks (chromeExtractor Samples.host)
  /\ handleMessage (JsonResponse := SampleJson.responses)
       Samples.host Samples.extractDefault []
     = handleMessage (JsonResponse := SampleJson.responses) Samples.host
         (NativeMessage.mk "extractBookmarks"
            (Object [("browser", Str "chrome")])
            (NativeMessage.requestId Samples.extractDefault)) [].
Proof.
  apply (default_browser (JsonResponse := SampleJson.responses)
           Samples.host Samples.extractDefault []); reflexivity.
Defined.

End Dispatch.

(* ===================================================================== *)
(** ** The client *)
(* ===================================================================== *)

Module ClientFacts.
Import Client.

Lemma elem_of_enqueue t u queue : u ∈ enqueue t queue <-> u = t \/ u ∈ queue.
Proof.
  induction queue as [|v queue IH]; cbn [enqueue].
  - rewrite list_elem_of_singleton, elem_of_nil. tauto.
  - destruct (due v <=? due t)%N; rewrite !elem_of_cons, ?IH; tauto.
Qed.

Lemma settlements_settle q p s c :
  settlements q (settle p s c)
  = settlements q c ++ (if decide (p = q) then [s] else []).
Proof.
  unfold settlements, settle. cbn.
  rewrite filter_app, fmap_app. f_equal.
  rewrite filter_cons, filter_nil. cbn. by destruct (decide (p = q)).
Qed.

Section Facts.
Context (connectNative : nat -> ConnectResult).

Local Abbreviation fire := (fire connectNative).
Local Abbreviation step := (step connectNative).
Local Abbreviation run := (run connectNative).
Local Abbreviation connectToNativeHost := (connectToNativeHost connectNative).

(** A timer callback touches neither the timer queue nor the clock, and
    hands out no promise. *)
Lemma fire_frame cb c :
  timers (fire cb c) = timers c
  /\ clock (fire cb c) = clock c
  /\ promises (fire cb c) = promises c.
Proof.
  destruct cb as [id p|]; cbn.
  - by destruct (messageHandlers c !! id).
  - unfold Client.connectToNativeHost. by destruct (connectNative _).
Qed.

Lemma connect_frame c :
  messageHandlers (connectToNativeHost c) = messageHandlers c
  /\ settled (connectToNativeHost c) = settled c
  /\ timers (connectToNativeHost c) = timers c
  /\ clock (connectToNativeHost c) = clock c
  /\ promises (connectToNativeHost c) = promises c.
Proof. unfold Client.connectToNativeHost. by destruct (connectNative _). Qed.

Lemma handler_settles id p response c :
  handler id p response c
  = settle p (responseSettlement response)
      (set_messageHandlers (delete id (messageHandlers c)) c).
Proof.
  unfold handler, responseSettlement.
  by destruct (NativeResponse.success response).
Qed.

(** The timeout of the request itself completes it. *)
Lemma fire_own id p c :
  Pending id p c -> Completed id p timeoutSettlement (fire (TimeoutCheck id p) c).
Proof.
  intros (Hh & Hs & Hu & Hp). cbn. rewrite Hh.
  unfold Completed. rewrite settlements_settle, decide_True by done. cbn.
  split_and!.
  - apply lookup_delete_eq.
  - unfold settlements in *. cbn. by rewrite Hs.
  - intros id' H. destruct (decide (id' = id)) as [->|Hne].
    + by rewrite lookup_delete_eq in H.
    + rewrite lookup_delete_ne in H by done. by apply Hu in H.
  - done.
Qed.

(** Other callbacks leave a pending request pending. *)
Lemma fire_other id p cb c :
  (forall id' q, cb = TimeoutCheck id' q -> id' ≠ id /\ q ≠ p) ->
  Pending id p c -> Pending id p (fire cb c).
Proof.
  intros Hcb (Hh & Hs & Hu & Hp). destruct cb as [id' q|].
  - destruct (Hcb id' q eq_refl) as [Hid Hq]. cbn.
    destruct (messageHandlers c !! id') eqn:E; [|done].
    unfold Pending. rewrite settlements_settle, decide_False by done. cbn.
    split_and!.
    + by rewrite lookup_delete_ne.
    + unfold settlements in *. cbn. by rewrite Hs.
    + intros id'' H. apply Hu. apply lookup_delete_Some in H. tauto.
    + done.
  - unfold Pending, settlements. cbn.
    destruct (connect_frame c) as (-> & -> & _ & _ & ->). done.
Qed.

(** No callback disturbs a completed request. *)
Lemma fire_completed id p s cb c :
  (forall id' q, cb = TimeoutCheck id' q -> q = p -> id' = id) ->
  Completed id p s c -> Completed id p s (fire cb c).
Proof.
  intros Hcb (Hh & Hs & Hu & Hp). destruct cb as [id' q|].
  - cbn. destruct (messageHandlers c !! id') eqn:E; [|done].
    assert (q ≠ p) as Hq.
    { intros ->. rewrite (Hcb id' p eq_refl eq_refl) in E. congruence. }
    unfold Completed. rewrite settlements_settle, decide_False by done. cbn.
    split_and!.
    + apply lookup_delete_None. tauto.
    + unfold settlements in *. cbn. by rewrite Hs, app_nil_r.
    + intros id'' H. apply lookup_delete_Some in H as [_ H]. by apply (Hu id'').
    + done.
  - unfold Completed, settlements. cbn.
    destruct (connect_frame c) as (-> & -> & _ & _ & ->). done.
Qed.

(** Running a batch of due timers. *)
Lemma fire_all_frame todo c :
  let c' := fold_left (fun c t => fire (callback t) c) todo c in
  timers c' = timers c /\ clock c' = clock c /\ promises c' = promises c.
Proof.
  revert c. induction todo as [|t todo IH]; intros c; cbn; [done|].
  destruct (IH (fire (callback t) c)) as (-> & -> & ->).
  apply fire_frame.
Qed.

Lemma fire_all_completed id p s todo c :
  (forall t id', t ∈ todo -> callback t = TimeoutCheck id' p -> id' = id) ->
  Completed id p s c ->
  Completed id p s (fold_left (fun c t => fire (callback t) c) todo c).
Proof.
  revert c. induction todo as [|t todo IH]; intros c Hts Hc; cbn; [done|].
  apply IH.
  - intros u id' Hu. apply Hts. by right.
  - apply fire_completed; [|done].
    intros id' q E ->. apply (Hts t); [by left|done].
Qed.

Lemma fire_all_other id p d todo c :
  Paired id p d todo ->
  (forall t, t ∈ todo -> callback t ≠ TimeoutCheck id p) ->
  Pending id p c ->
  Pending id p (fold_left (fun c t => fire (callback t) c) todo c).
Proof.
  revert c. induction todo as [|t todo IH]; intros c Hpair Hnot Hc; cbn; [done|].
  apply IH.
  - intros u id' q Hu. apply Hpair. by right.
  - intros u Hu. apply Hnot. by right.
  - apply fire_other; [|done]. intros id' q E.
    destruct (Hpair t id' q) as [Hiff _]; [by left|done|].
    assert (~ (id' = id /\ q = p)) as Hn.
    { intros [-> ->]. by apply (Hnot t); [left|]. }
    split; intros ->; tauto.
Qed.

Lemma fire_all_own id p d todo c :
  Paired id p d todo ->
  (exists t, t ∈ todo /\ callback t = TimeoutCheck id p) ->
  Pending id p c ->
  Completed id p timeoutSettlement
    (fold_left (fun c t => fire (callback t) c) todo c).
Proof.
  revert c. induction todo as [|t todo IH]; intros c Hpair (u & Hu & Eu) Hc.
  - by apply elem_of_nil in Hu.
  - cbn [fold_left].
    assert (Hpair' : Paired id p d todo)
      by (intros v id' q Hv; apply Hpair; by right).
    destruct (decide (callback t = TimeoutCheck id p)) as [Et|Net].
    + rewrite Et. apply fire_all_completed; [|by apply fire_own].
      intros v id' Hv Ev. destruct (Hpair' v id' p Hv Ev) as [Hiff _]. tauto.
    + apply IH; [done| |].
      * exists u. split; [|done]. apply elem_of_cons in Hu as [->|Hu]; done.
      * apply fire_other; [|done]. intros id' q E.
        destruct (Hpair t id' q) as [Hiff _]; [by left|done|].
        assert (~ (id' = id /\ q = p)) as Hn by (intros [-> ->]; congruence).
        split; intros ->; tauto.
Qed.

Lemma settlements_same q c c' :
  settled c' = settled c -> settlements q c' = settlements q c.
Proof. unfold settlements. by intros ->. Qed.

Lemma clock_step c e :
  clock (step c e) = match e with
                     | Advance dt => (clock c + dt)%N
                     | _ => clock c
                     end.
Proof.
  destruct e as [id command data post|response|k| |dt]; cbn.
  - unfold sendMessage. cbn. destruct (port c); [|done]. by destruct post.
  - unfold handleNativeResponse. destruct (messageHandlers c !! _); [|done].
    by rewrite handler_settles.
  - unfold onDisconnect. by case_decide.
  - unfold disconnect. by destruct (port c).
  - unfold advance. by destruct (fire_all_frame
      (filter (fun t => isDue (clock c + dt) t) (timers c))
      (set_timers (filter (fun t => negb (isDue (clock c + dt) t)) (timers c))
         (set_clock (clock c + dt)%N c))) as (_ & -> & _).
Qed.

(** Once completed, always completed, with the same single settlement. *)
Lemma step_settled id p s e c :
  ~ reuses id e -> Settled id p s c -> Settled id p s (step c e).
Proof.
  intros Hre [(Hh & Hs & Hu & Hp) Ht].
  destruct e as [id2 command data post|response|k| |dt]; cbn in Hre |- *.
  - assert (Hp2 : promises c ≠ p) by lia.
    unfold sendMessage. cbn. destruct (port c) as [k|].
    + assert (Htimers : forall t id',
        t ∈ enqueue (mkTimer (clock c + NATIVE_MESSAGE_TIMEOUT)
                       (TimeoutCheck id2 (promises c))) (timers c) ->
        callback t = TimeoutCheck id' p -> id' = id).
      { intros t id' Hin E. apply elem_of_enqueue in Hin as [->|Hin].
        - cbn in E. congruence.
        - by apply (Ht t). }
      destruct post as [[]|e]; (split; [unfold Completed|exact Htimers]).
      * cbn. split_and!; [by rewrite lookup_insert_ne|done| |lia].
        intros id' H. apply lookup_insert_Some in H as [[_ H]|[_ H]];
          [done|by apply (Hu id')].
      * rewrite settlements_settle, decide_False by done. cbn.
        split_and!.
        -- apply lookup_delete_None. right. by rewrite lookup_insert_ne.
        -- unfold settlements in *. cbn. by rewrite Hs, app_nil_r.
        -- intros id' H. apply lookup_delete_Some in H as [_ H].
           apply lookup_insert_Some in H as [[_ H]|[_ H]];
             [done|by apply (Hu id')].
        -- lia.
    + split; [unfold Completed|exact Ht].
      rewrite settlements_settle, decide_False by done. cbn.
      split_and!; [done| |done|lia].
      unfold settlements in *. cbn. by rewrite Hs, app_nil_r.
  - unfold handleNativeResponse.
    destruct (messageHandlers c !! NativeResponse.requestId response)
      as [q|] eqn:E; [|done].
    assert (q ≠ p) as Hq by (intros ->; by apply (Hu _ E)).
    rewrite handler_settles. split; [unfold Completed|exact Ht].
    rewrite settlements_settle, decide_False by done. cbn.
    split_and!.
    + apply lookup_delete_None. tauto.
    + unfold settlements in *. cbn. by rewrite Hs, app_nil_r.
    + intros id' H. apply lookup_delete_Some in H as [_ H]. by apply (Hu id').
    + done.
  - unfold onDisconnect. case_decide; [|done]. split; [done|]. cbn.
    intros t id' Hin E. apply elem_of_enqueue in Hin as [->|Hin]; [done|].
    by apply (Ht t).
  - unfold disconnect. by destruct (port c).
  - unfold advance. split.
    + apply fire_all_completed; [|done].
      intros t id' Hin. apply list_elem_of_filter in Hin as [_ Hin].
      by apply Ht.
    + destruct (fire_all_frame
        (filter (fun t => isDue (clock c + dt) t) (timers c))
        (set_timers (filter (fun t => negb (isDue (clock c + dt) t)) (timers c))
           (set_clock (clock c + dt)%N c))) as (-> & _ & _). cbn.
      intros t id' Hin. apply list_elem_of_filter in Hin as [_ Hin].
      by apply Ht.
Qed.

Lemma run_settled id p s events c :
  Forall (fun e => ~ reuses id e) events ->
  Settled id p s c -> Settled id p s (run c events).
Proof.
  intros H. revert c. induction H as [|e events He _ IH]; intros c Hc; [done|].
  cbn. apply IH. by apply step_settled.
Qed.

(** What an event makes of a pending request: its response completes
    it, the clock reaching its deadline completes it, nothing else
    touches it. *)
Lemma step_armed id p d e c :
  ~ reuses id e -> Armed id p d c ->
  match e with
  | OnMessage response =>
      if decide (NativeResponse.requestId response = id)
      then Settled id p (responseSettlement response) (step c e)
      else Armed id p d (step c e)
  | Advance dt =>
      if (d <=? clock c + dt)%N
      then Settled id p timeoutSettlement (step c e)
      else Armed id p d (step c e)
  | _ => Armed id p d (step c e)
  end.
Proof.
  intros Hre ((Hh & Hs & Hu & Hp) & Hpair & Hin & Hclock).
  destruct e as [id2 command data post|response|k| |dt]; cbn in Hre |- *.
  - assert (Hp2 : promises c ≠ p) by lia.
    unfold sendMessage. cbn. destruct (port c) as [k|].
    + assert (Hpair' : Paired id p d
        (enqueue (mkTimer (clock c + NATIVE_MESSAGE_TIMEOUT)
                    (TimeoutCheck id2 (promises c))) (timers c))).
      { intros t id' q Ht E. apply elem_of_enqueue in Ht as [->|Ht].
        - cbn in E. injection E as <- <-. split; [split|]; done.
        - by apply (Hpair t). }
      assert (Hin' : mkTimer d (TimeoutCheck id p)
        ∈ enqueue (mkTimer (clock c + NATIVE_MESSAGE_TIMEOUT)
                     (TimeoutCheck id2 (promises c))) (timers c))
        by (apply elem_of_enqueue; by right).
      destruct post as [[]|e];
        (split; [unfold Pending|split_and!; [exact Hpair'|exact Hin'|exact Hclock]]).
      * cbn. split_and!; [by rewrite lookup_insert_ne|done| |lia].
        intros id' H. apply lookup_insert_Some in H as [[_ H]|[_ H]];
          [done|by apply Hu].
      * rewrite settlements_settle, decide_False by done. cbn.
        split_and!.
        -- rewrite lookup_delete_ne, lookup_insert_ne by done. done.
        -- unfold settlements in *. cbn. by rewrite Hs.
        -- intros id' H. apply lookup_delete_Some in H as [_ H].
           apply lookup_insert_Some in H as [[_ H]|[_ H]]; [done|by apply Hu].
        -- lia.
    + split; [unfold Pending|done].
      rewrite settlements_settle, decide_False by done. cbn.
      split_and!; [done| |done|lia].
      unfold settlements in *. cbn. by rewrite Hs.
  - unfold handleNativeResponse.
    destruct (decide (NativeResponse.requestId response = id)) as [->|Hne].
    + rewrite Hh, handler_settles. split; [unfold Completed|].
      * rewrite settlements_settle, decide_True by done. cbn.
        split_and!.
        -- apply lookup_delete_eq.
        -- unfold settlements in *. cbn. by rewrite Hs.
        -- intros id' H. apply lookup_delete_Some in H as [Hne H].
           by apply Hu in H.
        -- done.
      * cbn. intros t id' Ht E. by apply (Hpair t id' p Ht E).
    + destruct (messageHandlers c !! NativeResponse.requestId response)
        as [q|] eqn:E; [|done].
      assert (q ≠ p) as Hq by (intros ->; by apply Hu in E).
      rewrite handler_settles. split; [unfold Pending|done].
      rewrite settlements_settle, decide_False by done. cbn.
      split_and!.
      * by rewrite lookup_delete_ne.
      * unfold settlements in *. cbn. by rewrite Hs.
      * intros id' H. apply lookup_delete_Some in H as [_ H]. by apply Hu.
      * done.
  - unfold onDisconnect. case_decide; [|done]. split; [done|]. cbn.
    split_and!; [|apply elem_of_enqueue; by right|done].
    intros t id' q Ht E. apply elem_of_enqueue in Ht as [->|Ht]; [done|].
    by apply (Hpair t).
  - unfold disconnect. by destruct (port c).
  - unfold advance.
    set (now := (clock c + dt)%N).
    set (todo := filter (fun t => isDue now t) (timers c)).
    set (later := filter (fun t => negb (isDue now t)) (timers c)).
    set (c0 := set_timers later (set_clock now c)).
    assert (Hc0 : Pending id p c0) by done.
    assert (Htodo : Paired id p d todo).
    { intros t id' q Ht. apply list_elem_of_filter in Ht as [_ Ht].
      by apply Hpair. }
    assert (Hlater : Paired id p d later).
    { intros t id' q Ht. apply list_elem_of_filter in Ht as [_ Ht].
      by apply Hpair. }
    destruct (fire_all_frame todo c0) as (Eti & Ecl & _).
    destruct (d <=? now)%N eqn:Edue.
    + split.
      * apply (fire_all_own id p d); [done| |done].
        exists (mkTimer d (TimeoutCheck id p)). split; [|done].
        apply list_elem_of_filter. split; [|done]. unfold isDue. cbn.
        by rewrite Edue.
      * rewrite Eti. cbn. intros t id' Ht E.
        by apply (Hlater t id' p Ht E).
    + apply N.leb_gt in Edue. split_and!.
      * apply (fire_all_other id p d); [done| |done].
        intros t Ht E. apply list_elem_of_filter in Ht as [Hd Ht].
        destruct (Hpair t id p Ht E) as [_ Hdue].
        unfold isDue in Hd. rewrite (Hdue eq_refl) in Hd.
        apply Is_true_true, N.leb_le in Hd. lia.
      * by rewrite Eti.
      * rewrite Eti. cbn. apply list_elem_of_filter. split; [|done].
        unfold isDue. cbn. apply Is_true_true, negb_true_iff, N.leb_gt. lia.
      * rewrite Ecl. cbn. lia.
Qed.

(** The fate of a pending request over any sequence of events that does
    not use its id again: nothing happens to it until the first of its
    response and its deadline; that one completes it, once and for all. *)
Lemma run_armed id p d events c :
  Forall (fun e => ~ reuses id e) events ->
  Armed id p d c ->
  match firstCompletion id d (clock c) events with
  | Some s => Settled id p s (run c events)
  | None => Armed id p d (run c events)
  end.
Proof.
  intros H. revert c. induction H as [|e events He Hes IH]; intros c Hc; [done|].
  pose proof (step_armed id p d e c He Hc) as Hstep.
  pose proof (clock_step c e) as Hclock.
  cbn [firstCompletion Client.run fold_left].
  destruct e as [id2 command data post|response|k| |dt].
  - rewrite <- Hclock. by apply IH.
  - destruct (decide (NativeResponse.requestId response = id)).
    + by apply run_settled.
    + rewrite <- Hclock. by apply IH.
  - rewrite <- Hclock. by apply IH.
  - rewrite <- Hclock. by apply IH.
  - destruct (d <=? clock c + dt)%N.
    + by apply run_settled.
    + rewrite <- Hclock. by apply IH.
Qed.

(** Promise numbers stay below the next one to be handed out. *)
Lemma fire_bounded ts cb c :
  (forall id p, cb = TimeoutCheck id p -> (p < promises c)%nat) ->
  bounded ts c -> bounded ts (fire cb c).
Proof.
  intros Hcb (Hh & Ht & Hs). destruct cb as [id p|].
  - cbn. destruct (messageHandlers c !! id) eqn:E; [|done].
    specialize (Hcb id p eq_refl). split_and!.
    + cbn. intros id' q H. apply lookup_delete_Some in H as [_ H].
      by apply (Hh id').
    + done.
    + intros q Hq. rewrite settlements_settle, decide_False by (cbn in Hq; lia).
      rewrite app_nil_r. by apply Hs.
  - unfold bounded, settlements. cbn.
    destruct (connect_frame c) as (-> & -> & _ & _ & ->). done.
Qed.

Lemma fire_all_bounded ts todo c :
  (forall t id p, t ∈ todo -> callback t = TimeoutCheck id p -> (p < promises c)%nat) ->
  bounded ts c ->
  bounded ts (fold_left (fun c t => fire (callback t) c) todo c).
Proof.
  revert c. induction todo as [|t todo IH]; intros c Htodo Hc; cbn; [done|].
  apply IH.
  - intros u id p Hu E. destruct (fire_frame (callback t) c) as (_ & _ & ->).
    apply (Htodo u id p); [by right|done].
  - apply fire_bounded; [|done]. intros id p E. apply (Htodo t id p); [by left|done].
Qed.

Lemma step_bounded e c :
  bounded (timers c) c -> bounded (timers (step c e)) (step c e).
Proof.
  intros (Hh & Ht & Hs).
  destruct e as [id command data post|response|k| |dt]; cbn.
  - unfold sendMessage. cbn. destruct (port c) as [k|].
    + assert (Htimers : forall t id' q,
        t ∈ enqueue (mkTimer (clock c + NATIVE_MESSAGE_TIMEOUT)
                       (TimeoutCheck id (promises c))) (timers c) ->
        callback t = TimeoutCheck id' q -> (q < S (promises c))%nat).
      { intros t id' q Hin E. apply elem_of_enqueue in Hin as [->|Hin].
        - cbn in E. injection E as <- <-. lia.
        - pose proof (Ht t id' q Hin E). lia. }
      destruct post as [[]|e]; (split_and!; [|exact Htimers|]).
      * cbn. intros id' q H.
        apply lookup_insert_Some in H as [[_ <-]|[_ H]]; [lia|].
        apply Hh in H. lia.
      * cbn. intros q Hq. apply Hs. lia.
      * cbn. intros id' q H. apply lookup_delete_Some in H as [_ H].
        apply lookup_insert_Some in H as [[_ <-]|[_ H]]; [lia|].
        apply Hh in H. lia.
      * intros q Hq.
        rewrite settlements_settle, decide_False by (cbn in Hq; lia).
        rewrite app_nil_r. apply Hs. cbn in Hq. lia.
    + split_and!.
      * cbn. intros id' q H. apply Hh in H. lia.
      * cbn. intros t id' q Hin E. pose proof (Ht t id' q Hin E). lia.
      * intros q Hq.
        rewrite settlements_settle, decide_False by (cbn in Hq; lia).
        rewrite app_nil_r. apply Hs. cbn in Hq. lia.
  - unfold handleNativeResponse.
    destruct (messageHandlers c !! NativeResponse.requestId response)
      as [q|] eqn:E; [|done].
    rewrite handler_settles. pose proof (Hh _ _ E). split_and!.
    + cbn. intros id' q' H'. apply lookup_delete_Some in H' as [_ H'].
      by apply (Hh id').
    + done.
    + intros q' Hq.
      rewrite settlements_settle, decide_False by (cbn in Hq; lia).
      rewrite app_nil_r. by apply Hs.
  - unfold onDisconnect. case_decide; [|done]. split_and!; cbn; [done| |done].
    intros t id' q Hin E. apply elem_of_enqueue in Hin as [->|Hin]; [done|].
    by apply (Ht t id').
  - unfold disconnect. by destruct (port c).
  - unfold advance.
    set (now := (clock c + dt)%N).
    set (todo := filter (fun t => isDue now t) (timers c)).
    set (later := filter (fun t => negb (isDue now t)) (timers c)).
    set (c0 := set_timers later (set_clock now c)).
    destruct (fire_all_frame todo c0) as (-> & _ & _).
    apply fire_all_bounded.
    + intros t id p Hin. apply list_elem_of_filter in Hin as [_ Hin].
      by apply Ht.
    + split_and!; [done| |done]. cbn.
      intros t id p Hin. apply list_elem_of_filter in Hin as [_ Hin].
      by apply Ht.
Qed.

Lemma reachable_bounded c : reachable connectNative c -> bounded (timers c) c.
Proof.
  intros (now & events & ->).
  assert (H0 : bounded (timers (create connectNative now))
                 (create connectNative now)).
  { unfold create, bounded, settlements.
    destruct (connect_frame (mkState None ∅ now [] [] 0 0 [] []))
      as (-> & -> & -> & _ & ->). cbn.
    split_and!; [|intros t id p Hin; by apply elem_of_nil in Hin|done].
    intros id p H. by rewrite lookup_empty in H. }
  revert H0. generalize (create connectNative now).
  induction events as [|e events IH]; intros c Hc; [done|].
  cbn. apply IH. by apply step_bounded.
Qed.

(** A posted request is pending, with its timeout set. *)
Lemma sendMessage_armed id command data c :
  bounded (timers c) c -> is_Some (port c) -> unused id c ->
  Armed id (promises c) (clock c + NATIVE_MESSAGE_TIMEOUT)
    (sendMessage id command data (Ok tt) c).
Proof.
  intros (Hh & Ht & Hs) [k Hport] Hun. unfold sendMessage. cbn.
  rewrite Hport. split_and!; cbn.
  - split_and!; cbn.
    + apply lookup_insert_eq.
    + by apply Hs.
    + intros id' H. apply lookup_insert_Some in H as [[]|[_ H]]; [done|].
      apply Hh in H. lia.
    + lia.
  - intros t id' q Hin E. apply elem_of_enqueue in Hin as [->|Hin].
    + cbn in E. by injection E as <- <-.
    + pose proof (Ht t id' q Hin E). split; [split|]; intros ->.
      * by destruct (Hun t q Hin).
      * lia.
      * by destruct (Hun t q Hin).
  - apply elem_of_enqueue. by left.
  - unfold NATIVE_MESSAGE_TIMEOUT. lia.
Qed.

(** A request that [postMessage] refused is rejected with what it threw. *)
Lemma sendMessage_refused id command data e c :
  bounded (timers c) c -> is_Some (port c) ->
  Settled id (promises c) (Reject e) (sendMessage id command data (Throw e) c).
Proof.
  intros (Hh & Ht & Hs) [k Hport]. unfold sendMessage. cbn.
  rewrite Hport. split; [unfold Completed|].
  - rewrite settlements_settle, decide_True by done. cbn. split_and!.
    + apply lookup_delete_eq.
    + unfold settlements in *. cbn.
      specialize (Hs (promises c) (le_n _)). unfold settlements in Hs.
      by rewrite Hs.
    + intros id' H. apply lookup_delete_Some in H as [Hne H].
      apply lookup_insert_Some in H as [[]|[_ H]]; [done|].
      apply Hh in H. lia.
    + lia.
  - cbn. intros t id' Hin E. apply elem_of_enqueue in Hin as [->|Hin].
    + cbn in E. by injection E as <-.
    + pose proof (Ht t id' _ Hin E). lia.
Qed.

(** Without a response, only the deadline completes a request. *)
Lemma firstCompletion_unanswered id d now events :
  Forall (fun e => ~ answers id e) events ->
  (now < d)%N ->
  firstCompletion id d now events
  = if (d <=? now + elapsed events)%N then Some timeoutSettlement else None.
Proof.
  intros H. revert now. induction H as [|e events He _ IH]; intros now Hnow.
  - cbn. rewrite N.add_0_r. by apply N.leb_gt in Hnow as ->.
  - destruct e as [id2 command data post|response|k| |dt];
      cbn [firstCompletion elapsed]; try by apply IH.
    + cbn in He. rewrite decide_False by done. by apply IH.
    + destruct (d <=? now + dt)%N eqn:E.
      * apply N.leb_le in E.
        by replace (d <=? now + (dt + elapsed events))%N with true
          by (symmetry; apply N.leb_le; lia).
      * apply N.leb_gt in E. rewrite IH by done. by rewrite N.add_assoc.
Qed.

(** *** The connection *)

Lemma reconnects_enqueue t queue :
  reconnects (enqueue t queue)
  = ((if decide (callback t = Reconnect) then 1 else 0) + reconnects queue)%nat.
Proof.
  unfold reconnects. induction queue as [|u queue IH]; cbn [enqueue].
  - rewrite filter_cons, filter_nil. by destruct (decide _).
  - destruct (due u <=? due t)%N.
    + rewrite !filter_cons. destruct (decide (callback u = Reconnect)); cbn;
        rewrite IH; lia.
    + rewrite (filter_cons _ t). by destruct (decide (callback t = Reconnect)).
Qed.

Lemma reconnects_split now ts :
  (reconnects (filter (fun t => isDue now t) ts)
   + reconnects (filter (fun t => negb (isDue now t)) ts))%nat
  = reconnects ts.
Proof.
  unfold reconnects. induction ts as [|t ts IH]; [done|].
  rewrite !(filter_cons _ t). destruct (isDue now t); cbn.
  - rewrite decide_True, decide_False by (cbn; tauto).
    rewrite (filter_cons _ t). destruct (decide _); cbn; lia.
  - rewrite decide_False, decide_True by (cbn; tauto).
    rewrite (filter_cons _ t). destruct (decide _); cbn; lia.
Qed.

Lemma reconnecting_reconnects c :
  reconnecting c <-> (0 < reconnects (timers c))%nat.
Proof.
  unfold reconnecting, reconnects. split.
  - intros [d Hd].
    assert (mkTimer d Reconnect ∈ filter (fun t => callback t = Reconnect) (timers c))
      as Hin by (by apply list_elem_of_filter).
    destruct (filter _ (timers c)); [by apply elem_of_nil in Hin|cbn; lia].
  - intros H. destruct (filter _ (timers c)) as [|[d cb] l] eqn:E; [cbn in H; lia|].
    assert (mkTimer d cb ∈ filter (fun t => callback t = Reconnect) (timers c))
      as Hin by (rewrite E; by left).
    apply list_elem_of_filter in Hin as [Hcb Hin]. cbn in Hcb. subst cb.
    by exists d.
Qed.

Lemma fire_all_linked todo c :
  linked todo c ->
  linked [] (fold_left (fun c t => fire (callback t) c) todo c).
Proof.
  revert c. induction todo as [|t todo IH]; intros c [Hop Hle]; [done|].
  cbn [fold_left]. apply IH.
  unfold reconnects in Hle. rewrite filter_cons in Hle.
  fold (reconnects todo) in Hle. fold (reconnects (timers c)) in Hle.
  destruct (callback t) as [id p|]; cbn.
  - rewrite decide_False in Hle by done.
    destruct (messageHandlers c !! id); by split.
  - rewrite decide_True in Hle by done. cbn in Hle.
    assert (openPorts c = []) as Hnil by (destruct (openPorts c); [done|cbn in Hle; lia]).
    assert (port c = None) as Hnone
      by (destruct (port c); [by rewrite Hnil in Hop|done]).
    unfold Client.connectToNativeHost.
    rewrite Hnil in Hle. cbn in Hle.
    destruct (connectNative (connects c)); split; cbn;
      rewrite ?Hnil, ?Hnone; cbn; try done; unfold reconnects in *; lia.
Qed.

Lemma step_linked e c : linked [] c -> linked [] (step c e).
Proof.
  intros [Hop Hle]. unfold linked. change (reconnects []) with 0%nat in *.
  destruct e as [id command data post|response|k| |dt]; cbn.
  - unfold sendMessage. cbn. destruct (port c) as [k|] eqn:Hport.
    + destruct post as [[]|e]; (split; cbn; [by rewrite Hport|]);
        rewrite reconnects_enqueue, decide_False by done; cbn; lia.
    + split; cbn; [by rewrite Hport|lia].
  - unfold handleNativeResponse. destruct (messageHandlers c !! _); [|done].
    rewrite handler_settles. by split.
  - unfold onDisconnect. case_decide as Hk; [|done].
    destruct (port c) as [k'|]; rewrite Hop in Hk |- *;
      [|by apply elem_of_nil in Hk].
    apply list_elem_of_singleton in Hk as ->.
    rewrite Hop in Hle. cbn in Hle.
    split; cbn; rewrite decide_False by tauto; [done|].
    rewrite reconnects_enqueue, decide_True by done. cbn. lia.
  - unfold disconnect. destruct (port c) as [k|] eqn:Hport; [|by split; rewrite ?Hport].
    rewrite Hop in Hle |- *. cbn in Hle.
    split; cbn; rewrite decide_False by tauto; [done|].
    cbn. lia.
  - unfold advance. apply fire_all_linked. split; cbn; [done|].
    rewrite reconnects_split. lia.
Qed.

Lemma reachable_linked c : reachable connectNative c -> linked [] c.
Proof.
  intros (now & events & ->).
  assert (H0 : linked [] (create connectNative now)).
  { unfold create, Client.connectToNativeHost. cbn.
    destruct (connectNative 0); (split; cbn; [done|]);
      change (reconnects []) with 0%nat; lia. }
  revert H0. generalize (create connectNative now).
  induction events as [|e events IH]; intros c Hc; [done|].
  cbn. apply IH. by apply step_linked.
Qed.

Lemma fire_all_dormant todo c :
  reconnects todo = 0%nat -> dormant c ->
  let c' := fold_left (fun c t => fire (callback t) c) todo c in
  dormant c' /\ connects c' = connects c.
Proof.
  revert c. induction todo as [|t todo IH]; intros c Hre Hc; [done|].
  cbn [fold_left].
  unfold reconnects in Hre. rewrite filter_cons in Hre.
  destruct (callback t) as [id p|] eqn:Ecb.
  - rewrite decide_False in Hre by done.
    assert (dormant (fire (TimeoutCheck id p) c)
            /\ connects (fire (TimeoutCheck id p) c) = connects c) as [Hd <-].
    { cbn. by destruct (messageHandlers c !! id). }
    by apply IH.
  - rewrite decide_True in Hre by done. cbn in Hre. lia.
Qed.

(** A dormant client stays dormant, and never tries to connect. *)
Lemma step_dormant e c :
  dormant c -> dormant (step c e) /\ connects (step c e) = connects c.
Proof.
  intros (Hport & Hopen & Hre).
  destruct e as [id command data post|response|k| |dt]; cbn.
  - unfold sendMessage. cbn. by rewrite Hport.
  - unfold handleNativeResponse. destruct (messageHandlers c !! _); [|done].
    by rewrite handler_settles.
  - unfold onDisconnect. rewrite Hopen. by rewrite decide_False by apply not_elem_of_nil.
  - unfold disconnect. by rewrite Hport.
  - unfold advance. pose proof (reconnects_split (clock c + dt) (timers c)) as Hs.
    destruct (fire_all_dormant
      (filter (fun t => isDue (clock c + dt) t) (timers c))
      (set_timers (filter (fun t => negb (isDue (clock c + dt) t)) (timers c))
         (set_clock (clock c + dt)%N c))) as [Hd Hc]; [lia| |by split].
    split_and!; [done..|]. cbn. lia.
Qed.

Lemma run_dormant events c :
  dormant c -> dormant (run c events) /\ connects (run c events) = connects c.
Proof.
  revert c. induction events as [|e events IH]; intros c Hc; [done|].
  cbn. destruct (step_dormant e c Hc) as [Hd <-]. by apply IH.
Qed.

(** C7, as the code has it.  [disconnect()] sets no timer and cancels
    none.  Called on a connected client (in any state it can reach) it
    leaves a client that, whatever happens next, stays disconnected,
    never calls [connectToNativeHost] again and never has a reconnect
    timer pending.  A reconnect timer appears only when the
    [onDisconnect] listener of an open port runs, and is then set 5000 ms
    ahead.  (Called while a reconnect timer is pending, [disconnect()]
    does nothing, and that timer still fires.) *)
Theorem disconnect_when_connected (c : State) (events : list Event) :
  reachable connectNative c ->
  is_Some (port c) ->
  timers (disconnect c) = timers c
  /\ port (run (disconnect c) events) = None
  /\ connects (run (disconnect c) events) = connects c
  /\ ~ reconnecting (run (disconnect c) events)
  /\ (forall c0 e,
        ~ reconnecting c0 -> reconnecting (step c0 e) ->
        exists k, e = OnDisconnect k /\ k ∈ openPorts c0
                  /\ mkTimer (clock c0 + 5000) Reconnect ∈ timers (step c0 e)).
Proof.
  intros Hreach [k Hport].
  destruct (reachable_linked c Hreach) as [Hop Hle].
  rewrite Hport in Hop. rewrite Hop in Hle. cbn in Hle.
  assert (Hd : dormant (disconnect c)).
  { unfold disconnect. rewrite Hport, Hop. split_and!; cbn; [done| |lia].
    by rewrite decide_False by tauto. }
  destruct (run_dormant events _ Hd) as [(Hp & _ & Hre) Hco].
  split_and!.
  - unfold disconnect. by rewrite Hport.
  - done.
  - rewrite Hco. unfold disconnect. by rewrite Hport.
  - rewrite reconnecting_reconnects. lia.
  - intros c0 e Hno Hyes. rewrite reconnecting_reconnects in Hno, Hyes.
    destruct e as [id command data post|response|k'| |dt]; cbn in Hyes |- *.
    + exfalso. unfold sendMessage in Hyes. cbn in Hyes.
      destruct (port c0); [|cbn in Hyes; lia].
      destruct post as [[]|e]; cbn in Hyes;
        rewrite reconnects_enqueue, decide_False in Hyes by done;
        cbn in Hyes; lia.
    + exfalso. unfold handleNativeResponse in Hyes.
      destruct (messageHandlers c0 !! _); [|lia].
      rewrite handler_settles in Hyes. cbn in Hyes. lia.
    + exists k'. unfold onDisconnect in *. case_decide; [|lia].
      split_and!; [done..|]. cbn. apply elem_of_enqueue. by left.
    + exfalso. unfold disconnect in Hyes. destruct (port c0); cbn in Hyes; lia.
    + exfalso. unfold advance in Hyes.
      destruct (fire_all_frame
        (filter (fun t => isDue (clock c0 + dt) t) (timers c0))
        (set_timers (filter (fun t => negb (isDue (clock c0 + dt) t)) (timers c0))
           (set_clock (clock c0 + dt)%N c0))) as (E & _ & _).
      rewrite E in Hyes. cbn in Hyes.
      pose proof (reconnects_split (clock c0 + dt) (timers c0)). lia.
Qed.

End Facts.

(** Out-of-order correlation: three requests sent back to back and
    answered in the order third, first, second; each promise gets its own
    result. *)
Example out_of_order_correlation :
  let c := run Samples.alwaysOpens Samples.client
    [ SendMessage "r1" "ping" Undefined (Ok tt)
    ; SendMessage "r2" "ping" Undefined (Ok tt)
    ; SendMessage "r3" "ping" Undefined (Ok tt)
    ; OnMessage (NativeResponse.mk true (Number 3) None "r3")
    ; OnMessage (NativeResponse.mk true (Number 1) None "r1")
    ; OnMessage (NativeResponse.mk false Undefined (Some "no") "r2")
    ; Advance 10000 ] in
  settlements 0 c = [Resolve (Number 1)]
  /\ settlements 1 c = [Reject (Error "no")]
  /\ settlements 2 c = [Resolve (Number 3)]
  /\ messageHandlers c = ∅
  /\ timers c = [].
Proof. cbn zeta. split_and!; by vm_compute. Qed.

(** Why a generated id must not be one whose timeout is still pending.
    A response removes the entry but leaves the timer set for the
    request in the queue.  If the id ["x"] of an answered request is
    generated again within ten seconds, the old timer finds the new entry,
    removes it and rejects the old promise once more (which a settled
    promise ignores); the new request is then never completed. *)
Example stale_timeout_meets_reused_id :
  let c := run Samples.alwaysOpens Samples.client
    [ SendMessage "x" "ping" Undefined (Ok tt)
    ; OnMessage (Samples.answer "x")
    ; Advance 2000
    ; SendMessage "x" "ping" Undefined (Ok tt)
    ; Advance 8000
    ; Advance 2000 ] in
  settlements 0 c = [Resolve (Array []); timeoutSettlement]
  /\ settlements 1 c = []
  /\ messageHandlers c = ∅
  /\ timers c = [].
Proof. cbn zeta. split_and!; by vm_compute. Qed.

(** Against C7 as stated.  The host exits; one second later, before the
    reconnect timer is due, the client calls [disconnect()], which finds
    [this.port] already [null] and does nothing; four seconds later the
    timer fires and the client connects again.  So an automatic reconnect
    attempt is made after an explicit [disconnect()]. *)
Lemma disconnect_keeps_pending_reconnect :
  let c := run Samples.alwaysOpens Samples.client
             [OnDisconnect 0; Advance 1000; Disconnect] in
  port c = None
  /\ connects c = 1%nat
  /\ reconnecting c
  /\ port (run Samples.alwaysOpens c [Advance 4000]) = Some 1%nat
  /\ connects (run Samples.alwaysOpens c [Advance 4000]) = 2%nat.
Proof.
  cbn zeta. split_and!; try by vm_compute.
  exists 5000%N. vm_compute. by left.
Qed.

(** A connected client that disconnects stays disconnected although the
    host goes away afterwards. *)
Lemma disconnect_when_connected_witness :
  port (run Samples.alwaysOpens (disconnect Samples.client) Samples.hostGone)
  = None
  /\ connects (run Samples.alwaysOpens (disconnect Samples.client) Samples.hostGone)
     = connects Samples.client.
Proof.
  destruct (disconnect_when_connected Samples.alwaysOpens Samples.client
              Samples.hostGone) as (_ & H1 & H2 & _).
  - by exists 0%N, [].
  - by exists 0%nat.
  - split; [exact H1|exact H2].
Defined.

End ClientFacts.

(* ===================================================================== *)
(** ** More on the assembler and the frame writer *)
(* ===================================================================== *)

Module FramingMore.
Import Assembler BufFacts AssemblerFacts Host.

Lemma unconsumed_append s data :
  unconsumed (append s data) = unconsumed s ++ data.
Proof.
  unfold unconsumed, append.
  cbn [messageLength messageBuffer expectingLength].
  destruct (expectingLength s); [done|]. by rewrite app_assoc.
Qed.

(** What is left of a frame cut short: the assembler waits, and holds
    exactly the bytes it was given. *)
Lemma drains_cut_frame p k :
  blen p <= 4294967295 ->
  (k < length (frame p))%nat ->
  exists s', drains (append initial (take k (frame p))) [] s'
             /\ unconsumed s' = take k (frame p).
Proof.
  intros Hp Hk. unfold frame in *. rewrite length_app, length_le32 in Hk.
  destruct (decide (k < 4)%nat) as [Hlt|Hge].
  - exists (append initial (take k (le32 (blen p) ++ p))).
    split; [|reflexivity].
    apply drains_wait. unfold turn, readHeader, append, initial.
    cbn [messageLength messageBuffer expectingLength andb app].
    replace (4 <=? blen (take k (le32 (blen p) ++ p))) with false;
      [reflexivity|].
    symmetry. apply Z.leb_gt. unfold blen. rewrite length_take. lia.
  - assert (Etake : take k (le32 (blen p) ++ p)
                    = le32 (blen p) ++ take (k - 4) p).
    { rewrite take_app, length_le32.
      rewrite (take_ge (le32 _)) by (rewrite length_le32; lia). done. }
    rewrite Etake.
    exists (Assembler.mkState (blen p) (take (k - 4) p) false).
    split; [|reflexivity].
    apply drains_wait. unfold turn, readHeader, append, initial.
    cbn [messageLength messageBuffer expectingLength andb app].
    replace (4 <=? blen (le32 (blen p) ++ take (k - 4) p)) with true
      by (symmetry; apply Z.leb_le; unfold blen;
          rewrite length_app, length_le32; lia).
    rewrite read_le32 by (unfold blen in *; lia).
    unfold readPayload, slice_from.
    cbn [messageLength messageBuffer expectingLength andb negb].
    change (Z.to_nat 4) with (length (le32 (blen p))).
    rewrite drop_app_length.
    replace (blen p <=? blen (take (k - 4) p)) with false; [reflexivity|].
    symmetry. apply Z.leb_gt. unfold blen. rewrite length_take. lia.
Qed.

Section Listener.
Context {A : Type} (deliver : Buffer -> A).

(** X1.  The ['data'] listener always returns: whatever the state and
    whatever the bytes, the loop reaches its [break] within the bound on
    turns, [readUInt32LE] is never called on fewer than four bytes, and
    the state left behind holds no complete frame. *)
Theorem listener_always_returns (s : State) (data : Buffer) :
  exists s' out, onData deliver s data = Drained s' out /\ resting s'.
Proof.
  destruct (onData_drains deliver s data) as (raw & s' & Hd & Hon).
  exists s', (map deliver raw). split; [done|]. by eapply drains_resting.
Qed.

(** X2.  The listener loses no byte and invents none, whatever it is
    fed: the bytes it held plus the bytes it was given are the frames of
    the payloads it cut out, in order, followed by the bytes it holds
    afterwards. *)
Theorem listener_keeps_every_byte (s : State) (data : Buffer) :
  sane s ->
  exists raw s',
    onData deliver s data = Drained s' (map deliver raw)
    /\ unconsumed s ++ data = concat (map frame raw) ++ unconsumed s'
    /\ sane s'.
Proof.
  intros Hs.
  destruct (onData_drains deliver s data) as (raw & s' & Hd & Hon).
  exists raw, s'. split; [done|]. rewrite <- unconsumed_append.
  apply (drains_unconsumed _ _ _ Hd). unfold sane, append in *. cbn. done.
Qed.

(** X3.  How a byte stream is cut into chunks never matters, valid
    frames or not: from a state in which the listener rests, feeding the
    chunks one by one ends in the same state and hands over the same
    payloads, in the same order, as feeding all the bytes at once. *)
Theorem chunking_is_irrelevant (s : State) (chunks : list Buffer) :
  resting s ->
  exists s' outs,
    feed deliver s chunks = Drained s' outs
    /\ length outs = length chunks
    /\ onData deliver s (concat chunks) = Drained s' (concat outs).
Proof.
  intros Hs.
  destruct (feed_drains deliver chunks s Hs) as (raws & s' & Hf & Hl & Hd).
  destruct (onData_drains deliver s (concat chunks)) as (raw & s2 & Hd2 & Hon).
  destruct (drains_deterministic _ _ _ _ _ Hd Hd2) as [<- <-].
  exists s', (map (map deliver) raws). split_and!.
  - done.
  - by rewrite length_map.
  - by rewrite Hon, concat_map.
Qed.

(** X4.  Nothing is handed over before a frame is complete: if the bytes
    received so far, however chunked, are a frame with at least its last
    byte missing, the listener has delivered nothing and holds exactly
    those bytes. *)
Theorem incomplete_frame_waits (p : Buffer) (k : nat) (chunks : list Buffer) :
  blen p <= 4294967295 ->
  (k < length (frame p))%nat ->
  concat chunks = take k (frame p) ->
  exists s outs,
    feed deliver initial chunks = Drained s outs
    /\ concat outs = []
    /\ unconsumed s = take k (frame p).
Proof.
  intros Hp Hk Hcat.
  destruct (feed_drains deliver chunks initial eq_refl)
    as (raws & s' & Hf & Hl & Hd).
  rewrite Hcat in Hd.
  destruct (drains_cut_frame p k Hp Hk) as (s2 & Hd2 & Hu).
  destruct (drains_deterministic _ _ _ _ _ Hd Hd2) as [Hraw ->].
  exists s2, (map (map deliver) raws). split_and!; [done| |done].
  by rewrite <- concat_map, Hraw.
Qed.

End Listener.

(** The listener holding a header and half a payload of a sane length. *)
Lemma listener_keeps_every_byte_witness :
  exists raw s',
    onData (receive (JsonRequest := SampleJson.requests))
      (Assembler.mkState 35 (take 10 (drop 4 Samples.stream)) false)
      (drop 14 Samples.stream)
    = Drained s' (map (receive (JsonRequest := SampleJson.requests)) raw)
    /\ unconsumed (Assembler.mkState 35 (take 10 (drop 4 Samples.stream)) false)
       ++ drop 14 Samples.stream
       = concat (map frame raw) ++ unconsumed s'
    /\ sane s'.
Proof.
  apply (listener_keeps_every_byte
           (receive (JsonRequest := SampleJson.requests))
           (Assembler.mkState 35 (take 10 (drop 4 Samples.stream)) false)).
  unfold sane. cbn. lia.
Defined.

(** The garbled sample stream, byte by byte and at once. *)
Lemma chunking_is_irrelevant_witness :
  exists s' outs,
    feed (receive (JsonRequest := SampleJson.requests)) initial
      (map (fun b => [b]) Samples.garbledStream) = Drained s' outs
    /\ length outs = length (map (fun b : byte => [b]) Samples.garbledStream)
    /\ onData (receive (JsonRequest := SampleJson.requests)) initial
         (concat (map (fun b => [b]) Samples.garbledStream))
       = Drained s' (concat outs).
Proof.
  apply (chunking_is_irrelevant
           (receive (JsonRequest := SampleJson.requests)) initial).
  reflexivity.
Defined.

(** The first sample frame without its last byte, in two chunks. *)
Lemma incomplete_frame_waits_witness :
  let p := @JSON_stringify _ SampleJson.requests Samples.ping in
  exists s outs,
    feed (receive (JsonRequest := SampleJson.requests)) initial
      [take 2 (frame p); take 36 (drop 2 (frame p))] = Drained s outs
    /\ concat outs = []
    /\ unconsumed s = take 38 (frame p).
Proof.
  intros p.
  apply (incomplete_frame_waits
           (receive (JsonRequest := SampleJson.requests)) p 38).
  - by vm_compute.
  - vm_compute. lia.
  - by vm_compute.
Defined.

Section Writer.
Context {T : Type} `{JsonT : Json T}.

(** [sendMessage] by cases on the length of the text. *)
Lemma sendMessage_cases (message : T) (out : Buffer) :
  (fits (JSON_stringify message)
   /\ sendMessage message out = (Ok tt, out ++ frame (JSON_stringify message)))
  \/ (~ fits (JSON_stringify message)
      /\ sendMessage message out = (Throw (Error "ERR_OUT_OF_RANGE"), out)).
Proof.
  unfold fits, sendMessage.
  destruct (writeUInt32LE (blen (JSON_stringify message))) as [h|] eqn:E.
  - apply writeUInt32LE_Some in E as [Hr ->]. left. split; [lia|].
    unfold bind, write, frame. by rewrite app_assoc.
  - right. split; [|done]. intros Hfit.
    assert (writeUInt32LE (blen (JSON_stringify message))
            = Some (le32 (blen (JSON_stringify message)))) as E'
      by (apply writeUInt32LE_Some; split; [unfold blen in *; lia|done]).
    congruence.
Qed.

(** X5.  [sendMessage] writes a whole frame or nothing: when the text of
    the message fits the 32-bit length header, exactly its frame is
    appended to [stdout]; when it does not, the call throws before the
    first [write] and [stdout] is left as it was. *)
Theorem sendMessage_all_or_nothing (message : T) (out : Buffer) :
  (fits (JSON_stringify message)
   /\ sendMessage message out = (Ok tt, out ++ frame (JSON_stringify message)))
  \/ (~ fits (JSON_stringify message)
      /\ exists e, sendMessage message out = (Throw e, out)).
Proof.
  destruct (sendMessage_cases message out) as [H|[Hn H]]; [by left|].
  right. split; [done|]. by eexists.
Qed.

End Writer.

End FramingMore.

(* ===================================================================== *)
(** ** More on the dispatcher *)
(* ===================================================================== *)

Module DispatchMore.
Import BufFacts Host Dispatch FramingMore.

Section Responses.
Context `{JsonResponse : Json NativeResponse.t}.

(** X6.  Whatever the sizes involved, [handleMessage] writes at most one
    frame, and never part of one: either it completes and [stdout] has
    grown by exactly the frame of one response carrying the request's own
    [requestId], or its promise is rejected and [stdout] is as it was. *)
Theorem handleMessage_one_frame_or_none
    (this : Env) (message : NativeMessage.t) (out : Buffer) :
  (exists response,
     NativeResponse.requestId response = NativeMessage.requestId message
     /\ handleMessage this message out
        = (Ok tt, out ++ frame (JSON_stringify response)))
  \/ (exists e, handleMessage this message out = (Throw e, out)).
Proof.
  unfold handleMessage, tryCatch, bind. rewrite runCommand_silent.
  assert (Herr : forall text,
    (exists response,
       NativeResponse.requestId response = NativeMessage.requestId message
       /\ sendError text (NativeMessage.requestId message) out
          = (Ok tt, out ++ frame (JSON_stringify response)))
    \/ (exists e, sendError text (NativeMessage.requestId message) out
                  = (Throw e, out))).
  { intros text. unfold sendError.
    destruct (sendMessage_cases
                {| NativeResponse.success := false
                 ; NativeResponse.data := Undefined
                 ; NativeResponse.error := Some text
                 ; NativeResponse.requestId := NativeMessage.requestId message |}
                out) as [[_ E]|[_ E]]; [left|right].
    - eexists. split; [|exact E]. reflexivity.
    - eexists. exact E. }
  destruct (commandOutcome this message) as [result|e].
  - unfold sendResponse.
    destruct (sendMessage_cases
                {| NativeResponse.success := true
                 ; NativeResponse.data := result
                 ; NativeResponse.error := None
                 ; NativeResponse.requestId := NativeMessage.requestId message |}
                out) as [[_ E]|[_ E]]; rewrite E.
    + left. eexists. split; [|reflexivity]. reflexivity.
    + apply Herr.
  - apply Herr.
Qed.

(** X7.  A [browser] value that is truthy but not a string (a number, [true],
    an array, an object) reaches no extractor: calling [toLowerCase] on
    it throws a [TypeError], and the request is answered with the failure
    response carrying that error's message. *)
Theorem non_string_browser_fails
    (this : Env) (message : NativeMessage.t) (out : Buffer) :
  NativeMessage.command message = "extractBookmarks" ->
  truthy (optBrowser (NativeMessage.data message)) = true ->
  (forall name, optBrowser (NativeMessage.data message) ≠ Str name) ->
  fits (JSON_stringify
          (failureResponse "browser.toLowerCase is not a function"
             (NativeMessage.requestId message))) ->
  commandOutcome this message
  = Throw (Error "browser.toLowerCase is not a function")
  /\ handleMessage this message out
     = (Ok tt, out ++ frame (JSON_stringify
          (failureResponse "browser.toLowerCase is not a function"
             (NativeMessage.requestId message)))).
Proof.
  intros Hc Ht Hns Hfit.
  assert (Hout : commandOutcome this message
                 = Throw (Error "browser.toLowerCase is not a function")).
  { rewrite extractBookmarks_outcome by done. unfold Js.or. rewrite Ht.
    destruct (optBrowser (NativeMessage.data message)) eqn:E; try reflexivity.
    by destruct (Hns s). }
  split; [done|].
  pose proof (handleMessage_response this message out) as H.
  rewrite Hout in H. cbn [responseFor] in H. by apply H.
Qed.

(** X8.  A browser name is matched by its lower-case form: a request for
    a name that lower-cases to ["chrome"], ["firefox"] or ["safari"] ends
    exactly as the [extractBookmarks()] of that one extractor ends, its
    result or its failure, whatever the other two would do. *)
Theorem supported_browser_dispatch
    (this : Env) (message : NativeMessage.t) (name : string) :
  NativeMessage.command message = "extractBookmarks" ->
  optBrowser (NativeMessage.data message) = Str name ->
  (toLowerCase name = "chrome" ->
   commandOutcome this message = extractBookmarks (chromeExtractor this))
  /\ (toLowerCase name = "firefox" ->
      commandOutcome this message = extractBookmarks (firefoxExtractor this))
  /\ (toLowerCase name = "safari" ->
      commandOutcome this message = extractBookmarks (safariExtractor this)).
Proof.
  intros Hc Hb.
  assert (Hgo : name ≠ EmptyString ->
    commandOutcome this message = (extractBookmarksFor this (Str name) []).1).
  { intros Hne. rewrite extractBookmarks_outcome by done. rewrite Hb.
    unfold Js.or, truthy. apply String.eqb_neq in Hne. by rewrite Hne. }
  split_and!; intros Hl; (rewrite Hgo by (intros ->; discriminate Hl));
    unfold extractBookmarksFor; rewrite Hl; reflexivity.
Qed.

End Responses.

(** A numbered browser. *)
Lemma non_string_browser_fails_witness :
  commandOutcome Samples.host Samples.extractNumbered
  = Throw (Error "browser.toLowerCase is not a function")
  /\ handleMessage (JsonResponse := SampleJson.responses)
       Samples.host Samples.extractNumbered []
     = (Ok tt, [] ++ frame (@JSON_stringify _ SampleJson.responses
          (failureResponse "browser.toLowerCase is not a function" "req_8"))).
Proof.
  apply (non_string_browser_fails (JsonResponse := SampleJson.responses)
           Samples.host Samples.extractNumbered []).
  - reflexivity.
  - reflexivity.
  - intros name. discriminate.
  - by vm_compute.
Defined.

(** Safari in capitals, on a host whose Chrome profile is missing. *)
Lemma supported_browser_dispatch_witness :
  (toLowerCase "SAFARI" = "chrome" ->
   commandOutcome Samples.hostWithoutChrome Samples.extractSafari
   = extractBookmarks (chromeExtractor Samples.hostWithoutChrome))
  /\ (toLowerCase "SAFARI" = "firefox" ->
      commandOutcome Samples.hostWithoutChrome Samples.extractSafari
      = extractBookmarks (firefoxExtractor Samples.hostWithoutChrome))
  /\ (toLowerCase "SAFARI" = "safari" ->
      commandOutcome Samples.hostWithoutChrome Samples.extractSafari
      = extractBookmarks (safariExtractor Samples.hostWithoutChrome)).
Proof.
  apply (supported_browser_dispatch
           Samples.hostWithoutChrome Samples.extractSafari "SAFARI");
    reflexivity.
Defined.

End DispatchMore.

(* ===================================================================== *)
(** ** More on the client *)
(* ===================================================================== *)

Module ClientMore.
Import Client ClientFacts Wrappers.

Section Facts.
Context (connectNative : nat -> ConnectResult).

Local Abbreviation fire := (fire connectNative).
Local Abbreviation step := (step connectNative).
Local Abbreviation run := (run connectNative).

Lemma reachable_step c e :
  reachable connectNative c -> reachable connectNative (step c e).
Proof.
  intros (now & events & ->). exists now, (events ++ [e]).
  unfold Client.run. by rewrite fold_left_app.
Qed.

Lemma reachable_run c events :
  reachable connectNative c -> reachable connectNative (run c events).
Proof.
  revert c. induction events as [|e events IH]; intros c Hc; [done|].
  cbn. apply IH. by apply reachable_step.
Qed.

Lemma clock_run c events : clock (run c events) = (clock c + elapsed events)%N.
Proof.
  revert c. induction events as [|e events IH]; intros c; cbn [elapsed].
  - cbn. lia.
  - cbn [Client.run fold_left]. fold (run (step c e) events).
    rewrite IH, clock_step. destruct e; lia.
Qed.

(** *** A promise nothing refers to *)

Lemma fire_quiet p cb c :
  (forall id, cb ≠ TimeoutCheck id p) ->
  Quiet p c ->
  Quiet p (fire cb c) /\ settlements p (fire cb c) = settlements p c.
Proof.
  intros Hcb (Hh & Ht & Hp). destruct cb as [id q|].
  - cbn. destruct (messageHandlers c !! id) eqn:E; [|done].
    assert (q ≠ p) by (intros ->; by apply (Hcb id)).
    rewrite settlements_settle, decide_False, app_nil_r by done.
    split; [|done]. split_and!; cbn; [|done..].
    intros id' H'. apply lookup_delete_Some in H' as [_ H']. by apply (Hh id').
  - unfold Quiet, settlements. cbn.
    destruct (connect_frame connectNative c) as (-> & -> & -> & _ & ->). done.
Qed.

Lemma fire_all_quiet p todo c :
  (forall t id, t ∈ todo -> callback t ≠ TimeoutCheck id p) ->
  (forall t id, t ∈ timers c -> callback t ≠ TimeoutCheck id p) ->
  (forall id, messageHandlers c !! id ≠ Some p) ->
  (p < promises c)%nat ->
  let c' := fold_left (fun c t => fire (callback t) c) todo c in
  (forall id, messageHandlers c' !! id ≠ Some p)
  /\ settlements p c' = settlements p c.
Proof.
  revert c. induction todo as [|t todo IH]; intros c Htodo Ht Hh Hp; [done|].
  cbn [fold_left].
  destruct (fire_quiet p (callback t) c) as [(Hh' & Ht' & Hp') <-].
  - intros id. apply Htodo. by left.
  - done.
  - apply IH; [|done..]. intros u id Hu. apply Htodo. by right.
Qed.

Lemma step_quiet p e c :
  Quiet p c -> Quiet p (step c e) /\ settlements p (step c e) = settlements p c.
Proof.
  intros (Hh & Ht & Hp).
  destruct e as [id command data post|response|k| |dt]; cbn.
  - assert (Hp2 : promises c ≠ p) by lia.
    unfold sendMessage. cbn. destruct (port c) as [k|].
    + assert (Htimers : forall t id',
        t ∈ enqueue (mkTimer (clock c + NATIVE_MESSAGE_TIMEOUT)
                       (TimeoutCheck id (promises c))) (timers c) ->
        callback t ≠ TimeoutCheck id' p).
      { intros t id' Hin. apply elem_of_enqueue in Hin as [->|Hin].
        - cbn. congruence.
        - by apply Ht. }
      destruct post as [[]|e].
      * split; [|done]. split_and!; cbn; [|done|lia].
        intros id' H'. apply lookup_insert_Some in H' as [[_ H']|[_ H']];
          [done|by apply (Hh id')].
      * rewrite settlements_settle, decide_False, app_nil_r by done.
        split; [|done]. split_and!; cbn; [|done|lia].
        intros id' H'. apply lookup_delete_Some in H' as [_ H'].
        apply lookup_insert_Some in H' as [[_ H']|[_ H']];
          [done|by apply (Hh id')].
    + rewrite settlements_settle, decide_False, app_nil_r by done.
      split; [|done]. split_and!; cbn; [done..|lia].
  - unfold handleNativeResponse.
    destruct (messageHandlers c !! NativeResponse.requestId response)
      as [q|] eqn:E; [|done].
    assert (q ≠ p) as Hq by (intros ->; by apply (Hh _ E)).
    rewrite handler_settles.
    rewrite settlements_settle, decide_False, app_nil_r by done.
    split; [|done]. split_and!; cbn; [|done..].
    intros id' H'. apply lookup_delete_Some in H' as [_ H']. by apply (Hh id').
  - unfold onDisconnect. case_decide; [|done]. split; [|done].
    split_and!; cbn; [done| |done].
    intros t id' Hin. apply elem_of_enqueue in Hin as [->|Hin]; [done|].
    by apply Ht.
  - unfold disconnect. by destruct (port c).
  - unfold advance.
    set (now := (clock c + dt)%N).
    set (todo := filter (fun t => isDue now t) (timers c)).
    set (later := filter (fun t => negb (isDue now t)) (timers c)).
    set (c0 := set_timers later (set_clock now c)).
    destruct (fire_all_frame connectNative todo c0) as (Eti & _ & Epr).
    destruct (fire_all_quiet p todo c0) as [Hh' Hs'].
    + intros t id Hin. apply list_elem_of_filter in Hin as [_ Hin]. by apply Ht.
    + cbn. intros t id Hin. apply list_elem_of_filter in Hin as [_ Hin].
      by apply Ht.
    + done.
    + done.
    + split; [|exact Hs']. split_and!; [done| |by rewrite Epr].
      rewrite Eti. cbn. intros t id Hin.
      apply list_elem_of_filter in Hin as [_ Hin]. by apply Ht.
Qed.

Lemma run_quiet p events c :
  Quiet p c -> settlements p (run c events) = settlements p c.
Proof.
  revert c. induction events as [|e events IH]; intros c Hc; [done|].
  cbn. destruct (step_quiet p e c Hc) as [Hq <-]. by apply IH.
Qed.

(** [sendMessage] on a client that is not connected. *)
Lemma sendMessage_disconnected id command data post c :
  reachable connectNative c -> port c = None ->
  Quiet (promises c) (sendMessage id command data post c)
  /\ settlements (promises c) (sendMessage id command data post c)
     = [Reject (Error "Native messaging host not connected")].
Proof.
  intros Hreach Hport.
  destruct (reachable_bounded connectNative c Hreach) as (Hh & Ht & Hs).
  unfold sendMessage. cbn. rewrite Hport. split.
  - split_and!; cbn; [| |lia].
    + intros id' H'. apply Hh in H'. lia.
    + intros t id' Hin E. pose proof (Ht t id' _ Hin E). lia.
  - rewrite settlements_settle, decide_True by done.
    rewrite (settlements_same _ c) by done. by rewrite Hs.
Qed.

(** X9.  [sendMessage] on a client that is not connected fails at once
    and leaves no trace: no entry is added to [messageHandlers], no timer
    is set, nothing is posted, and the promise of the call is rejected
    with ['Native messaging host not connected'], once, whatever happens
    to the client afterwards. *)
Theorem sendMessage_when_disconnected
    (c : State) (id command : string) (data : Value) (post : Result unit)
    (events : list Event) :
  reachable connectNative c ->
  port c = None ->
  messageHandlers (sendMessage id command data post c) = messageHandlers c
  /\ timers (sendMessage id command data post c) = timers c
  /\ posted (sendMessage id command data post c) = posted c
  /\ settlements (promises c) (run (sendMessage id command data post c) events)
     = [Reject (Error "Native messaging host not connected")].
Proof.
  intros Hreach Hport.
  destruct (sendMessage_disconnected id command data post c Hreach Hport)
    as [Hq Hs].
  split_and!; try (unfold sendMessage; cbn; by rewrite Hport).
  by rewrite (run_quiet _ events _ Hq).
Qed.

(** X10.  On a client that is not connected the wrappers never fail and
    never wait: [extractBookmarks()] returns [[]],
    [getBookmarkDatabases()] returns [{}] and [ping()] returns [false],
    and later events do not change that. *)
Theorem wrappers_when_disconnected
    (c : State) (id command : string) (data : Value) (post : Result unit)
    (events : list Event) :
  reachable connectNative c ->
  port c = None ->
  returned Wrappers.extractBookmarks (promises c)
    (run (sendMessage id command data post c) events) = Some (Array [])
  /\ returned Wrappers.getBookmarkDatabases (promises c)
       (run (sendMessage id command data post c) events) = Some (Object [])
  /\ returned Wrappers.ping (promises c)
       (run (sendMessage id command data post c) events) = Some (Bool false).
Proof.
  intros Hreach Hport.
  destruct (sendMessage_disconnected id command data post c Hreach Hport)
    as [Hq Hs].
  unfold returned. rewrite (run_quiet _ events _ Hq), Hs. done.
Qed.

(** *** Handlers and their timeouts *)

Lemma step_punctual e c : punctual c -> punctual (step c e).
Proof.
  intros Hp. unfold punctual.
  destruct e as [id command data post|response|k| |dt]; cbn.
  - unfold sendMessage. cbn. destruct (port c); [|done].
    assert (forall t,
      t ∈ enqueue (mkTimer (clock c + NATIVE_MESSAGE_TIMEOUT)
                     (TimeoutCheck id (promises c))) (timers c) ->
      (clock c < due t)%N) as H.
    { intros t Hin. apply elem_of_enqueue in Hin as [->|Hin]; [|by apply Hp].
      cbn. unfold NATIVE_MESSAGE_TIMEOUT. lia. }
    by destruct post.
  - unfold handleNativeResponse. destruct (messageHandlers c !! _); [|done].
    by rewrite handler_settles.
  - unfold onDisconnect. case_decide; [|done]. cbn.
    intros t Hin. apply elem_of_enqueue in Hin as [->|Hin]; [|by apply Hp].
    cbn. unfold RECONNECT_DELAY. lia.
  - unfold disconnect. by destruct (port c).
  - unfold advance.
    destruct (fire_all_frame connectNative
      (filter (fun t => isDue (clock c + dt) t) (timers c))
      (set_timers (filter (fun t => negb (isDue (clock c + dt) t)) (timers c))
         (set_clock (clock c + dt)%N c))) as (-> & -> & _).
    cbn. intros t Hin. apply list_elem_of_filter in Hin as [Hdue _].
    unfold isDue in Hdue. destruct (N.leb_spec (due t) (clock c + dt)); [done|lia].
Qed.

Lemma reachable_punctual c : reachable connectNative c -> punctual c.
Proof.
  intros (now & events & ->).
  assert (H0 : punctual (create connectNative now)).
  { unfold punctual, create, Client.connectToNativeHost. cbn.
    destruct (connectNative 0); cbn; intros t Hin; by apply elem_of_nil in Hin. }
  revert H0. generalize (create connectNative now).
  induction events as [|e events IH]; intros c Hc; [done|].
  cbn. apply IH. by apply step_punctual.
Qed.

(** A timer callback adds no handler, and a timeout check removes the one
    stored under its id. *)
Lemma fire_handlers cb c id p :
  messageHandlers (fire cb c) !! id = Some p ->
  messageHandlers c !! id = Some p
  /\ (forall q, cb ≠ TimeoutCheck id q).
Proof.
  destruct cb as [id' q|]; cbn.
  - destruct (messageHandlers c !! id') eqn:E; cbn.
    + intros H. apply lookup_delete_Some in H as [Hne H]. split; [done|congruence].
    + intros H. split; [done|]. intros q' [= -> _]. congruence.
  - destruct (connect_frame connectNative c) as (-> & _). done.
Qed.

Lemma fire_all_handlers todo c id p :
  messageHandlers (fold_left (fun c t => fire (callback t) c) todo c) !! id = Some p ->
  messageHandlers c !! id = Some p
  /\ (forall t q, t ∈ todo -> callback t ≠ TimeoutCheck id q).
Proof.
  revert c. induction todo as [|t todo IH]; intros c H; cbn in H.
  - split; [done|]. intros t q Hin. by apply elem_of_nil in Hin.
  - apply IH in H as [H Hrest]. apply fire_handlers in H as [H Ht].
    split; [done|]. intros u q Hin. apply elem_of_cons in Hin as [->|Hin].
    + apply Ht.
    + by apply Hrest.
Qed.

Lemma step_guarded D e c :
  (isSend e -> (clock c + NATIVE_MESSAGE_TIMEOUT <= D)%N) ->
  guarded D (timers c) c -> guarded D (timers (step c e)) (step c e).
Proof.
  intros HD Hg. unfold guarded.
  destruct e as [id command data post|response|k| |dt]; cbn.
  - specialize (HD I). unfold sendMessage. cbn. destruct (port c); [|done].
    assert (forall id' p,
      <[id := promises c]> (messageHandlers c) !! id' = Some p ->
      exists t,
        t ∈ enqueue (mkTimer (clock c + NATIVE_MESSAGE_TIMEOUT)
                       (TimeoutCheck id (promises c))) (timers c)
        /\ callback t = TimeoutCheck id' p /\ (due t <= D)%N) as H.
    { intros id' p H. apply lookup_insert_Some in H as [[<- <-]|[_ H]].
      - eexists. split; [apply elem_of_enqueue; by left|]. by split.
      - destruct (Hg _ _ H) as (t & Hin & Hcb & Hdue). exists t.
        split; [apply elem_of_enqueue; by right|]. by split. }
    destruct post as [[]|err]; cbn; [done|].
    intros id' p H'. apply lookup_delete_Some in H' as [_ H']. by apply H.
  - unfold handleNativeResponse.
    destruct (messageHandlers c !! _) eqn:E; [|done].
    rewrite handler_settles. cbn.
    intros id' p H'. apply lookup_delete_Some in H' as [_ H']. by apply Hg.
  - unfold onDisconnect. case_decide; [|done]. cbn.
    intros id' p H'. destruct (Hg _ _ H') as (t & Hin & Hcb & Hdue). exists t.
    split; [apply elem_of_enqueue; by right|]. by split.
  - unfold disconnect. by destruct (port c).
  - unfold advance.
    set (now := (clock c + dt)%N).
    set (todo := filter (fun t => isDue now t) (timers c)).
    set (c0 := set_timers (filter (fun t => negb (isDue now t)) (timers c))
                 (set_clock now c)).
    destruct (fire_all_frame connectNative todo c0) as (-> & _ & _).
    intros id p H. apply fire_all_handlers in H as [H Hnot]. cbn in H.
    destruct (Hg _ _ H) as (t & Hin & Hcb & Hdue). exists t.
    split; [|by split]. cbn. apply list_elem_of_filter. split; [|done].
    destruct (isDue now t) eqn:Edue; [|done].
    exfalso. apply (Hnot t p); [|done].
    apply list_elem_of_filter. by rewrite Edue.
Qed.

Lemma guarded_mono D D' ts c : (D <= D')%N -> guarded D ts c -> guarded D' ts c.
Proof.
  intros HD Hg id p H. destruct (Hg _ _ H) as (t & Hin & Hcb & Hdue).
  exists t. split_and!; [done..|lia].
Qed.

Lemma reachable_guarded c :
  reachable connectNative c ->
  guarded (clock c + NATIVE_MESSAGE_TIMEOUT) (timers c) c.
Proof.
  intros (now & events & ->).
  assert (H0 : guarded (clock (create connectNative now) + NATIVE_MESSAGE_TIMEOUT)
                 (timers (create connectNative now)) (create connectNative now)).
  { unfold guarded, create, Client.connectToNativeHost. cbn.
    destruct (connectNative 0); cbn; intros id p H; by rewrite lookup_empty in H. }
  revert H0. generalize (create connectNative now).
  induction events as [|e events IH]; intros c Hc; [done|].
  cbn. apply IH. apply step_guarded.
  - intros _. rewrite clock_step. destruct e; lia.
  - eapply guarded_mono; [|exact Hc]. rewrite clock_step. destruct e; lia.
Qed.

Lemma run_guarded D events c :
  Forall (fun e => ~ isSend e) events ->
  guarded D (timers c) c ->
  guarded D (timers (run c events)) (run c events).
Proof.
  intros Hev. revert c. induction Hev as [|e events He _ IH]; intros c Hc; [done|].
  cbn. apply IH. by apply step_guarded.
Qed.

(** X11.  Every entry of [messageHandlers] is covered by the timeout of
    the very request that stored it: in any state the client can reach,
    the timer set by that [sendMessage] call is still pending, and it is
    due in the future, at most [NATIVE_MESSAGE_TIMEOUT] ahead. *)
Theorem handler_has_pending_timeout (c : State) (id : string) (p : nat) :
  reachable connectNative c ->
  messageHandlers c !! id = Some p ->
  exists d, mkTimer d (TimeoutCheck id p) ∈ timers c
            /\ (clock c < d <= clock c + NATIVE_MESSAGE_TIMEOUT)%N.
Proof.
  intros Hreach H.
  destruct (reachable_guarded c Hreach _ _ H) as ([d cb] & Hin & Hcb & Hdue).
  cbn in Hcb, Hdue. subst cb. exists d. split; [done|].
  pose proof (reachable_punctual c Hreach _ Hin) as Hlt. cbn in Hlt. lia.
Qed.

(** X12.  [messageHandlers] does not leak: once
    [NATIVE_MESSAGE_TIMEOUT] milliseconds have passed without a new
    [sendMessage] call, the map is empty, whatever responses,
    disconnections and [disconnect()] calls happened meanwhile. *)
Theorem handlers_drain (c : State) (events : list Event) :
  reachable connectNative c ->
  Forall (fun e => ~ isSend e) events ->
  (NATIVE_MESSAGE_TIMEOUT <= elapsed events)%N ->
  messageHandlers (run c events) = ∅.
Proof.
  intros Hreach Hev Hel. apply map_empty. intros id.
  destruct (messageHandlers (run c events) !! id) as [p|] eqn:E; [|done].
  exfalso.
  pose proof (run_guarded _ events c Hev (reachable_guarded c Hreach)) as Hg.
  destruct (Hg _ _ E) as (t & Hin & _ & Hdue).
  pose proof (reachable_punctual _ (reachable_run c events Hreach) _ Hin) as Hlt.
  rewrite clock_run in Hlt. lia.
Qed.

(** *** Reconnecting *)

Lemma reconnects_elem d ts : mkTimer d Reconnect ∈ ts -> (0 < reconnects ts)%nat.
Proof.
  intros Hin. unfold reconnects.
  assert (mkTimer d Reconnect ∈ filter (fun t => callback t = Reconnect) ts)
    as H by (by apply list_elem_of_filter).
  destruct (filter _ ts); [by apply elem_of_nil in H|cbn; lia].
Qed.

(** Timeout checks leave the connection alone. *)
Lemma fire_all_timeouts_frame todo c :
  reconnects todo = 0%nat ->
  let c' := fold_left (fun c t => fire (callback t) c) todo c in
  port c' = port c /\ openPorts c' = openPorts c /\ connects c' = connects c.
Proof.
  revert c. induction todo as [|t todo IH]; intros c Hre; [done|].
  cbn [fold_left].
  unfold reconnects in Hre. rewrite filter_cons in Hre.
  destruct (callback t) as [id p|] eqn:Ecb.
  - rewrite decide_False in Hre by done.
    destruct (IH (fire (TimeoutCheck id p) c) Hre) as (-> & -> & ->).
    cbn. by destruct (messageHandlers c !! id).
  - rewrite decide_True in Hre by done. cbn in Hre. lia.
Qed.

(** A batch of due timers with the reconnect timer among them. *)
Lemma fire_all_reconnect n todo c :
  reconnects todo = 1%nat ->
  port c = None -> openPorts c = [] -> connects c = n ->
  let c' := fold_left (fun c t => fire (callback t) c) todo c in
  connects c' = S n
  /\ match connectNative n with
     | Opened => port c' = Some n /\ openPorts c' = [n]
     | _ => port c' = None /\ openPorts c' = []
     end.
Proof.
  revert c. induction todo as [|t todo IH]; intros c Hre Hport Hopen Hn.
  - unfold reconnects in Hre. cbn in Hre. lia.
  - cbn [fold_left].
    unfold reconnects in Hre. rewrite filter_cons in Hre.
    destruct (callback t) as [id p|] eqn:Ecb.
    + rewrite decide_False in Hre by done.
      apply IH; [done|..]; cbn; by destruct (messageHandlers c !! id).
    + rewrite decide_True in Hre by done. cbn in Hre.
      assert (reconnects todo = 0%nat) as Hre0 by (unfold reconnects; lia).
      destruct (fire_all_timeouts_frame todo (fire Reconnect c) Hre0)
        as (-> & -> & ->).
      cbn. unfold Client.connectToNativeHost. rewrite Hn.
      destruct (connectNative n); cbn; by rewrite ?Hport, ?Hopen, ?Hn.
Qed.

(** While the reconnect timer is pending nothing but the clock reaching
    its due time changes the connection. *)
Lemma step_waiting n d e c :
  Waiting n d c ->
  if (d <=? clock (step c e))%N
  then Reconnected connectNative n (step c e)
  else Waiting n d (step c e).
Proof.
  intros (Hport & Hopen & Hn & Hre & Hin & Hlt).
  rewrite clock_step.
  destruct e as [id command data post|response|k| |dt].
  1-4: destruct (N.leb_spec d (clock c)) as [?|_]; [lia|]; cbn.
  - unfold sendMessage. cbn. by rewrite Hport.
  - unfold handleNativeResponse. destruct (messageHandlers c !! _); [|done].
    by rewrite handler_settles.
  - unfold onDisconnect. rewrite Hopen.
    by rewrite decide_False by apply not_elem_of_nil.
  - unfold disconnect. by rewrite Hport.
  - cbn. unfold advance.
    set (now := (clock c + dt)%N).
    set (todo := filter (fun t => isDue now t) (timers c)).
    set (later := filter (fun t => negb (isDue now t)) (timers c)).
    set (c0 := set_timers later (set_clock now c)).
    pose proof (reconnects_split now (timers c)) as Hsplit.
    fold todo later in Hsplit.
    destruct (fire_all_frame connectNative todo c0) as (Eti & Ecl & _).
    destruct (N.leb_spec d now) as [Hdue|Hnot].
    + assert (mkTimer d Reconnect ∈ todo) as Hin'.
      { apply list_elem_of_filter. split; [|done].
        unfold isDue. cbn. by apply Is_true_true, N.leb_le. }
      apply reconnects_elem in Hin'.
      destruct (fire_all_reconnect n todo c0) as [Hc Hm]; [lia|done..|].
      split_and!; [done| |done]. rewrite Eti. cbn. lia.
    + assert (mkTimer d Reconnect ∈ later) as Hin'.
      { apply list_elem_of_filter. split; [|done].
        unfold isDue. cbn. apply Is_true_true, negb_true_iff, N.leb_gt. lia. }
      pose proof (reconnects_elem _ _ Hin') as Hpos.
      destruct (fire_all_timeouts_frame todo c0) as (Ep & Eo & Ec); [lia|].
      split_and!.
      * by rewrite Ep.
      * by rewrite Eo.
      * by rewrite Ec.
      * rewrite Eti. cbn. lia.
      * by rewrite Eti.
      * by rewrite Ecl.
Qed.

Lemma run_waiting n d events c :
  Waiting n d c -> (clock c + elapsed events < d)%N ->
  Waiting n d (run c events).
Proof.
  revert c. induction events as [|e events IH]; intros c Hw Hlt; [done|].
  cbn [Client.run fold_left]. fold (run (step c e) events).
  pose proof (step_waiting n d e c Hw) as Hs. rewrite clock_step in Hs.
  assert ((clock (step c e) + elapsed events < d)%N) as Hlt'.
  { rewrite clock_step. cbn [elapsed] in Hlt. destruct e; lia. }
  apply IH; [|done].
  destruct (N.leb_spec d (match e with
                          | Advance dt => (clock c + dt)%N
                          | _ => clock c
                          end)) as [Hge|_]; [|done].
  rewrite clock_step in Hlt'. lia.
Qed.

(** The [onDisconnect] listener of the port in use. *)
Lemma onDisconnect_waiting k c :
  reachable connectNative c -> port c = Some k ->
  Waiting (connects c) (clock c + RECONNECT_DELAY) (onDisconnect k c).
Proof.
  intros Hreach Hport.
  destruct (reachable_linked connectNative c Hreach) as [Hop Hle].
  rewrite Hport in Hop. rewrite Hop in Hle. cbn in Hle.
  unfold onDisconnect. rewrite Hop.
  rewrite decide_True by (by apply list_elem_of_singleton).
  split_and!; cbn.
  - done.
  - by rewrite decide_False by tauto.
  - done.
  - rewrite reconnects_enqueue, decide_True by done. unfold reconnects in *. lia.
  - apply elem_of_enqueue. by left.
  - unfold RECONNECT_DELAY. lia.
Qed.

(** X13.  When the host closes the port in use, the client is without a
    port for the next 5000 ms and makes no attempt to connect in that
    time; the first passage of time that reaches 5000 ms makes exactly
    one call of [connectToNativeHost], and the client then holds the new
    port if that call returned one. *)
Theorem reconnect_after_five_seconds
    (c : State) (k : nat) (events : list Event) (dt : N) :
  reachable connectNative c ->
  port c = Some k ->
  (elapsed events < RECONNECT_DELAY)%N ->
  (RECONNECT_DELAY <= elapsed events + dt)%N ->
  let c1 := run (onDisconnect k c) events in
  let c2 := advance connectNative dt c1 in
  port c1 = None /\ connects c1 = connects c
  /\ connects c2 = S (connects c)
  /\ port c2 = match connectNative (connects c) with
               | Opened => Some (connects c)
               | _ => None
               end.
Proof.
  intros Hreach Hport Hlt Hge c1 c2.
  pose proof (onDisconnect_waiting k c Hreach Hport) as Hw.
  assert (clock (onDisconnect k c) = clock c) as Hcl
    by apply (clock_step connectNative c (OnDisconnect k)).
  apply (run_waiting _ _ events) in Hw; [|rewrite Hcl; lia].
  fold c1 in Hw.
  pose proof (step_waiting _ _ (Advance dt) c1 Hw) as Hs.
  rewrite clock_step in Hs. unfold c1 in Hs at 1. rewrite clock_run, Hcl in Hs.
  destruct (N.leb_spec (clock c + RECONNECT_DELAY) (clock c + elapsed events + dt))
    as [_|?]; [|lia].
  destruct Hw as (Hp1 & _ & Hn1 & _).
  destruct Hs as (Hc2 & _ & Hm). fold c2 in Hc2, Hm.
  split_and!; [done..|].
  destruct (connectNative (connects c)); by destruct Hm.
Qed.

Lemma waiting_failure_is_final n d events c :
  connectNative n ≠ Opened ->
  Waiting n d c ->
  port (run c events) = None
  /\ connects (run c events)
     = if (d <=? clock c + elapsed events)%N then S n else n.
Proof.
  intros Hfail. revert c.
  induction events as [|e events IH]; intros c Hw.
  - cbn. destruct Hw as (Hp & _ & Hn & _ & _ & Hlt).
    destruct (N.leb_spec d (clock c + 0)) as [?|_]; [lia|done].
  - cbn [Client.run fold_left]. fold (run (step c e) events).
    pose proof (step_waiting n d e c Hw) as Hs.
    assert ((clock c + elapsed (e :: events))%N
            = (clock (step c e) + elapsed events)%N) as ->
      by (rewrite clock_step; cbn [elapsed]; destruct e; lia).
    destruct (N.leb_spec d (clock (step c e))) as [Hge|Hlt].
    + destruct Hs as (Hc & Hre & Hm).
      assert (dormant (step c e)) as Hd.
      { destruct (connectNative n); [by destruct Hm|done|by destruct Hm]. }
      destruct (run_dormant connectNative events _ Hd) as [(Hp & _) Hco].
      split; [done|]. rewrite Hco, Hc.
      destruct (N.leb_spec d (clock (step c e) + elapsed events)); [done|lia].
    + by apply IH.
Qed.

(** X14.  A reconnect that fails is never retried: if the call of
    [connectToNativeHost] made by the reconnect timer gets no port
    ([connectNative] missing or throwing), the client stays without a
    port for good and that call is the last one, whatever happens
    afterwards. *)
Theorem failed_reconnect_is_final
    (c : State) (k : nat) (events : list Event) :
  reachable connectNative c ->
  port c = Some k ->
  connectNative (connects c) ≠ Opened ->
  port (run (onDisconnect k c) events) = None
  /\ connects (run (onDisconnect k c) events)
     = if (RECONNECT_DELAY <=? elapsed events)%N
       then S (connects c) else connects c.
Proof.
  intros Hreach Hport Hfail.
  pose proof (onDisconnect_waiting k c Hreach Hport) as Hw.
  assert (clock (onDisconnect k c) = clock c) as Hcl
    by apply (clock_step connectNative c (OnDisconnect k)).
  destruct (waiting_failure_is_final _ _ events _ Hfail Hw) as [Hp Hc].
  split; [done|]. rewrite Hc, Hcl.
  destruct (N.leb_spec (clock c + RECONNECT_DELAY) (clock c + elapsed events)),
           (N.leb_spec RECONNECT_DELAY (elapsed events)); (done || lia).
Qed.

(** X24.  One connection at a time.  In every state the client can
    reach, the only port whose listeners can still run is the one in
    [this.port]; at most one reconnect timer is pending; and none is
    pending while the client holds a port. *)
Theorem one_connection_at_a_time (c : State) :
  reachable connectNative c ->
  openPorts c = match port c with Some k => [k] | None => [] end
  /\ (reconnects (timers c) <= 1)%nat
  /\ (is_Some (port c) -> ~ reconnecting c).
Proof.
  intros Hreach.
  destruct (reachable_linked connectNative c Hreach) as [Hop Hle].
  change (reconnects []) with 0%nat in Hle.
  split_and!; [done|lia|].
  intros [k Hk]. rewrite reconnecting_reconnects.
  rewrite Hop, Hk in Hle. cbn in Hle. lia.
Qed.

End Facts.

Lemma one_connection_at_a_time_witness :
  let c := run Samples.alwaysOpens Samples.client Samples.hostGone in
  openPorts c = [1%nat] /\ (reconnects (timers c) <= 1)%nat
  /\ (is_Some (port c) -> ~ reconnecting c).
Proof.
  apply (one_connection_at_a_time Samples.alwaysOpens).
  by exists 0%N, Samples.hostGone.
Defined.

Lemma sendMessage_when_disconnected_witness :
  settlements (promises Samples.disconnected)
    (run Samples.alwaysOpens
       (sendMessage "req_1" "ping" Undefined (Ok tt) Samples.disconnected)
       Samples.unanswered)
  = [Reject (Error "Native messaging host not connected")].
Proof.
  destruct (sendMessage_when_disconnected Samples.alwaysOpens
              Samples.disconnected "req_1" "ping" Undefined (Ok tt)
              Samples.unanswered) as (_ & _ & _ & H).
  - by exists 0%N, [Disconnect].
  - reflexivity.
  - exact H.
Defined.

Lemma wrappers_when_disconnected_witness :
  returned Wrappers.ping (promises Samples.disconnected)
    (run Samples.alwaysOpens
       (sendMessage "req_1" "ping" Undefined (Ok tt) Samples.disconnected)
       Samples.unanswered)
  = Some (Bool false).
Proof.
  destruct (wrappers_when_disconnected Samples.alwaysOpens
              Samples.disconnected "req_1" "ping" Undefined (Ok tt)
              Samples.unanswered) as (_ & _ & H).
  - by exists 0%N, [Disconnect].
  - reflexivity.
  - exact H.
Defined.

Lemma handler_has_pending_timeout_witness :
  let c := run Samples.alwaysOpens Samples.client
             [ SendMessage "req_1" "ping" Undefined (Ok tt); Advance 4000 ] in
  exists d, mkTimer d (TimeoutCheck "req_1" 0) ∈ timers c
            /\ (clock c < d <= clock c + NATIVE_MESSAGE_TIMEOUT)%N.
Proof.
  apply (handler_has_pending_timeout Samples.alwaysOpens).
  - by exists 0%N, [ SendMessage "req_1" "ping" Undefined (Ok tt); Advance 4000 ].
  - reflexivity.
Defined.

Lemma handlers_drain_witness :
  messageHandlers
    (run Samples.alwaysOpens
       (run Samples.alwaysOpens Samples.client
          [ SendMessage "req_1" "ping" Undefined (Ok tt)
          ; SendMessage "req_2" "ping" Undefined (Ok tt) ])
       Samples.busy)
  = ∅.
Proof.
  apply (handlers_drain Samples.alwaysOpens).
  - by exists 0%N, [ SendMessage "req_1" "ping" Undefined (Ok tt)
                  ; SendMessage "req_2" "ping" Undefined (Ok tt) ].
  - repeat (constructor; [cbn; tauto|]). constructor.
  - by vm_compute.
Defined.

Lemma reconnect_after_five_seconds_witness :
  let c1 := run Samples.alwaysOpens (onDisconnect 0 Samples.client)
              [ Advance 3000; SendMessage "req_1" "ping" Undefined (Ok tt) ] in
  let c2 := advance Samples.alwaysOpens 2000 c1 in
  port c1 = None /\ connects c1 = 1%nat
  /\ connects c2 = 2%nat /\ port c2 = Some 1%nat.
Proof.
  apply (reconnect_after_five_seconds Samples.alwaysOpens Samples.client 0
           [ Advance 3000; SendMessage "req_1" "ping" Undefined (Ok tt) ] 2000).
  - by exists 0%N, [].
  - reflexivity.
  - by vm_compute.
  - by vm_compute.
Defined.

Lemma failed_reconnect_is_final_witness :
  let c := Client.create Samples.opensOnce 0 in
  port (run Samples.opensOnce (onDisconnect 0 c) Samples.busy) = None
  /\ connects (run Samples.opensOnce (onDisconnect 0 c) Samples.busy) = 2%nat.
Proof.
  apply (failed_reconnect_is_final Samples.opensOnce
           (Client.create Samples.opensOnce 0) 0 Samples.busy).
  - by exists 0%N, [].
  - reflexivity.
  - discriminate.
Defined.

End ClientMore.

(* ===================================================================== *)
(** ** The request correlator: completion and timeout *)
(* ===================================================================== *)

Module Correlation.
Import Client ClientFacts Wrappers ClientMore.

Section Facts.
Context (connectNative : nat -> ConnectResult).

Local Abbreviation fire := (fire connectNative).
Local Abbreviation step := (step connectNative).
Local Abbreviation run := (run connectNative).

Lemma run_app c events later :
  run c (events ++ later) = run (run c events) later.
Proof. unfold Client.run. apply fold_left_app. Qed.

(** *** Calls of [resolve] and [reject] are never taken back *)

Lemma fire_settled_grows cb c :
  exists extra, settled (fire cb c) = settled c ++ extra.
Proof.
  destruct cb as [id p|]; cbn.
  - destruct (messageHandlers c !! id); cbn; [by eexists|].
    exists []. by rewrite app_nil_r.
  - destruct (connect_frame connectNative c) as (_ & -> & _).
    exists []. by rewrite app_nil_r.
Qed.

Lemma fire_all_settled_grows todo c :
  exists extra,
    settled (fold_left (fun c t => fire (callback t) c) todo c)
    = settled c ++ extra.
Proof.
  revert c. induction todo as [|t todo IH]; intros c; cbn [fold_left].
  - exists []. by rewrite app_nil_r.
  - destruct (IH (fire (callback t) c)) as [later ->].
    destruct (fire_settled_grows (callback t) c) as [first ->].
    exists (first ++ later). by rewrite app_assoc.
Qed.

Lemma step_settled_grows e c :
  exists extra, settled (step c e) = settled c ++ extra.
Proof.
  destruct e as [id command data post|response|k| |dt]; cbn.
  - unfold sendMessage. cbn. destruct (port c); cbn; [|by eexists].
    destruct post as [[]|err]; cbn; [|by eexists].
    exists []. by rewrite app_nil_r.
  - unfold handleNativeResponse.
    destruct (messageHandlers c !! _); [|exists []; by rewrite app_nil_r].
    rewrite handler_settles. cbn. by eexists.
  - unfold onDisconnect. case_decide; cbn; exists []; by rewrite app_nil_r.
  - unfold disconnect. destruct (port c); cbn; exists []; by rewrite app_nil_r.
  - unfold advance.
    exact (fire_all_settled_grows
      (filter (fun t => isDue (clock c + dt) t) (timers c))
      (set_timers (filter (fun t => negb (isDue (clock c + dt) t)) (timers c))
         (set_clock (clock c + dt)%N c))).
Qed.

Lemma run_settled_grows events c :
  exists extra, settled (run c events) = settled c ++ extra.
Proof.
  revert c. induction events as [|e events IH]; intros c.
  - exists []. by rewrite app_nil_r.
  - cbn [Client.run fold_left]. fold (run (step c e) events).
    destruct (IH (step c e)) as [later ->].
    destruct (step_settled_grows e c) as [first ->].
    exists (first ++ later). by rewrite app_assoc.
Qed.

(** The call that settled a promise stays the first one on it. *)
Lemma first_settlement_stays p s events c :
  settlements p c = [s] ->
  exists rest, settlements p (run c events) = s :: rest.
Proof.
  intros Hs. destruct (run_settled_grows events c) as [extra Hx].
  unfold settlements in *. rewrite Hx, filter_app, fmap_app, Hs.
  by eexists.
Qed.

(** *** The timer of a promise *)

(** Timers that call on promise [p] are set by the [sendMessage] call
    that made [p] only: whatever happens later adds none. *)
Lemma step_own_timers p d e c :
  (p < promises c)%nat ->
  (forall t id, t ∈ timers c -> callback t = TimeoutCheck id p -> due t = d) ->
  (p < promises (step c e))%nat
  /\ (forall t id, t ∈ timers (step c e) ->
        callback t = TimeoutCheck id p -> due t = d).
Proof.
  intros Hp Hown.
  destruct e as [id command data post|response|k| |dt]; cbn.
  - unfold sendMessage. cbn. destruct (port c); [|cbn; split; [lia|done]].
    assert (forall t id',
      t ∈ enqueue (mkTimer (clock c + NATIVE_MESSAGE_TIMEOUT)
                     (TimeoutCheck id (promises c))) (timers c) ->
      callback t = TimeoutCheck id' p -> due t = d) as H.
    { intros t id' Hin E. apply elem_of_enqueue in Hin as [->|Hin].
      - cbn in E. injection E as _ E. lia.
      - by apply (Hown t id'). }
    destruct post as [[]|err]; cbn; (split; [lia|done]).
  - unfold handleNativeResponse. destruct (messageHandlers c !! _); [|done].
    by rewrite handler_settles.
  - unfold onDisconnect. case_decide; [|done]. cbn. split; [done|].
    intros t id' Hin E. apply elem_of_enqueue in Hin as [->|Hin]; [done|].
    by apply (Hown t id').
  - unfold disconnect. by destruct (port c).
  - unfold advance.
    destruct (fire_all_frame connectNative
      (filter (fun t => isDue (clock c + dt) t) (timers c))
      (set_timers (filter (fun t => negb (isDue (clock c + dt) t)) (timers c))
         (set_clock (clock c + dt)%N c))) as (-> & _ & ->).
    cbn. split; [done|]. intros t id' Hin E.
    apply list_elem_of_filter in Hin as [_ Hin]. by apply (Hown t id').
Qed.

Lemma run_own_timers p d events c :
  (p < promises c)%nat ->
  (forall t id, t ∈ timers c -> callback t = TimeoutCheck id p -> due t = d) ->
  forall t id, t ∈ timers (run c events) ->
    callback t = TimeoutCheck id p -> due t = d.
Proof.
  revert c. induction events as [|e events IH]; intros c Hp Hown; [done|].
  cbn [Client.run fold_left]. fold (run (step c e) events).
  destruct (step_own_timers p d e c Hp Hown) as [Hp' Hown']. by apply IH.
Qed.

(** The one timer that calls on the promise of a request just made. *)
Lemma sendMessage_own_timer id command data c :
  reachable connectNative c -> is_Some (port c) ->
  let c1 := sendMessage id command data (Ok tt) c in
  (promises c < promises c1)%nat
  /\ (forall t id', t ∈ timers c1 ->
        callback t = TimeoutCheck id' (promises c) ->
        due t = (clock c + NATIVE_MESSAGE_TIMEOUT)%N).
Proof.
  intros Hreach [k Hport].
  destruct (reachable_bounded connectNative c Hreach) as (_ & Ht & _).
  unfold sendMessage. cbn. rewrite Hport. cbn. split; [lia|].
  intros t id' Hin E. apply elem_of_enqueue in Hin as [->|Hin]; [done|].
  pose proof (Ht t id' _ Hin E). lia.
Qed.

(** C2, as the code has it.  Exactly-once completion and idempotent
    drop.  Let a connected client, in any state it can reach, make a
    request whose generated id is not that of a timeout timer still
    pending (the class never clears a timer), and let [postMessage]
    accept it.  Over any events among which the id is not generated
    again, the calls of [resolve] / [reject] on the promise of the request
    are: none, and the entry is in [messageHandlers], until the first of
    its response arriving and the clock reaching its deadline; from then
    on exactly the one call that event made, and no entry.  Once the
    request is completed that call stays the first one on its promise
    whatever happens later, the id being generated again included (a
    settled promise ignores further calls).  (Had [postMessage] thrown,
    the promise would have been rejected once, with what was thrown.)
    And in every state, a response whose [requestId] has no entry in
    [messageHandlers] changes nothing at all. *)
Theorem exactly_once_completion
    (c : State) (id command : string) (data : Value)
    (events later : list Event) :
  reachable connectNative c ->
  is_Some (port c) ->
  unused id c ->
  Forall (fun e => ~ reuses id e) events ->
  settlements (promises c) (run (sendMessage id command data (Ok tt) c) events)
  = match firstCompletion id (clock c + NATIVE_MESSAGE_TIMEOUT) (clock c) events with
    | Some s => [s]
    | None => []
    end
  /\ messageHandlers (run (sendMessage id command data (Ok tt) c) events) !! id
     = match firstCompletion id (clock c + NATIVE_MESSAGE_TIMEOUT) (clock c) events with
       | Some _ => None
       | None => Some (promises c)
       end
  /\ (forall s,
        firstCompletion id (clock c + NATIVE_MESSAGE_TIMEOUT) (clock c) events
        = Some s ->
        exists rest,
          settlements (promises c)
            (run (sendMessage id command data (Ok tt) c) (events ++ later))
          = s :: rest)
  /\ (forall e,
        settlements (promises c)
          (run (sendMessage id command data (Throw e) c) events)
        = [Reject e])
  /\ (forall c0 response,
        messageHandlers c0 !! NativeResponse.requestId response = None ->
        step c0 (OnMessage response) = c0).
Proof.
  intros Hreach Hport Hun Hev.
  pose proof (reachable_bounded connectNative c Hreach) as Hb.
  pose proof (sendMessage_armed id command data c Hb Hport Hun)
    as Harmed.
  pose proof (run_armed connectNative _ _ _ events _ Hev Harmed) as Hrun.
  assert (Hclock : clock (sendMessage id command data (Ok tt) c) = clock c).
  { unfold sendMessage. cbn. by destruct Hport as [k ->]. }
  rewrite Hclock in Hrun.
  split_and!.
  - destruct (firstCompletion _ _ _ _).
    + by destruct Hrun as [(_ & Hs & _) _].
    + by destruct Hrun as [(_ & Hs & _) _].
  - destruct (firstCompletion _ _ _ _).
    + by destruct Hrun as [(Hh & _) _].
    + by destruct Hrun as [(Hh & _) _].
  - intros s Hs. rewrite Hs in Hrun. destruct Hrun as [(_ & Hone & _) _].
    rewrite run_app. by apply first_settlement_stays.
  - intros e.
    pose proof (sendMessage_refused id command data e c Hb Hport)
      as Hs.
    by destruct (run_settled connectNative _ _ _ events _ Hev Hs)
      as [(_ & ? & _) _].
  - intros c0 response H. cbn. unfold handleNativeResponse. by rewrite H.
Qed.

(** C8, as the code has it.  Timeout.  Let a connected client, in any
    state it can reach, make a request whose generated id is not that of
    a timeout timer still pending, and let no response to it be delivered
    nor its id be generated again during [events].  With
    [NATIVE_MESSAGE_TIMEOUT] = 10000 ms: as long as less time than that
    has passed the request is pending and its promise untouched; once
    that time has passed its entry is gone from [messageHandlers] and its
    promise has been rejected, once, with ['Native messaging timeout'],
    and nothing that happens later calls on that promise again.  The
    timeout callback of the request calls on no other promise and removes
    no other entry. *)
Theorem timeout_rejects_caller
    (c : State) (id command : string) (data : Value)
    (events later : list Event) :
  reachable connectNative c ->
  is_Some (port c) ->
  unused id c ->
  Forall (fun e => ~ reuses id e) events ->
  Forall (fun e => ~ answers id e) events ->
  NATIVE_MESSAGE_TIMEOUT = 10000%N
  /\ settlements (promises c) (run (sendMessage id command data (Ok tt) c) events)
     = (if (NATIVE_MESSAGE_TIMEOUT <=? elapsed events)%N
        then [timeoutSettlement] else [])
  /\ messageHandlers (run (sendMessage id command data (Ok tt) c) events) !! id
     = (if (NATIVE_MESSAGE_TIMEOUT <=? elapsed events)%N
        then None else Some (promises c))
  /\ ((NATIVE_MESSAGE_TIMEOUT <= elapsed events)%N ->
      settlements (promises c)
        (run (sendMessage id command data (Ok tt) c) (events ++ later))
      = [timeoutSettlement])
  /\ (forall c0 q, q ≠ promises c ->
        settlements q (fire (TimeoutCheck id (promises c)) c0)
        = settlements q c0)
  /\ (forall c0 id', id' ≠ id ->
        messageHandlers (fire (TimeoutCheck id (promises c)) c0) !! id'
        = messageHandlers c0 !! id').
Proof.
  intros Hreach Hport Hun Hev Hans.
  pose proof (reachable_bounded connectNative c Hreach) as Hb.
  pose proof (sendMessage_armed id command data c Hb Hport Hun)
    as Harmed.
  pose proof (run_armed connectNative _ _ _ events _ Hev Harmed) as Hrun.
  assert (Hclock : clock (sendMessage id command data (Ok tt) c) = clock c).
  { unfold sendMessage. cbn. by destruct Hport as [k ->]. }
  rewrite Hclock in Hrun.
  rewrite (firstCompletion_unanswered id _ _ events Hans) in Hrun
    by (unfold NATIVE_MESSAGE_TIMEOUT; lia).
  replace (clock c + NATIVE_MESSAGE_TIMEOUT <=? clock c + elapsed events)%N
    with (NATIVE_MESSAGE_TIMEOUT <=? elapsed events)%N in Hrun.
  2:{ destruct (NATIVE_MESSAGE_TIMEOUT <=? elapsed events)%N eqn:E; symmetry.
      - apply N.leb_le in E. apply N.leb_le. lia.
      - apply N.leb_gt in E. apply N.leb_gt. lia. }
  split_and!.
  - reflexivity.
  - destruct (NATIVE_MESSAGE_TIMEOUT <=? elapsed events)%N.
    + by destruct Hrun as [(_ & Hs & _) _].
    + by destruct Hrun as [(_ & Hs & _) _].
  - destruct (NATIVE_MESSAGE_TIMEOUT <=? elapsed events)%N.
    + by destruct Hrun as [(Hh & _) _].
    + by destruct Hrun as [(Hh & _) _].
  - intros Hlate. apply N.leb_le in Hlate. rewrite Hlate in Hrun.
    apply N.leb_le in Hlate.
    destruct Hrun as [(_ & Hs & Hnone & Hp) _].
    set (c1 := sendMessage id command data (Ok tt) c) in *.
    assert (Hreach1 : reachable connectNative c1)
      by apply (reachable_step connectNative c
                  (SendMessage id command data (Ok tt)) Hreach).
    destruct (sendMessage_own_timer id command data c Hreach Hport)
      as [Hp1 Hown1]. fold c1 in Hp1, Hown1.
    pose proof (run_own_timers _ _ events c1 Hp1 Hown1) as Hown.
    pose proof (reachable_punctual connectNative _
                  (reachable_run connectNative c1 events Hreach1)) as Hpunct.
    assert (Hq : Quiet (promises c) (run c1 events)).
    { split_and!; [done| |done]. intros t id' Hin E.
      pose proof (Hown t id' Hin E) as Hdue.
      pose proof (Hpunct t Hin) as Hlt.
      rewrite clock_run, Hclock in Hlt. lia. }
    by rewrite run_app, (run_quiet connectNative _ later _ Hq).
  - intros c0 q Hq. cbn. destruct (messageHandlers c0 !! id); [|done].
    rewrite settlements_settle, decide_False by done. by rewrite app_nil_r.
  - intros c0 id' Hne. cbn. destruct (messageHandlers c0 !! id); [|done].
    cbn. by rewrite lookup_delete_ne.
Qed.

End Facts.

(** A request answered after three seconds: resolved once; the timeout
    and the second copy of the response find nothing to do, and the id
    being generated again later does not touch the outcome. *)
Lemma exactly_once_completion_witness :
  settlements (promises Samples.client)
    (run Samples.alwaysOpens
       (sendMessage "req_1" "ping" Undefined (Ok tt) Samples.client)
       Samples.answeredTwice)
  = [Resolve (Array [])]
  /\ messageHandlers
       (run Samples.alwaysOpens
          (sendMessage "req_1" "ping" Undefined (Ok tt) Samples.client)
          Samples.answeredTwice) !! "req_1"
     = None
  /\ exists rest,
       settlements (promises Samples.client)
         (run Samples.alwaysOpens
            (sendMessage "req_1" "ping" Undefined (Ok tt) Samples.client)
            (Samples.answeredTwice
             ++ [SendMessage "req_1" "ping" Undefined (Ok tt); Advance 20000]))
       = Resolve (Array []) :: rest.
Proof.
  destruct (exactly_once_completion Samples.alwaysOpens Samples.client
              "req_1" "ping" Undefined Samples.answeredTwice
              [SendMessage "req_1" "ping" Undefined (Ok tt); Advance 20000])
    as (H1 & H2 & H3 & _).
  - by exists 0%N, [].
  - by exists 0%nat.
  - intros t p Hin. by apply elem_of_nil in Hin.
  - repeat (constructor; [cbn; tauto|]). constructor.
  - split_and!; [exact H1|exact H2|]. by apply H3.
Defined.

(** A request left unanswered for ten seconds; its id is generated again
    afterwards. *)
Lemma timeout_rejects_caller_witness :
  settlements (promises Samples.client)
    (run Samples.alwaysOpens
       (sendMessage "req_1" "ping" Undefined (Ok tt) Samples.client)
       Samples.unanswered)
  = [Reject (Error "Native messaging timeout")]
  /\ messageHandlers
       (run Samples.alwaysOpens
          (sendMessage "req_1" "ping" Undefined (Ok tt) Samples.client)
          Samples.unanswered) !! "req_1"
     = None
  /\ settlements (promises Samples.client)
       (run Samples.alwaysOpens
          (sendMessage "req_1" "ping" Undefined (Ok tt) Samples.client)
          (Samples.unanswered
           ++ [ SendMessage "req_1" "ping" Undefined (Ok tt)
              ; OnMessage (Samples.answer "req_1") ]))
     = [Reject (Error "Native messaging timeout")].
Proof.
  destruct (timeout_rejects_caller Samples.alwaysOpens Samples.client
              "req_1" "ping" Undefined Samples.unanswered
              [ SendMessage "req_1" "ping" Undefined (Ok tt)
              ; OnMessage (Samples.answer "req_1") ])
    as (_ & H1 & H2 & H3 & _).
  - by exists 0%N, [].
  - by exists 0%nat.
  - intros t p Hin. by apply elem_of_nil in Hin.
  - repeat (constructor; [cbn; try tauto; discriminate|]). constructor.
  - repeat (constructor; [cbn; try tauto; discriminate|]). constructor.
  - split_and!; [exact H1|exact H2|]. apply H3. by vm_compute.
Defined.

(** Against C2 as stated.  Two requests that [sendMessage] registered
    and that are never completed, although each gets a response within
    its window.  First: request ["x"] is answered and, two seconds
    later, the id ["x"] is generated again, when it is not pending; the
    timer of the first request, still set, finds the new entry at its own
    deadline and removes it, so the response to the second request, eight
    seconds after it was sent, finds no entry and is dropped.  Second:
    the id ["y"] is generated again while request ["y"] is pending; the
    response goes to the newer request and the timer of the older one
    finds no entry. *)
Lemma reused_id_is_never_completed :
  (let c := run Samples.alwaysOpens Samples.client
              [ SendMessage "x" "ping" Undefined (Ok tt)
              ; OnMessage (Samples.answer "x")
              ; Advance 2000 ] in
   let c' := run Samples.alwaysOpens
               (sendMessage "x" "ping" Undefined (Ok tt) c)
               [ Advance 8000; OnMessage (Samples.answer "x"); Advance 20000 ] in
   messageHandlers c !! "x" = None
   /\ is_Some (port c)
   /\ promises c = 1%nat
   /\ settlements 1 c' = []
   /\ messageHandlers c' = ∅ /\ timers c' = [])
  /\ (let c' := run Samples.alwaysOpens
                  (sendMessage "y" "ping" Undefined (Ok tt) Samples.client)
                  [ Advance 1000
                  ; SendMessage "y" "ping" Undefined (Ok tt)
                  ; OnMessage (Samples.answer "y")
                  ; Advance 20000 ] in
      promises Samples.client = 0%nat
      /\ settlements 0 c' = []
      /\ messageHandlers c' = ∅ /\ timers c' = []).
Proof.
  cbn zeta. split_and!; try by vm_compute.
  by exists 0%nat.
Qed.

(** Against C8 as stated.  Two requests that [sendMessage] registered,
    that no response is delivered to, and that are never rejected.
    First: request ["x"] is answered and, two seconds later, the id
    ["x"] is generated again, when it is not pending; eight seconds after
    that the timer of the first request removes the entry of the second
    and calls [reject] on the promise of the first; the second promise is
    untouched then and after its own ten seconds.  Second: the id ["y"]
    is generated again while request ["y"] is pending, for a message that
    [postMessage] refuses; the [catch] removes the entry, and the timer of
    the older request finds none. *)
Lemma reused_id_is_never_timed_out :
  (let c := run Samples.alwaysOpens Samples.client
              [ SendMessage "x" "ping" Undefined (Ok tt)
              ; OnMessage (Samples.answer "x")
              ; Advance 2000 ] in
   let early := run Samples.alwaysOpens
                  (sendMessage "x" "ping" Undefined (Ok tt) c)
                  [ Advance 8000 ] in
   let late := run Samples.alwaysOpens early [ Advance 20000 ] in
   messageHandlers c !! "x" = None
   /\ is_Some (port c)
   /\ promises c = 1%nat
   /\ messageHandlers early !! "x" = None
   /\ settlements 0 early = [Resolve (Array []); timeoutSettlement]
   /\ settlements 1 early = []
   /\ settlements 1 late = [] /\ timers late = [])
  /\ (let c' := run Samples.alwaysOpens
                  (sendMessage "y" "ping" Undefined (Ok tt) Samples.client)
                  [ Advance 1000
                  ; SendMessage "y" "ping" Undefined (Throw (Error "port closed"))
                  ; Advance 20000 ] in
      promises Samples.client = 0%nat
      /\ settlements 0 c' = []
      /\ settlements 1 c' = [Reject (Error "port closed")]
      /\ messageHandlers c' = ∅ /\ timers c' = []).
Proof.
  cbn zeta. split_and!; try by vm_compute.
  by exists 0%nat.
Qed.

End Correlation.

(* ===================================================================== *)
(** ** A request from the client to the host and back *)
(* ===================================================================== *)

Module RoundTrip.
Import Host Client Dispatch ClientFacts Wrappers.

(** A response that comes before the deadline is the first completion. *)
Lemma firstCompletion_answered id d now events response later :
  Forall (fun e => ~ answers id e) events ->
  (now + elapsed events < d)%N ->
  NativeResponse.requestId response = id ->
  firstCompletion id d now (events ++ OnMessage response :: later)
  = Some (responseSettlement response).
Proof.
  intros H. revert now. induction H as [|e events He _ IH]; intros now Hnow Hid.
  - cbn. by rewrite decide_True.
  - destruct e as [id2 command data post|r|k| |dt];
      cbn [firstCompletion elapsed app] in *; try by apply IH.
    + cbn in He. rewrite decide_False by done. by apply IH.
    + destruct (N.leb_spec d (now + dt)) as [?|_]; [lia|].
      apply IH; [lia|done].
Qed.

Section Exchange.
Context `{JsonResponse : Json NativeResponse.t}.
Context (connectNative : nat -> ConnectResult).

Local Abbreviation run := (run connectNative).

Lemma responseSettlement_responseFor message outcome :
  responseSettlement (responseFor message outcome) = delivered outcome.
Proof. by destruct outcome as [result|[[|a text]|v]]. Qed.

(** A request the host answers in time. *)
Lemma answered_in_time c id command data events response later :
  reachable connectNative c ->
  is_Some (port c) ->
  unused id c ->
  Forall (fun e => ~ reuses id e) (events ++ later) ->
  Forall (fun e => ~ answers id e) events ->
  (elapsed events < NATIVE_MESSAGE_TIMEOUT)%N ->
  NativeResponse.requestId response = id ->
  settlements (promises c)
    (run (sendMessage id command data (Ok tt) c)
       (events ++ OnMessage response :: later))
  = [responseSettlement response].
Proof.
  intros Hreach Hport Hun Hev Hans Hlt Hid.
  pose proof (reachable_bounded connectNative c Hreach) as Hb.
  pose proof (sendMessage_armed id command data c Hb Hport Hun) as Harmed.
  assert (Forall (fun e => ~ reuses id e) (events ++ OnMessage response :: later))
    as Hev'.
  { apply Forall_app in Hev as [H1 H2]. apply Forall_app. split; [done|].
    constructor; [|done]. cbn. tauto. }
  pose proof (run_armed connectNative _ _ _ _ _ Hev' Harmed) as Hrun.
  assert (Hclock : clock (sendMessage id command data (Ok tt) c) = clock c).
  { unfold sendMessage. cbn. by destruct Hport as [k ->]. }
  rewrite Hclock in Hrun.
  rewrite (firstCompletion_answered id _ _ events response later Hans) in Hrun
    by (done || lia).
  by destruct Hrun as [(_ & Hs & _) _].
Qed.

(** X15.  A request from the client to the host and back.  A connected
    client sends a request under a fresh id, and [postMessage] takes the
    message; the host runs [handleMessage] on that message; its response
    reaches the client before the timeout.  Then the host wrote exactly
    one frame, and the promise of the caller is settled exactly once:
    resolved with the result of the host's handler, or rejected with the
    message of the error the handler threw (['Unknown error'] when the
    thrown value is no [Error], ['Native messaging error'] when the
    message is empty).  Later events change nothing. *)
Theorem request_round_trip
    (this : Env) (c : State) (id command : string) (data : Value)
    (events later : list Event) (out : Buffer) :
  let message := NativeMessage.mk command data id in
  let response := responseFor message (commandOutcome this message) in
  reachable connectNative c ->
  is_Some (port c) ->
  unused id c ->
  Forall (fun e => ~ reuses id e) (events ++ later) ->
  Forall (fun e => ~ answers id e) events ->
  (elapsed events < NATIVE_MESSAGE_TIMEOUT)%N ->
  fits (JSON_stringify response) ->
  posted (sendMessage id command data (Ok tt) c) = posted c ++ [message]
  /\ handleMessage this message out
     = (Ok tt, out ++ frame (JSON_stringify response))
  /\ settlements (promises c)
       (run (sendMessage id command data (Ok tt) c)
          (events ++ OnMessage response :: later))
     = [delivered (commandOutcome this message)].
Proof.
  intros message response Hreach Hport Hun Hev Hans Hlt Hfit. split_and!.
  - unfold sendMessage. cbn. by destruct Hport as [k ->].
  - by apply handleMessage_response.
  - rewrite (answered_in_time c id command data events response later
               Hreach Hport Hun Hev Hans Hlt).
    + unfold response. by rewrite responseSettlement_responseFor.
    + unfold response. by destruct (commandOutcome this message) as [?|[?|?]].
Qed.

(** X16.  [ping()] against a running host.  Let the request be sent
    under a fresh id (not that of a timeout still pending, and not
    generated again).  Whatever the state of the host, when its answer to
    the ['ping'] request reaches the client before the timeout, [ping()]
    returns [true]. *)
Theorem ping_round_trip
    (this : Env) (c : State) (id : string) (events later : list Event) :
  let message := NativeMessage.mk "ping" Undefined id in
  let response := responseFor message (commandOutcome this message) in
  reachable connectNative c ->
  is_Some (port c) ->
  unused id c ->
  Forall (fun e => ~ reuses id e) (events ++ later) ->
  Forall (fun e => ~ answers id e) events ->
  (elapsed events < NATIVE_MESSAGE_TIMEOUT)%N ->
  returned Wrappers.ping (promises c)
    (run (sendMessage id "ping" Undefined (Ok tt) c)
       (events ++ OnMessage response :: later))
  = Some (Bool true).
Proof.
  intros message response Hreach Hport Hun Hev Hans Hlt. unfold returned.
  by rewrite (answered_in_time c id "ping" Undefined events response later
                Hreach Hport Hun Hev Hans Hlt).
Qed.

(** X17.  [extractBookmarks()] against a running host.  Called without
    an argument it asks for the bookmarks of ['chrome'], and when the
    request is sent under a fresh id (not that of a timeout still
    pending, and not generated again) and the host's answer reaches the
    client before the timeout, it returns what the host's Chrome
    extractor returned, [[]] in place of a falsy result, and [[]] when
    that extractor failed. *)
Theorem extractBookmarks_round_trip
    (this : Env) (c : State) (id : string) (events later : list Event) :
  let data := extractBookmarksData None in
  let message := NativeMessage.mk "extractBookmarks" data id in
  let response := responseFor message (commandOutcome this message) in
  reachable connectNative c ->
  is_Some (port c) ->
  unused id c ->
  Forall (fun e => ~ reuses id e) (events ++ later) ->
  Forall (fun e => ~ answers id e) events ->
  (elapsed events < NATIVE_MESSAGE_TIMEOUT)%N ->
  returned Wrappers.extractBookmarks (promises c)
    (run (sendMessage id "extractBookmarks" data (Ok tt) c)
       (events ++ OnMessage response :: later))
  = Some (match Host.extractBookmarks (chromeExtractor this) with
          | Ok bookmarks => Js.or bookmarks (Array [])
          | Throw _ => Array []
          end).
Proof.
  intros data message response Hreach Hport Hun Hev Hans Hlt. unfold returned.
  rewrite (answered_in_time c id "extractBookmarks" data events response later
             Hreach Hport Hun Hev Hans Hlt)
    by (unfold response; by destruct (commandOutcome this message) as [?|[?|?]]).
  unfold response. rewrite responseSettlement_responseFor.
  unfold commandOutcome, runCommand. cbn.
  unfold await. cbn.
  by destruct (Host.extractBookmarks (chromeExtractor this)) as [?|[[|? ?]|?]].
Qed.

(** X18.  The wrappers hide a timeout.  When the request of a wrapper
    is sent under a fresh id (not that of a timeout still pending, and
    not generated again) and no response to it arrives, the wrapper is
    still waiting as long as less than [NATIVE_MESSAGE_TIMEOUT] has
    passed, and from then on has returned its default: [[]] for
    [extractBookmarks], [{}] for [getBookmarkDatabases], [false] for
    [ping]. *)
Theorem wrappers_after_timeout
    (c : State) (id command : string) (data : Value) (events : list Event) :
  reachable connectNative c ->
  is_Some (port c) ->
  unused id c ->
  Forall (fun e => ~ reuses id e) events ->
  Forall (fun e => ~ answers id e) events ->
  let c' := run (sendMessage id command data (Ok tt) c) events in
  let late := (NATIVE_MESSAGE_TIMEOUT <=? elapsed events)%N in
  returned Wrappers.extractBookmarks (promises c) c'
  = (if late then Some (Array []) else None)
  /\ returned Wrappers.getBookmarkDatabases (promises c) c'
     = (if late then Some (Object []) else None)
  /\ returned Wrappers.ping (promises c) c'
     = (if late then Some (Bool false) else None).
Proof.
  intros Hreach Hport Hun Hev Hans c' late.
  pose proof (reachable_bounded connectNative c Hreach) as Hb.
  pose proof (sendMessage_armed id command data c Hb Hport Hun) as Harmed.
  pose proof (run_armed connectNative _ _ _ events _ Hev Harmed) as Hrun.
  assert (Hclock : clock (sendMessage id command data (Ok tt) c) = clock c).
  { unfold sendMessage. cbn. by destruct Hport as [k ->]. }
  rewrite Hclock in Hrun.
  rewrite (firstCompletion_unanswered id _ _ events Hans) in Hrun
    by (unfold NATIVE_MESSAGE_TIMEOUT; lia).
  fold c' in Hrun. unfold returned, late.
  destruct (N.leb_spec (clock c + NATIVE_MESSAGE_TIMEOUT) (clock c + elapsed events)),
           (N.leb_spec NATIVE_MESSAGE_TIMEOUT (elapsed events)); try lia.
  - destruct Hrun as [(_ & -> & _) _]. done.
  - destruct Hrun as [(_ & -> & _) _]. done.
Qed.

End Exchange.

Lemma request_round_trip_witness :
  settlements (promises Samples.client)
    (run Samples.alwaysOpens
       (sendMessage "req_7" "launchMissiles" Null (Ok tt) Samples.client)
       ([Advance 3000]
        ++ OnMessage (responseFor Samples.launch
                        (commandOutcome Samples.host Samples.launch))
        :: [Advance 20000]))
  = [Reject (Error "Unknown command: launchMissiles")].
Proof.
  destruct (request_round_trip (JsonResponse := SampleJson.responses)
              Samples.alwaysOpens Samples.host Samples.client
              "req_7" "launchMissiles" Null [Advance 3000] [Advance 20000] [])
    as (_ & _ & H).
  - by exists 0%N, [].
  - by exists 0%nat.
  - intros t p Hin. by apply elem_of_nil in Hin.
  - repeat (constructor; [cbn; tauto|]). constructor.
  - repeat (constructor; [cbn; tauto|]). constructor.
  - by vm_compute.
  - by vm_compute.
  - exact H.
Defined.

Lemma ping_round_trip_witness :
  returned Wrappers.ping (promises Samples.client)
    (run Samples.alwaysOpens
       (sendMessage "req_1" "ping" Undefined (Ok tt) Samples.client)
       ([Advance 3000]
        ++ OnMessage (responseFor Samples.ping
                        (commandOutcome Samples.host Samples.ping))
        :: [Advance 20000]))
  = Some (Bool true).
Proof.
  apply (ping_round_trip Samples.alwaysOpens Samples.host Samples.client
           "req_1" [Advance 3000] [Advance 20000]).
  - by exists 0%N, [].
  - by exists 0%nat.
  - intros t p Hin. by apply elem_of_nil in Hin.
  - repeat (constructor; [cbn; tauto|]). constructor.
  - repeat (constructor; [cbn; tauto|]). constructor.
  - by vm_compute.
Defined.

Lemma extractBookmarks_round_trip_witness :
  let message :=
    NativeMessage.mk "extractBookmarks" (extractBookmarksData None) "req_6" in
  returned Wrappers.extractBookmarks (promises Samples.client)
    (run Samples.alwaysOpens
       (sendMessage "req_6" "extractBookmarks" (extractBookmarksData None)
          (Ok tt) Samples.client)
       ([Advance 3000]
        ++ OnMessage (responseFor message
                        (commandOutcome Samples.hostWithoutChrome message))
        :: [Advance 20000]))
  = Some (Array []).
Proof.
  apply (extractBookmarks_round_trip Samples.alwaysOpens
           Samples.hostWithoutChrome Samples.client
           "req_6" [Advance 3000] [Advance 20000]).
  - by exists 0%N, [].
  - by exists 0%nat.
  - intros t p Hin. by apply elem_of_nil in Hin.
  - repeat (constructor; [cbn; tauto|]). constructor.
  - repeat (constructor; [cbn; tauto|]). constructor.
  - by vm_compute.
Defined.

Lemma wrappers_after_timeout_witness :
  returned Wrappers.getBookmarkDatabases (promises Samples.client)
    (run Samples.alwaysOpens
       (sendMessage "req_1" "getBookmarkDatabases" Undefined (Ok tt)
          Samples.client)
       Samples.unanswered)
  = Some (Object []).
Proof.
  destruct (wrappers_after_timeout Samples.alwaysOpens Samples.client
              "req_1" "getBookmarkDatabases" Undefined Samples.unanswered)
    as (_ & H & _).
  - by exists 0%N, [].
  - by exists 0%nat.
  - intros t p Hin. by apply elem_of_nil in Hin.
  - repeat (constructor; [cbn; try tauto; discriminate|]). constructor.
  - repeat (constructor; [cbn; try tauto; discriminate|]). constructor.
  - exact H.
Defined.

End RoundTrip.

(* ===================================================================== *)
(** ** The encryption manager *)
(* ===================================================================== *)

Module EncryptionFacts.
Import Encryption.

Lemma truthyString_blank key : truthyString key = false <-> blank key.
Proof.
  unfold blank. destruct key as [[|a k]|]; cbn; split; try done; auto.
  intros [H|H]; discriminate H.
Qed.

Lemma keyOr_blank key this :
  truthyString (keyOr key this) = false <-> blank key /\ blank (getKey this).
Proof.
  rewrite <- !truthyString_blank. unfold keyOr, getKey.
  destruct (truthyString key) eqn:E; [|tauto].
  rewrite E. split; [done|]. by intros [? _].
Qed.

Lemma behind_own key data : Samples.behind key (key ++ data)%string = Some data.
Proof.
  induction key as [|a key IH]; [done|].
  change (String a key ++ data)%string with (String a (key ++ data))%string.
  cbn [Samples.behind]. by rewrite Ascii.eqb_refl.
Qed.

Lemma plain_decryptsOwn : decryptsOwn Samples.plain.
Proof.
  intros data key salt encrypted. cbn. intros [= <-]. by rewrite behind_own.
Qed.

Section Manager.
Context `{Crypto : CryptoJS}.

(** X19.  An empty key counts as no key.  [encrypt] and [decrypt] throw
    ['No encryption key available'] exactly when the [key] argument is
    missing or empty and the session key is [null] or empty; an empty
    [key] argument falls back to the session key without notice. *)
Theorem no_key_available
    (this : Manager) (text : string) (key : option string) (salt : N) :
  (encrypt this text key salt = Throw (Error "No encryption key available")
   <-> blank key /\ blank (getKey this))
  /\ (decrypt this text key = Throw (Error "No encryption key available")
      <-> blank key /\ blank (getKey this))
  /\ encrypt this text (Some EmptyString) salt = encrypt this text None salt
  /\ decrypt this text (Some EmptyString) = decrypt this text None.
Proof.
  rewrite <- keyOr_blank. unfold encrypt, decrypt, tryCatch.
  split_and!; [| |done..].
  - destruct (keyOr key this) as [[|a k]|]; cbn; [done| |done].
    split; [|done]. by destruct (AES_encrypt _ _ _).
  - destruct (keyOr key this) as [[|a k]|]; cbn; [done| |done].
    split; [|done]. by destruct (AES_decrypt _ _) as [[|b s]|e].
Qed.

(** X20.  [decrypt] undoes [encrypt], except on the empty string.  When
    [crypto-js] decrypts what it encrypted, a text that [encrypt] took is
    given back by [decrypt] called with the same [key] argument on the
    same manager, unless the text is empty: the empty string encrypts,
    and decrypting the result throws ['Decryption failed: Invalid key or
    corrupted data']. *)
Theorem encrypt_decrypt_round_trip
    (this : Manager) (data : string) (key : option string) (salt : N)
    (encrypted : string) :
  decryptsOwn Crypto ->
  encrypt this data key salt = Ok encrypted ->
  decrypt this encrypted key
  = match data with
    | EmptyString =>
        Throw (Error "Decryption failed: Invalid key or corrupted data")
    | _ => Ok data
    end.
Proof.
  intros Hown. unfold encrypt, decrypt, tryCatch.
  destruct (keyOr key this) as [[|a k]|]; [done| |done].
  destruct (AES_encrypt data (String a k) salt) as [c|e] eqn:E; [|done].
  intros [= ->]. rewrite (Hown _ _ _ _ E). by destruct data.
Qed.

(** X21.  [decrypt] never returns the empty string, and throws nothing
    but an [Error] whose message is ['No encryption key available'] or
    starts with ['Decryption failed: ']. *)
Theorem decrypt_outcomes
    (this : Manager) (encryptedData : string) (key : option string) :
  match decrypt this encryptedData key with
  | Ok decrypted => decrypted <> EmptyString
  | Throw (Error message) =>
      message = "No encryption key available"%string
      \/ startsWith "Decryption failed: " message
  | Throw (NonError _) => False
  end.
Proof.
  unfold decrypt, tryCatch.
  destruct (keyOr key this) as [[|a k]|]; [by left| |by left].
  destruct (AES_decrypt encryptedData (String a k)) as [[|b s]|e].
  - right. by eexists.
  - done.
  - right. by eexists.
Qed.

Section BookmarkData.
Context {T : Type} `{Text : JsonText T}.

(** X22.  [decryptBookmarkData] undoes [encryptBookmarkData].  When
    [crypto-js] decrypts what it encrypted and [JSON.parse] reads back
    the (non-empty) text [JSON.stringify] makes of the data, the package
    [encryptBookmarkData] returns is turned back into the data by
    [decryptBookmarkData] on the same manager: the integrity check
    passes. *)
Theorem bookmark_data_round_trip
    (this : Manager) (data : T) (salt : N) (now : Z) (package : Package) :
  decryptsOwn Crypto ->
  parse (stringify data) = Some data ->
  stringify data <> EmptyString ->
  encryptBookmarkData this data salt now = Ok package ->
  decryptBookmarkData this package = Ok data.
Proof.
  intros Hown Hparse Hne. unfold encryptBookmarkData, decryptBookmarkData.
  destruct (encrypt this (stringify data) None salt) as [c|e] eqn:E; [|done].
  intros [= <-]. cbn.
  rewrite (encrypt_decrypt_round_trip _ _ _ _ _ Hown E).
  destruct (stringify data) as [|a s] eqn:Es; [done|].
  unfold verifyChecksum. rewrite String.eqb_refl. cbn. by rewrite Hparse.
Qed.

(** X23.  The integrity check comes before parsing.  Whenever the
    encrypted part of a package decrypts, a checksum other than the
    SHA-256 of the decrypted text makes [decryptBookmarkData] throw
    ['Data integrity check failed'], whether or not the text is valid
    JSON and whatever the timestamp; and a value is returned only when
    the checksum is that SHA-256 and the text parses to the value. *)
Theorem wrong_checksum_is_refused
    (this : Manager) (package : Package) (decrypted other : string)
    (time : Z) :
  decrypt this (encrypted package) None = Ok decrypted ->
  other <> createChecksum decrypted ->
  decryptBookmarkData this (mkPackage (encrypted package) other time)
  = Throw (Error "Data integrity check failed")
  /\ (forall value,
        decryptBookmarkData this package = Ok value ->
        checksum package = createChecksum decrypted
        /\ parse decrypted = Some value).
Proof.
  intros Hd Hother.
  unfold decryptBookmarkData, verifyChecksum. cbn [encrypted checksum].
  rewrite Hd. split.
  - destruct (String.eqb_spec (createChecksum decrypted) other) as [E|_];
      [|done].
    by destruct Hother.
  - intros value.
    destruct (String.eqb_spec (createChecksum decrypted) (checksum package))
      as [Hsum|Hsum]; cbn; [|done].
    by destruct (parse decrypted) as [v|]; [intros [= ->]|].
Qed.

End BookmarkData.

End Manager.

Lemma encrypt_decrypt_round_trip_witness :
  decrypt (Crypto := Samples.plain) Samples.manager
    "correct horsebattery staple" None
  = Ok "battery staple"%string.
Proof.
  apply (encrypt_decrypt_round_trip (Crypto := Samples.plain)
           Samples.manager "battery staple" None 7).
  - exact plain_decryptsOwn.
  - reflexivity.
Defined.

Lemma bookmark_data_round_trip_witness :
  decryptBookmarkData (Crypto := Samples.plain) (Text := Samples.values)
    Samples.manager
    (mkPackage
       ("correct horse" ++ SampleJson.show Samples.bookmark)
       ("sha256:" ++ SampleJson.show Samples.bookmark)
       1700000000000)
  = Ok Samples.bookmark.
Proof.
  apply (bookmark_data_round_trip (Crypto := Samples.plain)
           (Text := Samples.values) Samples.manager Samples.bookmark
           7 1700000000000).
  - exact plain_decryptsOwn.
  - by vm_compute.
  - by vm_compute.
  - reflexivity.
Defined.

(** A package whose text is no JSON and whose checksum is wrong: the
    integrity error, not the parse error. *)
Lemma wrong_checksum_is_refused_witness :
  decryptBookmarkData (Crypto := Samples.plain) (Text := Samples.values)
    Samples.manager
    (mkPackage "correct horse{not json" "sha256:" 0)
  = Throw (Error "Data integrity check failed").
Proof.
  destruct (wrong_checksum_is_refused (Crypto := Samples.plain)
              (Text := Samples.values) Samples.manager
              (mkPackage "correct horse{not json" "sha256:{not json"
                 1700000000000)
              "{not json" "sha256:" 0) as [H _].
  - by vm_compute.
  - by vm_compute.
  - exact H.
Defined.

End EncryptionFacts.
